(** * nsqd: topic data plane and broker maintenance loops

  A shallow embedding of [nsqd/topic.go] and of the topic registry and
  queue-scan code of [nsqd/nsqd.go], with the properties of the
  specification proved about it.

  Conventions.
  - Go integers are [Z] with the wrap-around of their width written out
    ([uint64], [int]).
  - A Go [error] is a [string] (the message of [errors.New]); the [nil]
    error is [None].
  - Methods with a pointer receiver become functions in a state monad over
    the objects they can reach; calls into collaborators whose code is not
    part of the verified files (channels, logger, lookupd notification) are
    recorded in an event log.
  - Maps are stdpp [gmap]s. *)

From Stdlib Require Import ZArith QArith Lia List String.
From Stdlib.Strings Require Import Byte.
From stdpp Require Import gmap strings list fin_maps pretty.

Local Open Scope string_scope.
Local Open Scope list_scope.
Local Open Scope Z_scope.

(** ** Go primitives *)

Module Go.

Definition error : Type := string.

(** [uint64(z)]: conversion to (and arithmetic in) 64-bit unsigned. *)
Definition uint64 (z : Z) : Z := z mod 2 ^ 64.

(** [int(z)] on a 64-bit platform: two's complement wrap-around. *)
Definition int (z : Z) : Z := (z + 2 ^ 63) mod 2 ^ 64 - 2 ^ 63.

(** [atomic.AddUint64(&v, delta)] returns the new value of [v]. *)
Definition AddUint64 (v delta : Z) : Z := uint64 (v + delta).

(** [len(s)] of a slice. *)
Definition len {A} (s : list A) : Z := Z.of_nat (length s).

(** A buffered channel [make(chan A, cap)]: the queued elements, oldest
    first, and the capacity. *)
Record chan (A : Type) : Type := mkChan { buf : list A; cap : Z }.
Arguments mkChan {A} _ _.
Arguments buf {A} _.
Arguments cap {A} _.

Definition make_chan {A} (capacity : Z) : chan A := mkChan [] capacity.

(** [select { case c <- x: ... default: ... }]: the send is taken when the
    buffer has room; [None] is the [default] branch. *)
Definition try_send {A} (c : chan A) (x : A) : option (chan A) :=
  if len (buf c) <? cap c then Some (mkChan (buf c ++ [x]) (cap c)) else None.

(** [select { case x := <-c: ... default: ... }]. *)
Definition try_recv {A} (c : chan A) : option (A * chan A) :=
  match buf c with
  | [] => None
  | x :: rest => Some (x, mkChan rest (cap c))
  end.

(** [sync.Once]: the [done] flag. [Once_Do] tells whether the function is
    to be run, and gives the new flag. *)
Definition Once : Type := bool.
Definition Once_Do (o : Once) : bool * Once := (negb o, true).

End Go.
Import Go.

(** ** Messages *)

(** Modelled from the spec: the [Message] struct of [message.go], which is
  not among the verified files (section 3, "Message"): a 16-byte id, the
  body, the creation time in nanoseconds, the 16-bit attempt counter, the
  defer delay, and the three fields used while the message sits in a
  priority queue. *)
Record Message : Type := mkMessage {
ID : list byte;
Body : list byte;
Timestamp : Z;
Attempts : Z;
deferred : Z;
clientID : Z;
pri : Z;
index : Z
}.

Definition byte_of_Z (z : Z) : byte :=
match Byte.of_N (Z.to_N (z mod 256)) with
| Some b => b
| None => x00
end.

(** [n] bytes of [z], most significant first. *)
Fixpoint big_endian (n : nat) (z : Z) : list byte :=
match n with
| O => []
| S k => byte_of_Z (Z.shiftr z (8 * Z.of_nat k)) :: big_endian k z
end.

(** Modelled from the spec: the frame [Message.WriteTo] produces (section 6,
  "Message wire framing on spill"): timestamp as big-endian uint64, attempts
  as uint16, the id, then the body. *)
Definition WriteTo (m : Message) : list byte :=
big_endian 8 (Timestamp m) ++ big_endian 2 (Attempts m) ++ ID m ++ Body m.

(** ** The backend queue interface *)

(** [BackendQueue] (section 6): every method acts on the queue and may fail. *)
Class BackendQueue (B : Type) : Type := {
bq_Put : list byte -> B -> B * option error;
bq_Close : B -> B * option error;
bq_Delete : B -> B * option error;
bq_Depth : B -> Z;
bq_Empty : B -> B * option error
}.

(** Modelled from the spec: the backend of an ephemeral topic
  ([newDummyBackendQueue]), "a backend that discards writes and reports
  [Depth()==0]". *)
Inductive dummyBackendQueue : Type := DummyBackend.

#[export] Instance dummy_BackendQueue : BackendQueue dummyBackendQueue := {|
bq_Put := fun _ b => (b, None);
bq_Close := fun b => (b, None);
bq_Delete := fun b => (b, None);
bq_Depth := fun _ => 0;
bq_Empty := fun b => (b, None)
|}.

(** A disk queue of bounded room, used to exercise the failure paths: it
  stores frames until [room] is used up, then every write fails. *)
Record boundedDisk : Type := mkDisk {
frames : list (list byte);
room : nat;
disk_open : bool
}.

Definition disk_Put (data : list byte) (d : boundedDisk) : boundedDisk * option error :=
match room d with
| O => (d, Some "no space left on device")
| S r => (mkDisk (frames d ++ [data]) r (disk_open d), None)
end.

#[export] Instance boundedDisk_BackendQueue : BackendQueue boundedDisk := {|
bq_Put := disk_Put;
bq_Close := fun d => (mkDisk (frames d) (room d) false, None);
bq_Delete := fun d => (mkDisk [] (room d) false, None);
bq_Depth := fun d => len (frames d);
bq_Empty := fun d => (mkDisk [] (room d) (disk_open d), None)
|}.


(** ** float64 arithmetic *)

(** The float64 values and operations the broker uses, written out over
    exact rationals: an operation gives the exact result rounded to 53
    significant bits, ties to even. The exponent range of float64 is not
    modelled: the finite values met here are 64-bit integers, their products
    with 0.25 and their quotients, all far inside it. *)
Module Float64.

Inductive float64 : Type :=
| Finite (q : Q)
| Inf (negative : bool)
| NaN.

(** [n / d] rounded to the nearest integer, ties to even; [0 <= n], [0 < d]. *)
Definition round_half_even (n d : Z) : Z :=
  let q := n / d in
  let r := n mod d in
  if 2 * r <? d then q
  else if d <? 2 * r then q + 1
  else if Z.even q then q else q + 1.

(** The positive rational [n / d] rounded to 53 significant bits: the
    mantissa [m] and exponent [e] of the result [m * 2^e]. The quotient is
    first scaled by the power of two [2^k] that brings it into
    [2^52, 2^53). *)
Definition round_pos (n d : Z) : Z * Z :=
  let k0 := 52 + Z.log2 d - Z.log2 n in
  let k := if n * 2 ^ Z.max k0 0 <? 2 ^ 52 * (d * 2 ^ Z.max (- k0) 0) then k0 + 1 else k0 in
  (round_half_even (n * 2 ^ Z.max k 0) (d * 2 ^ Z.max (- k) 0), - k).

(** [m * 2^e] as a rational, [0 < m]. *)
Definition ldexp (m e : Z) : Q :=
  if 0 <=? e then Qmake (m * 2 ^ e) 1 else Qmake m (Z.to_pos (2 ^ (- e))).

(** A rational rounded to float64. *)
Definition round (x : Q) : Q :=
  match Qnum x with
  | Z0 => Qmake 0 1
  | Zpos n => let (m, e) := round_pos (Zpos n) (Zpos (Qden x)) in ldexp m e
  | Zneg n => let (m, e) := round_pos (Zpos n) (Zpos (Qden x)) in Qopp (ldexp m e)
  end.

(** [float64(z)] of an integer. *)
Definition of_int (z : Z) : float64 := Finite (round (inject_Z z)).

Definition is_zero (q : Q) : bool := Qnum q =? 0.
Definition is_neg (q : Q) : bool := Qnum q <? 0.

(** [x * y]. *)
Definition mul (x y : float64) : float64 :=
  match x, y with
  | NaN, _ | _, NaN => NaN
  | Finite a, Finite b => Finite (round (Qmult a b))
  | Inf s, Finite b | Finite b, Inf s =>
      if is_zero b then NaN else Inf (xorb s (is_neg b))
  | Inf s, Inf s' => Inf (xorb s s')
  end.

(** [x / y]. *)
Definition div (x y : float64) : float64 :=
  match x, y with
  | NaN, _ | _, NaN => NaN
  | Finite a, Finite b =>
      if is_zero b then (if is_zero a then NaN else Inf (is_neg a))
      else Finite (round (Qdiv a b))
  | Finite _, Inf _ => Finite (Qmake 0 1)
  | Inf s, Finite b => Inf (xorb s (is_neg b))
  | Inf _, Inf _ => NaN
  end.

(** [x > y]; false as soon as one side is NaN. *)
Definition gt (x y : float64) : bool :=
  match x, y with
  | NaN, _ | _, NaN => false
  | Finite a, Finite b =>
      match Qcompare a b with Gt => true | _ => false end
  | Inf s, Inf s' => negb s && s'
  | Inf s, Finite _ => negb s
  | Finite _, Inf s => s
  end.

(** [int(x)]: truncation towards zero. What the conversion gives for a
    value that is no number, or out of range, is left to the platform; on
    amd64 it is the least [int]. *)
Definition to_int (x : float64) : Z :=
  match x with
  | Finite q => Z.quot (Qnum q) (Zpos (Qden q))
  | _ => - 2 ^ 63
  end.

Definition quarter : float64 := Finite (Qmake 1 4).
Definition one : float64 := Finite (Qmake 1 1).
Definition zero : float64 := Finite (Qmake 0 1).

End Float64.

(** [float64(a)] as an integer, [0 < a]: [a] itself below [2^53], and above
    it [a] rounded to a multiple of the power of two that leaves 53 bits. *)
Definition round_int (a : Z) : Z :=
  if a <? 2 ^ 53 then a
  else Float64.round_half_even a (2 ^ (Z.log2 a - 52)) * 2 ^ (Z.log2 a - 52).

(** ** Topics *)

(** A channel of a topic. Its code ([channel.go]) is outside the verified
  files: a channel is known here by its names, and calls of its methods are
  recorded as events. *)
Record Channel : Type := mkChannel {
channel_topicName : string;
channel_name : string
}.

Inductive LogLevel : Type := LOG_INFO | LOG_WARN | LOG_ERROR.

(** What a topic method does to its collaborators, in program order. *)
Inductive event : Type :=
| Logf (lvl : LogLevel) (text : string)
| Notify (topicName : string)
| NewChannel (topicName channelName : string)
| Channel_Delete (channelName : string)
| Channel_Close (channelName : string)
| Send_channelUpdateChan
| Close_exitChan
| WaitGroup_Wait
| Go_deleter_Do
| DeleteCallback (topicName : string)
| Go_messagePump (topicName : string)
| Query_lookupd (topicName : string).

Record errStore : Type := mkErrStore { err : option error }.

Section TopicModel.

Context {B : Type} `{BackendQueue B}.

(** [type Topic struct]: the fields the verified methods read or write.
    [exitChan] is [true] once the channel has been closed; [deleter] is the
    [sync.Once] of the deletion callback. *)
Record Topic : Type := mkTopic {
  messageCount : Z;
  messageBytes : Z;
  name : string;
  channelMap : gmap string Channel;
  backend : B;
  memoryMsgChan : chan Message;
  startChan : chan Z;
  exitChan : bool;
  exitFlag : Z;
  ephemeral : bool;
  deleter : Once;
  paused : Z
}.

Definition set_messageCount (v : Z) (t : Topic) : Topic :=
  mkTopic v (messageBytes t) (name t) (channelMap t) (backend t) (memoryMsgChan t) (startChan t) (exitChan t) (exitFlag t) (ephemeral t) (deleter t) (paused t).
Definition set_messageBytes (v : Z) (t : Topic) : Topic :=
  mkTopic (messageCount t) v (name t) (channelMap t) (backend t) (memoryMsgChan t) (startChan t) (exitChan t) (exitFlag t) (ephemeral t) (deleter t) (paused t).
Definition set_channelMap (v : gmap string Channel) (t : Topic) : Topic :=
  mkTopic (messageCount t) (messageBytes t) (name t) v (backend t) (memoryMsgChan t) (startChan t) (exitChan t) (exitFlag t) (ephemeral t) (deleter t) (paused t).
Definition set_backend (v : B) (t : Topic) : Topic :=
  mkTopic (messageCount t) (messageBytes t) (name t) (channelMap t) v (memoryMsgChan t) (startChan t) (exitChan t) (exitFlag t) (ephemeral t) (deleter t) (paused t).
Definition set_memoryMsgChan (v : chan Message) (t : Topic) : Topic :=
  mkTopic (messageCount t) (messageBytes t) (name t) (channelMap t) (backend t) v (startChan t) (exitChan t) (exitFlag t) (ephemeral t) (deleter t) (paused t).
Definition set_startChan (v : chan Z) (t : Topic) : Topic :=
  mkTopic (messageCount t) (messageBytes t) (name t) (channelMap t) (backend t) (memoryMsgChan t) v (exitChan t) (exitFlag t) (ephemeral t) (deleter t) (paused t).
Definition set_exitChan (v : bool) (t : Topic) : Topic :=
  mkTopic (messageCount t) (messageBytes t) (name t) (channelMap t) (backend t) (memoryMsgChan t) (startChan t) v (exitFlag t) (ephemeral t) (deleter t) (paused t).
Definition set_exitFlag (v : Z) (t : Topic) : Topic :=
  mkTopic (messageCount t) (messageBytes t) (name t) (channelMap t) (backend t) (memoryMsgChan t) (startChan t) (exitChan t) v (ephemeral t) (deleter t) (paused t).
Definition set_deleter (v : Once) (t : Topic) : Topic :=
  mkTopic (messageCount t) (messageBytes t) (name t) (channelMap t) (backend t) (memoryMsgChan t) (startChan t) (exitChan t) (exitFlag t) (ephemeral t) v (paused t).
Definition set_paused (v : Z) (t : Topic) : Topic :=
  mkTopic (messageCount t) (messageBytes t) (name t) (channelMap t) (backend t) (memoryMsgChan t) (startChan t) (exitChan t) (exitFlag t) (ephemeral t) (deleter t) v.

(** Everything a topic method can reach: the topic itself, the broker's
    health sentinel ([t.ctx.nsqd.errValue]), the package-level buffer pool
    (each pooled buffer with the bytes it still holds), the goroutines
    started with [go t.deleter.Do(...)] that have not run yet, and the
    events so far (oldest first). *)
Record World : Type := mkWorld {
  topic : Topic;
  errValue : errStore;
  bp : list (list byte);
  spawned : nat;
  events : list event
}.

(** *** The state monad of topic methods *)

Definition M (A : Type) : Type := World -> A * World.

Definition ret {A} (a : A) : M A := fun w => (a, w).
Definition bind {A C} (c : M A) (k : A -> M C) : M C :=
  fun w => let (a, w') := c w in k a w'.

Notation "x <- c ;; k" := (bind c (fun x => k))
  (at level 100, c at next level, right associativity).
Notation "c ;; k" := (bind c (fun _ => k))
  (at level 100, right associativity).

Definition get_topic : M Topic := fun w => (topic w, w).
Definition modify_topic (f : Topic -> Topic) : M unit :=
  fun w => (tt, mkWorld (f (topic w)) (errValue w) (bp w) (spawned w) (events w)).
Definition emit (e : event) : M unit :=
  fun w => (tt, mkWorld (topic w) (errValue w) (bp w) (spawned w) (events w ++ [e])).

(** [n.SetHealth(err)]: [n.errValue.Store(errStore{err: err})]. *)
Definition SetHealth (e : option error) : M unit :=
  fun w => (tt, mkWorld (topic w) (mkErrStore e) (bp w) (spawned w) (events w)).

(** Modelled from the spec: [bufferPoolGet] and [bufferPoolPut] of
    [buffer_pool.go] ("reuses encode buffers on the spill path"): a buffer is
    taken from the pool, or allocated empty when the pool has none, and is
    put back with what was written to it. *)
Definition bufferPoolGet : M (list byte) :=
  fun w => match bp w with
           | [] => ([], w)
           | b :: rest => (b, mkWorld (topic w) (errValue w) rest (spawned w) (events w))
           end.
Definition bufferPoolPut (b : list byte) : M unit :=
  fun w => (tt, mkWorld (topic w) (errValue w) (b :: bp w) (spawned w) (events w)).

(** Modelled from the spec: [writeMessageToBackend] of [message.go]: the
    buffer is reset, the message is framed into it, and the frame is put on
    the backend. It gives back the buffer and the result of the write. *)
Definition writeMessageToBackend (b : list byte) (m : Message) : M (list byte * option error) :=
  fun w =>
    let frame := WriteTo m in
    let (backend', e) := bq_Put frame (backend (topic w)) in
    ((frame, e),
     mkWorld (set_backend backend' (topic w)) (errValue w) (bp w) (spawned w) (events w)).

(** *** [put], [PutMessage], [PutMessages] *)

Definition put (m : Message) : M (option error) :=
  t <- get_topic ;;
  match try_send (memoryMsgChan t) m with
  | Some c => modify_topic (set_memoryMsgChan c) ;; ret None
  | None =>
      b <- bufferPoolGet ;;
      r <- writeMessageToBackend b m ;;
      bufferPoolPut (fst r) ;;
      SetHealth (snd r) ;;
      match snd r with
      | Some e =>
          emit (Logf LOG_ERROR
                  ("TOPIC(" ++ name t ++ ") ERROR: failed to write message to backend - " ++ e)) ;;
          ret (Some e)
      | None => ret None
      end
  end.

Definition PutMessage (m : Message) : M (option error) :=
  t <- get_topic ;;
  if exitFlag t =? 1 then ret (Some "exiting")
  else
    e <- put m ;;
    match e with
    | Some e => ret (Some e)
    | None =>
        modify_topic (fun t => set_messageCount (AddUint64 (messageCount t) 1) t) ;;
        modify_topic (fun t => set_messageBytes
                                 (AddUint64 (messageBytes t) (uint64 (len (Body m)))) t) ;;
        ret None
    end.

(** The [for i, m := range msgs] loop of [PutMessages], from index [i] on
    with the running [messageTotalBytes]: [inl e] when the body returned
    [e], [inr total] when the loop ran to its end. *)
Fixpoint PutMessages_range (i messageTotalBytes : Z) (msgs : list Message)
  : M (error + Z) :=
  match msgs with
  | [] => ret (inr messageTotalBytes)
  | m :: rest =>
      e <- put m ;;
      match e with
      | Some e =>
          modify_topic (fun t => set_messageCount (AddUint64 (messageCount t) (uint64 i)) t) ;;
          modify_topic (fun t => set_messageBytes
                                   (AddUint64 (messageBytes t) (uint64 messageTotalBytes)) t) ;;
          ret (inl e)
      | None => PutMessages_range (i + 1) (int (messageTotalBytes + len (Body m))) rest
      end
  end.

Definition PutMessages (msgs : list Message) : M (option error) :=
  t <- get_topic ;;
  if exitFlag t =? 1 then ret (Some "exiting")
  else
    r <- PutMessages_range 0 0 msgs ;;
    match r with
    | inl e => ret (Some e)
    | inr messageTotalBytes =>
        modify_topic (fun t => set_messageBytes
                                 (AddUint64 (messageBytes t) (uint64 messageTotalBytes)) t) ;;
        modify_topic (fun t => set_messageCount
                                 (AddUint64 (messageCount t) (uint64 (len msgs))) t) ;;
        ret None
    end.

(** *** Channel registry *)

(** [select { case t.channelUpdateChan <- 1: case <-t.exitChan: }]: the
    pump is told of the change unless the topic has shut down. *)
Definition notify_channelUpdate : M unit :=
  t <- get_topic ;;
  if exitChan t then ret tt else emit Send_channelUpdateChan.

Definition getOrCreateChannel (channelName : string) : M (Channel * bool) :=
  t <- get_topic ;;
  match channelMap t !! channelName with
  | None =>
      let channel := mkChannel (name t) channelName in
      emit (NewChannel (name t) channelName) ;;
      modify_topic (fun t => set_channelMap (<[channelName := channel]> (channelMap t)) t) ;;
      emit (Logf LOG_INFO
              ("TOPIC(" ++ name t ++ "): new channel(" ++ channel_name channel ++ ")")) ;;
      ret (channel, true)
  | Some channel => ret (channel, false)
  end.

Definition GetChannel (channelName : string) : M Channel :=
  r <- getOrCreateChannel channelName ;;
  (if snd r then notify_channelUpdate else ret tt) ;;
  ret (fst r).

Definition GetExistingChannel (channelName : string) : M (option Channel * option error) :=
  t <- get_topic ;;
  match channelMap t !! channelName with
  | None => ret (None, Some "channel does not exist")
  | Some channel => ret (Some channel, None)
  end.

(** [go t.deleter.Do(func() { t.deleteCallback(t) })]: the goroutine is
    started here and runs later, see [deleter_goroutine]. *)
Definition go_deleter_Do : M unit :=
  emit Go_deleter_Do ;;
  fun w => (tt, mkWorld (topic w) (errValue w) (bp w) (S (spawned w)) (events w)).

(** One started goroutine runs [t.deleter.Do(...)]: the callback is called
    unless the latch was used before. Nothing happens when no goroutine is
    waiting to run. *)
Definition deleter_goroutine : M unit :=
  fun w =>
    match spawned w with
    | O => (tt, w)
    | S k =>
        let t := topic w in
        let (run, latch) := Once_Do (deleter t) in
        (tt, mkWorld (set_deleter latch t) (errValue w) (bp w) k
               (events w ++ (if run then [DeleteCallback (name t)] else [])))
    end.

Definition DeleteExistingChannel (channelName : string) : M (option error) :=
  t <- get_topic ;;
  match channelMap t !! channelName with
  | None => ret (Some "channel does not exist")
  | Some channel =>
      modify_topic (fun t => set_channelMap (delete channelName (channelMap t)) t) ;;
      t' <- get_topic ;;
      let numChannels := Z.of_nat (size (channelMap t')) in
      emit (Logf LOG_INFO
              ("TOPIC(" ++ name t ++ "): deleting channel " ++ channel_name channel)) ;;
      emit (Channel_Delete (channel_name channel)) ;;
      notify_channelUpdate ;;
      (if (numChannels =? 0) && ephemeral t then go_deleter_Do else ret tt) ;;
      ret None
  end.

(** *** Shutdown *)

Definition backend_call (f : B -> B * option error) : M (option error) :=
  fun w =>
    let (backend', e) := f (backend (topic w)) in
    (e, mkWorld (set_backend backend' (topic w)) (errValue w) (bp w) (spawned w) (events w)).

(** The receive loop of [Empty]: one message leaves the memory queue per
    iteration until the [default] branch is taken. *)
Fixpoint Empty_loop (pending : list Message) : M unit :=
  match pending with
  | [] => ret tt
  | _ :: rest =>
      modify_topic (fun t => set_memoryMsgChan (mkChan rest (cap (memoryMsgChan t))) t) ;;
      Empty_loop rest
  end.

Definition Empty : M (option error) :=
  t <- get_topic ;;
  Empty_loop (buf (memoryMsgChan t)) ;;
  backend_call bq_Empty.

(** The receive loop of [flush]; [msgBuf] is the local buffer. *)
Fixpoint flush_loop (msgBuf : list byte) (pending : list Message) : M unit :=
  match pending with
  | [] => ret tt
  | msg :: rest =>
      modify_topic (fun t => set_memoryMsgChan (mkChan rest (cap (memoryMsgChan t))) t) ;;
      r <- writeMessageToBackend msgBuf msg ;;
      match snd r with
      | Some e =>
          emit (Logf LOG_ERROR ("ERROR: failed to write message to backend - " ++ e))
      | None => ret tt
      end ;;
      flush_loop (fst r) rest
  end.

Definition flush : M (option error) :=
  t <- get_topic ;;
  (if 0 <? len (buf (memoryMsgChan t))
   then emit (Logf LOG_INFO
                ("TOPIC(" ++ name t ++ "): flushing "
                 ++ pretty (len (buf (memoryMsgChan t))) ++ " memory messages to backend"))
   else ret tt) ;;
  flush_loop [] (buf (memoryMsgChan t)) ;;
  ret None.

(** What [channel.Close()] returns is decided by the channel's code. *)
Variable Channel_Close_result : Channel -> option error.

(** [for _, channel := range t.channelMap { delete(...); channel.Delete() }] *)
Fixpoint exit_delete_channels (channels : list Channel) : M unit :=
  match channels with
  | [] => ret tt
  | channel :: rest =>
      modify_topic (fun t => set_channelMap (delete (channel_name channel) (channelMap t)) t) ;;
      emit (Channel_Delete (channel_name channel)) ;;
      exit_delete_channels rest
  end.

(** [for _, channel := range t.channelMap { err := channel.Close() ... }] *)
Fixpoint exit_close_channels (channels : list Channel) : M unit :=
  match channels with
  | [] => ret tt
  | channel :: rest =>
      emit (Channel_Close (channel_name channel)) ;;
      match Channel_Close_result channel with
      | Some e =>
          emit (Logf LOG_ERROR ("channel(" ++ channel_name channel ++ ") close - " ++ e))
      | None => ret tt
      end ;;
      exit_close_channels rest
  end.

(** [exit]. The first test is
    [!atomic.CompareAndSwapInt32(&t.exitFlag, 0, 1)]. *)
Definition exit (deleted : bool) : M (option error) :=
  t <- get_topic ;;
  if negb (exitFlag t =? 0) then ret (Some "exiting")
  else
    modify_topic (set_exitFlag 1) ;;
    (if deleted
     then emit (Logf LOG_INFO ("TOPIC(" ++ name t ++ "): deleting")) ;;
          emit (Notify (name t))
     else emit (Logf LOG_INFO ("TOPIC(" ++ name t ++ "): closing"))) ;;
    modify_topic (set_exitChan true) ;;
    emit WaitGroup_Wait ;;
    if deleted then
      exit_delete_channels (snd <$> map_to_list (channelMap t)) ;;
      Empty ;;
      backend_call bq_Delete
    else
      exit_close_channels (snd <$> map_to_list (channelMap t)) ;;
      flush ;;
      backend_call bq_Close.

Definition Delete : M (option error) := exit true.
Definition Close : M (option error) := exit false.

Definition Exiting : M bool := t <- get_topic ;; ret (exitFlag t =? 1).

(** [Start]: a non-blocking send on [startChan]. *)
Definition Start : M unit :=
  t <- get_topic ;;
  match try_send (startChan t) 1 with
  | Some c => modify_topic (set_startChan c)
  | None => ret tt
  end.

End TopicModel.

Arguments Topic B : clear implicits.
Arguments World B : clear implicits.
Arguments M B A : clear implicits.

(** ** Message ids *)

(** [time.Millisecond], in nanoseconds. *)
Definition Millisecond : Z := 1000000.

Section GenerateIDModel.

(** The id factory of a topic ([guid.go], outside the verified files) is
    taken as it is used: a state [F], [NewGUID] that advances it and gives a
    guid (an int64) or an error, and the rendering [Hex] of a guid as a
    message id. *)
Context {F : Type}.
Variable NewGUID : F -> F * (Z + error).
Variable Hex : Z -> list byte.

(** [GenerateID]: the [retry:] loop, run for at most [fuel] calls of
    [NewGUID]. [slept] is the time spent in [time.Sleep] so far. The result,
    when the loop is left, is the id, the factory and the time slept; there
    is no error to return. [None] means the loop is still retrying when the
    fuel is used up. *)
Fixpoint GenerateID (fuel : nat) (idFactory : F) (slept : Z) : option (list byte * F * Z) :=
  match fuel with
  | O => None
  | S fuel' =>
      match NewGUID idFactory with
      | (idFactory', inl id) => Some (Hex id, idFactory', slept)
      | (idFactory', inr _) => GenerateID fuel' idFactory' (slept + Millisecond)
      end
  end.

(** The factory after [k] calls of [NewGUID] that all failed; [None] when
    one of them succeeded. *)
Fixpoint after_failures (k : nat) (idFactory : F) : option F :=
  match k with
  | O => Some idFactory
  | S k' =>
      match NewGUID idFactory with
      | (_, inl _) => None
      | (idFactory', inr _) => after_failures k' idFactory'
      end
  end.

End GenerateIDModel.

(** A factory that plays a script: each call gives the next entry; when the
    script is over the clock has moved backwards for good. *)
Definition scripted_NewGUID (script : list (Z + error)) : list (Z + error) * (Z + error) :=
  match script with
  | [] => ([], inr "time has gone backwards")
  | r :: rest => (rest, r)
  end.

(** The hex digits of the eight bytes of a guid, most significant first. *)
Definition hex_digit (z : Z) : byte :=
  byte_of_Z (if z <? 10 then 48 + z else 87 + z).

Definition hex_of_guid (g : Z) : list byte :=
  flat_map (fun b => let z := Z.of_N (Byte.to_N b) in [hex_digit (z / 16); hex_digit (z mod 16)])
    (big_endian 8 g).

(** ** The fan-out of the topic pump *)

(** Messages are handed around by pointer: the pump works on a heap of
    messages, [time.Now()] and its log. *)
Record PumpState : Type := mkPump {
  heap : gmap nat Message;
  clock : Z;
  pump_log : list event
}.

(** One call of a channel's [PutMessage] (no timeout) or
    [PutMessageDeferred] (with its timeout) by the pump: the channel, the
    pointer handed over, and the message it pointed to at the call. *)
Record delivery : Type := mkDelivery {
  d_channel : Channel;
  d_ptr : nat;
  d_msg : Message;
  d_timeout : option Z
}.

(** Modelled from the spec: [NewMessage] of [message.go]: a newly allocated
    message with the given id and body, stamped with the current time, every
    other field zero. *)
Definition NewMessage (id body : list byte) (s : PumpState) : nat * PumpState :=
  let p := fresh (dom (heap s)) in
  (p, mkPump (<[p := mkMessage id body (clock s) 0 0 0 0 0]> (heap s)) (clock s) (pump_log s)).

(** [p.Timestamp = v] and [p.deferred = v]. *)
Definition store_Timestamp (p : nat) (v : Z) (s : PumpState) : PumpState :=
  mkPump
    (alter (fun m => mkMessage (ID m) (Body m) v (Attempts m) (deferred m)
                       (clientID m) (pri m) (index m)) p (heap s))
    (clock s) (pump_log s).

Definition store_deferred (p : nat) (v : Z) (s : PumpState) : PumpState :=
  mkPump
    (alter (fun m => mkMessage (ID m) (Body m) (Timestamp m) (Attempts m) v
                       (clientID m) (pri m) (index m)) p (heap s))
    (clock s) (pump_log s).

Section PumpModel.

(** The two channel methods the pump calls ([channel.go], outside the
    verified files): each may change the state it is given, and
    [PutMessage] may fail. *)
Variable Channel_PutMessage : Channel -> nat -> PumpState -> PumpState * option error.
Variable Channel_PutMessageDeferred : Channel -> nat -> Z -> PumpState -> PumpState.

(** The loop [for i, channel := range chans] of [messagePump], from index
    [i] on, for the message at [msg] of the topic named [topicName]. It gives
    the deliveries made, in order. [None] is a nil dereference. *)
Fixpoint messagePump_fanout (topicName : string) (i : Z) (chans : list Channel) (msg : nat)
    (s : PumpState) : option (list delivery * PumpState) :=
  match chans with
  | [] => Some ([], s)
  | channel :: rest =>
      match heap s !! msg with
      | None => None
      | Some m =>
          let (chanMsg, s1) :=
            if 0 <? i then
              let (p, s') := NewMessage (ID m) (Body m) s in
              (p, store_deferred p (deferred m) (store_Timestamp p (Timestamp m) s'))
            else (msg, s) in
          match heap s1 !! chanMsg with
          | None => None
          | Some cm =>
              let d_s2 :=
                if negb (deferred cm =? 0) then
                  (mkDelivery channel chanMsg cm (Some (deferred cm)),
                   Channel_PutMessageDeferred channel chanMsg (deferred cm) s1)
                else
                  let (s2, e) := Channel_PutMessage channel chanMsg s1 in
                  (mkDelivery channel chanMsg cm None,
                   match e with
                   | Some e =>
                       mkPump (heap s2) (clock s2)
                         (pump_log s2 ++
                            [Logf LOG_ERROR
                               ("TOPIC(" ++ topicName ++ ") ERROR: failed to put msg("
                                ++ string_of_list_byte (ID m) ++ ") to channel("
                                ++ channel_name channel ++ ") - " ++ e)])
                   | None => s2
                   end) in
              match messagePump_fanout topicName (i + 1) rest msg (snd d_s2) with
              | None => None
              | Some (ds, s') => Some (fst d_s2 :: ds, s')
              end
          end
      end
  end.

End PumpModel.

(** What the pump copies from a message: id, body, timestamp and defer
    delay. *)
Definition published (m : Message) : list byte * list byte * Z * Z :=
  (ID m, Body m, Timestamp m, deferred m).

(** From [s] to [s'] every message is still there with what was published
    of it: only the delivery bookkeeping of a message may have changed, and
    messages may have been added. *)
Definition keeps_published (s s' : PumpState) : Prop :=
  forall a m, heap s !! a = Some m ->
    exists m', heap s' !! a = Some m' /\ published m' = published m.

(** How the pump delivers a message with these published fields: by
    [PutMessageDeferred] with the defer delay when that is not zero, by
    [PutMessage] otherwise. *)
Definition timeout_of (pub : list Byte.byte * list Byte.byte * Z * Z) : option Z :=
  if snd pub =? 0 then None else Some (snd pub).


(** ** The broker: topic registry *)

(** [strings.HasSuffix]. *)
Definition HasSuffix (s suffix : string) : bool :=
  let n := String.length s in
  let k := String.length suffix in
  (k <=? n)%nat && String.eqb (substring (n - k) k s) suffix.

(** The backend of a topic is a [BackendQueue] value: the dummy queue of an
    ephemeral topic or a disk queue. *)
#[export] Instance sum_BackendQueue {D : Type} `{BackendQueue D}
  : BackendQueue (dummyBackendQueue + D) := {|
  bq_Put := fun data b =>
    match b with
    | inl q => let (q', e) := bq_Put data q in (inl q', e)
    | inr q => let (q', e) := bq_Put data q in (inr q', e)
    end;
  bq_Close := fun b =>
    match b with
    | inl q => let (q', e) := bq_Close q in (inl q', e)
    | inr q => let (q', e) := bq_Close q in (inr q', e)
    end;
  bq_Delete := fun b =>
    match b with
    | inl q => let (q', e) := bq_Delete q in (inl q', e)
    | inr q => let (q', e) := bq_Delete q in (inr q', e)
    end;
  bq_Depth := fun b =>
    match b with
    | inl q => bq_Depth q
    | inr q => bq_Depth q
    end;
  bq_Empty := fun b =>
    match b with
    | inl q => let (q', e) := bq_Empty q in (inl q', e)
    | inr q => let (q', e) := bq_Empty q in (inr q', e)
    end
|}.

(** The options the verified code reads. *)
Record Options : Type := mkOptions {
  MemQueueSize : Z;
  NSQLookupdTCPAddresses : list string;
  QueueScanSelectionCount : Z;
  QueueScanDirtyPercent : Float64.float64;
  QueueScanWorkerPoolMax : Z
}.

Section NSQDModel.

Context {D : Type} `{BackendQueue D}.

(** [diskqueue.New(topicName, ...)] of the disk queue library. *)
Variable diskqueue_New : string -> D.

(** The lookupd addresses known to the broker ([n.lookupdHTTPAddrs()]) and
    what [n.ci.GetLookupdTopicChannels] answers for a topic; both are
    outside the verified files. *)
Variable lookupdHTTPAddrs : list string.
Variable GetLookupdTopicChannels : string -> list string -> list string * option error.

(** [type NSQD struct]: the registry [topicMap] holds pointers to topics;
    [topics] is the heap they point into. [errValue], the buffer pool, the
    started goroutines and the events are those of the topic methods. *)
Record NSQD : Type := mkNSQD {
  topicMap : gmap string nat;
  isLoading : Z;
  opts : Options;
  topics : gmap nat (Topic (dummyBackendQueue + D));
  nsqd_errValue : errStore;
  nsqd_bp : list (list byte);
  nsqd_spawned : nat;
  nsqd_events : list event
}.

Definition nsqd_emit (e : event) (n : NSQD) : NSQD :=
  mkNSQD (topicMap n) (isLoading n) (opts n) (topics n) (nsqd_errValue n) (nsqd_bp n)
    (nsqd_spawned n) (nsqd_events n ++ [e]).

(** A method of the topic at address [t] run from broker code. Nothing
    happens when [t] points to no topic. *)
Definition on_topic {A} (t : nat) (method : M (dummyBackendQueue + D) A) (n : NSQD) : NSQD :=
  match topics n !! t with
  | None => n
  | Some obj =>
      let w := snd (method (mkWorld obj (nsqd_errValue n) (nsqd_bp n) (nsqd_spawned n)
                              (nsqd_events n))) in
      mkNSQD (topicMap n) (isLoading n) (opts n) (<[t := topic w]> (topics n))
        (errValue w) (bp w) (spawned w) (events w)
  end.

(** [NewTopic]: the topic is allocated, its pump is started and lookupd is
    notified. The new pointer and the broker with the topic on its heap. *)
Definition NewTopic (topicName : string) (n : NSQD) : nat * NSQD :=
  let eph := HasSuffix topicName "#ephemeral" in
  let t := mkTopic 0 0 topicName ∅
             (if eph then inl DummyBackend else inr (diskqueue_New topicName))
             (make_chan (MemQueueSize (opts n))) (make_chan 1) false 0 eph false 0 in
  let p := fresh (dom (topics n)) in
  (p, mkNSQD (topicMap n) (isLoading n) (opts n) (<[p := t]> (topics n)) (nsqd_errValue n)
        (nsqd_bp n) (nsqd_spawned n)
        (nsqd_events n ++ [Go_messagePump topicName; Notify topicName])).

(** Where a call of [GetTopic] stands between its critical sections. *)
Inductive GetTopic_pc : Type :=
| At_RLock
| At_Lock
| At_created (t : nat)
| Returned (t : nat).

(** The channels of [channelNames] that are created ahead of their
    consumers: all but the ephemeral ones. *)
Fixpoint precreate_channels (t : nat) (channelNames : list string) (n : NSQD) : NSQD :=
  match channelNames with
  | [] => n
  | channelName :: rest =>
      if HasSuffix channelName "#ephemeral" then precreate_channels t rest n
      else precreate_channels t rest (on_topic t (GetChannel channelName) n)
  end.

(** One critical section of [GetTopic(topicName)], or its tail once the
    topic is created: the lookup under the read lock; the second lookup and
    the creation under the write lock; the pre-creation of channels and the
    start of the pump. *)
Definition GetTopic_step (topicName : string) (pc : GetTopic_pc) (n : NSQD)
  : GetTopic_pc * NSQD :=
  match pc with
  | At_RLock =>
      match topicMap n !! topicName with
      | Some t => (Returned t, n)
      | None => (At_Lock, n)
      end
  | At_Lock =>
      match topicMap n !! topicName with
      | Some t => (Returned t, n)
      | None =>
          let (t, n1) := NewTopic topicName n in
          (At_created t,
           mkNSQD (<[topicName := t]> (topicMap n1)) (isLoading n1) (opts n1) (topics n1)
             (nsqd_errValue n1) (nsqd_bp n1) (nsqd_spawned n1) (nsqd_events n1))
      end
  | At_created t =>
      let n1 := nsqd_emit (Logf LOG_INFO ("TOPIC(" ++ topicName ++ "): created")) n in
      if isLoading n1 =? 1 then (Returned t, n1)
      else
        let n2 :=
          if 0 <? len lookupdHTTPAddrs then
            let (channelNames, e) := GetLookupdTopicChannels topicName lookupdHTTPAddrs in
            let n' := nsqd_emit (Query_lookupd topicName) n1 in
            let n'' :=
              match e with
              | Some e =>
                  nsqd_emit
                    (Logf LOG_WARN
                       ("failed to query nsqlookupd for channels to pre-create for topic "
                        ++ topicName ++ " - " ++ e)) n'
              | None => n'
              end in
            precreate_channels t channelNames n''
          else if 0 <? len (NSQLookupdTCPAddresses (opts n1)) then
            nsqd_emit
              (Logf LOG_ERROR
                 ("no available nsqlookupd to query for channels to pre-create for topic "
                  ++ topicName)) n1
          else n1 in
        (Returned t, on_topic t Start n2)
  | Returned t => (Returned t, n)
  end.

(** [GetTopic] run without interruption: at most three steps. *)
Definition GetTopic (topicName : string) (n : NSQD) : nat * NSQD :=
  let (pc1, n1) := GetTopic_step topicName At_RLock n in
  let (pc2, n2) := GetTopic_step topicName pc1 n1 in
  let (pc3, n3) := GetTopic_step topicName pc2 n2 in
  match pc3 with
  | Returned t => (t, n3)
  | _ => (O, n3)
  end.

(** Concurrent calls of [GetTopic], each with its topic name and where it
    stands, are a list of pairs. The scheduler picks the call that runs its
    next step. *)
Definition schedule_step (i : nat) (cs : list (string * GetTopic_pc)) (n : NSQD) : list (string * GetTopic_pc) * NSQD :=
  match cs !! i with
  | None => (cs, n)
  | Some (topicName, pc) =>
      let (pc', n') := GetTopic_step topicName pc n in
      (<[i := (topicName, pc')]> cs, n')
  end.

Fixpoint run_schedule (schedule : list nat) (cs : list (string * GetTopic_pc)) (n : NSQD) : list (string * GetTopic_pc) * NSQD :=
  match schedule with
  | [] => (cs, n)
  | i :: rest => let (cs', n') := schedule_step i cs n in run_schedule rest cs' n'
  end.

(** The registry and the heap agree: a registered pointer points to a topic
    of that name, and every topic on the heap is the one registered under its
    name. *)
Definition registry_ok (n : NSQD) : Prop :=
  (forall topicName t, topicMap n !! topicName = Some t ->
     exists obj, topics n !! t = Some obj /\ name obj = topicName) /\
  (forall t obj, topics n !! t = Some obj -> topicMap n !! name obj = Some t).

(** How many topics named [topicName] the heap holds. *)
Definition instances (topicName : string) (n : NSQD) : nat :=
  length (List.filter (fun entry => String.eqb (name (snd entry)) topicName)
            (map_to_list (topics n))).

(** A call that has created or got its topic holds the registered pointer. *)
Definition holds_registered (topicName : string) (pc : GetTopic_pc) (n : NSQD) : Prop :=
  match pc with
  | At_created t | Returned t => topicMap n !! topicName = Some t
  | _ => True
  end.

(** The registry is consistent and every call holds what is registered. *)
Definition calls_ok (cs : list (string * GetTopic_pc)) (n : NSQD) : Prop :=
  registry_ok n /\
  forall i topicName pc, cs !! i = Some (topicName, pc) -> holds_registered topicName pc n.

End NSQDModel.

(** ** The broker: queue scan *)

(** How a blocking piece of code ends: it completes, it blocks for ever on
    a channel operation no goroutine will answer, it indexes a slice out of
    range, or the fuel given to its loop is used up. *)
Inductive outcome (A : Type) : Type :=
| Done (a : A)
| Blocked
| Out_of_range
| Out_of_fuel.
Arguments Done {A} a.
Arguments Blocked {A}.
Arguments Out_of_range {A}.
Arguments Out_of_fuel {A}.

(** A [queueScanWorker] goroutine is in its loop or has returned. *)
Inductive worker : Type := In_loop | Has_returned.

(** What the [select] of a worker receives. *)
Inductive received : Type :=
| From_workCh (c : Channel)
| From_closeCh.

Section ScanModel.

(** The state of the in-flight and deferred queues of all channels, and the
    two scans of a channel ([channel.go], outside the verified files): each
    tells whether it found work. *)
Context {Queues : Type}.
Variable processInFlightQueue : Channel -> Z -> Queues -> Queues * bool.
Variable processDeferredQueue : Channel -> Z -> Queues -> Queues * bool.

(** [util.UniqRands(quantity, maxval)], outside the verified files; the
    third argument stands for the state of the random source. *)
Variable UniqRands : Z -> Z -> nat -> list Z.

(** What [queueScanLoop] and its workers work on: [n.poolSize] and the
    worker goroutines started so far, the cached list [channels], the queues
    of the channels, the clock and the random source. *)
Record ScanState : Type := mkScanState {
  poolSize : Z;
  workers : list worker;
  channels : list Channel;
  queues : Queues;
  now : Z;
  rand : nat
}.

(** One iteration of the loop of [queueScanWorker]: where the worker is
    afterwards, the queues, and what it sent on [responseCh]. *)
Definition queueScanWorker (r : received) (now : Z) (q : Queues)
  : worker * Queues * option bool :=
  match r with
  | From_workCh c =>
      let dirty := false in
      let (q1, expired) := processInFlightQueue c now q in
      let dirty := if expired then true else dirty in
      let (q2, released) := processDeferredQueue c now q1 in
      let dirty := if released then true else dirty in
      (In_loop, q2, Some dirty)
  | From_closeCh => (Has_returned, q, None)
  end.

(** The workers of a pool that are in their loop. *)
Definition in_loop (ws : list worker) : nat :=
  length (List.filter (fun w => match w with In_loop => true | Has_returned => false end) ws).

(** The value of one send on [closeCh] is received by the [k]-th of the
    workers that are in their loop, which runs its iteration. *)
Fixpoint deliver_close (k : nat) (s : ScanState) (ws : list worker) : list worker :=
  match ws with
  | [] => []
  | Has_returned :: rest => Has_returned :: deliver_close k s rest
  | In_loop :: rest =>
      match k with
      | O => fst (fst (queueScanWorker From_closeCh (now s) (queues s))) :: rest
      | S k' => In_loop :: deliver_close k' s rest
      end
  end.

(** [closeCh <- 1]: the send completes when a worker is there to receive
    it; the scheduler's [pick] decides which one does. *)
Definition send_closeCh (pick : nat) (s : ScanState) : option (list worker) :=
  match in_loop (workers s) with
  | O => None
  | S k => Some (deliver_close (pick mod S k) s (workers s))
  end.

(** The target of [resizePool]: [int(float64(num) * 0.25)], put between
    1 and the configured maximum by the [if ... else if ...]. *)
Definition idealPoolSize (QueueScanWorkerPoolMax num : Z) : Z :=
  let idealPoolSize := Float64.to_int (Float64.mul (Float64.of_int num) Float64.quarter) in
  if idealPoolSize <? 1 then 1
  else if QueueScanWorkerPoolMax <? idealPoolSize then QueueScanWorkerPoolMax
  else idealPoolSize.

(** The [for] loop of [resizePool], for at most [fuel] iterations;
    [picks] are the scheduler's choices for the sends on [closeCh]. *)
Fixpoint resizePool_loop (fuel : nat) (picks : nat -> nat) (ideal : Z) (s : ScanState)
  : outcome ScanState :=
  match fuel with
  | O => Out_of_fuel
  | S fuel' =>
      if ideal =? poolSize s then Done s
      else if ideal <? poolSize s then
        match send_closeCh (picks fuel') s with
        | None => Blocked
        | Some ws =>
            resizePool_loop fuel' picks ideal
              (mkScanState (int (poolSize s - 1)) ws (channels s) (queues s) (now s) (rand s))
        end
      else
        resizePool_loop fuel' picks ideal
          (mkScanState (int (poolSize s + 1)) (workers s ++ [In_loop]) (channels s) (queues s)
             (now s) (rand s))
  end.

Definition resizePool (fuel : nat) (picks : nat -> nat) (o : Options) (num : Z) (s : ScanState)
  : outcome ScanState :=
  resizePool_loop fuel picks (idealPoolSize (QueueScanWorkerPoolMax o) num) s.

(** *** The scan loop *)

(** The start of [queueScanLoop]: the pool is sized for the channels
    there are, then the loop enters its [select]. *)
Definition queueScanLoop_start (fuel : nat) (picks : nat -> nat) (o : Options)
    (current : list Channel) (s : ScanState) : outcome ScanState :=
  resizePool fuel picks o (len current)
    (mkScanState (poolSize s) (workers s) current (queues s) (now s) (rand s)).

(** Where [queueScanLoop] stands: in its [select], at the label [loop]
    with the [num] it computed, or past the label [exit]. *)
Inductive scan_pc : Type :=
| At_select
| At_loop (num : Z)
| At_exit.

(** What the [select] of [queueScanLoop] receives; the refresh tick comes
    with what [n.channels()] gives at that moment. *)
Inductive scan_event : Type :=
| Tick_workTicker
| Tick_refreshTicker (current : list Channel)
| Closed_exitChan.

(** The work items [channels[i]] for the indices [i] that were drawn are
    sent on [workCh], and the workers answer each on [responseCh]: the
    responses, in order. Nothing is answered when no worker is in its
    loop. *)
Fixpoint dispatch (indices : list Z) (s : ScanState) : outcome (list bool * ScanState) :=
  match indices with
  | [] => Done ([], s)
  | i :: rest =>
      if (i <? 0) || (len (channels s) <=? i) then Out_of_range
      else
        match channels s !! Z.to_nat i with
        | None => Out_of_range
        | Some c =>
            match in_loop (workers s) with
            | O => Blocked
            | S _ =>
                match queueScanWorker (From_workCh c) (now s) (queues s) with
                | (_, q, Some dirty) =>
                    match dispatch rest (mkScanState (poolSize s) (workers s) (channels s) q
                                           (now s) (rand s)) with
                    | Done (responses, s') => Done (dirty :: responses, s')
                    | Blocked => Blocked
                    | Out_of_range => Out_of_range
                    | Out_of_fuel => Out_of_fuel
                    end
                | (_, _, None) => Blocked
                end
            end
        end
  end.

(** [for i := 0; i < num; i++ { if <-responseCh { numDirty++ } }]: the
    count, and what is left on [responseCh]; [None] when a response is
    waited for that never comes. *)
Fixpoint count_dirty (num : nat) (responseCh : list bool) (numDirty : Z)
  : option (Z * list bool) :=
  match num with
  | O => Some (numDirty, responseCh)
  | S num' =>
      match responseCh with
      | [] => None
      | dirty :: rest => count_dirty num' rest (if dirty then int (numDirty + 1) else numDirty)
      end
  end.

(** The test at the end of a pass: [goto loop] or back to the [select]. *)
Definition after_pass (DirtyPercent : Float64.float64) (numDirty num : Z) : scan_pc :=
  if Float64.gt (Float64.div (Float64.of_int numDirty) (Float64.of_int num)) DirtyPercent
  then At_loop num
  else At_select.

(** One pass, from the label [loop] to the test. *)
Definition scan_pass (o : Options) (num : Z) (s : ScanState) : outcome (scan_pc * ScanState) :=
  let indices := UniqRands num (len (channels s)) (rand s) in
  match dispatch indices
          (mkScanState (poolSize s) (workers s) (channels s) (queues s) (now s) (S (rand s))) with
  | Done (responses, s') =>
      match count_dirty (Z.to_nat num) responses 0 with
      | Some (numDirty, _) => Done (after_pass (QueueScanDirtyPercent o) numDirty num, s')
      | None => Blocked
      end
  | Blocked => Blocked
  | Out_of_range => Out_of_range
  | Out_of_fuel => Out_of_fuel
  end.

(** One turn of [queueScanLoop]. In its [select] the loop waits for an
    event; at the label [loop] it runs a pass at once, whatever the tickers
    do. [fuel] and [picks] are for [resizePool]. *)
Definition queueScanLoop_step (fuel : nat) (picks : nat -> nat) (o : Options)
    (pc : scan_pc) (ev : scan_event) (s : ScanState) : outcome (scan_pc * ScanState) :=
  match pc with
  | At_select =>
      match ev with
      | Tick_workTicker =>
          if len (channels s) =? 0 then Done (At_select, s)
          else
            let num := QueueScanSelectionCount o in
            let num := if len (channels s) <? num then len (channels s) else num in
            Done (At_loop num, s)
      | Tick_refreshTicker current =>
          match resizePool fuel picks o (len current)
                  (mkScanState (poolSize s) (workers s) current (queues s) (now s) (rand s)) with
          | Done s' => Done (At_select, s')
          | Blocked => Blocked
          | Out_of_range => Out_of_range
          | Out_of_fuel => Out_of_fuel
          end
      | Closed_exitChan =>
          Done (At_exit,
                mkScanState (poolSize s) (map (fun _ => Has_returned) (workers s)) (channels s)
                  (queues s) (now s) (rand s))
      end
  | At_loop num => scan_pass o num s
  | At_exit => Done (At_exit, s)
  end.

(** The workers of a pool that have returned. *)
Definition returned (ws : list worker) : nat :=
  length (List.filter (fun w => match w with In_loop => false | Has_returned => true end) ws).

(** [n.poolSize] counts the workers that are in their loop, and is an [int]. *)
Definition pool_ok (s : ScanState) : Prop :=
  poolSize s = Z.of_nat (in_loop (workers s)) /\ poolSize s < 2 ^ 63.

End ScanModel.

(** How many of [responses] say dirty. *)
Definition dirty_among (responses : list bool) : Z :=
  Z.of_nat (length (List.filter (fun dirty => dirty) responses)).

(** ** More of the topic: depth, pause flag, health *)

(** [int64(z)]: two's complement wrap-around. *)
Definition int64 (z : Z) : Z := (z + 2 ^ 63) mod 2 ^ 64 - 2 ^ 63.

Section TopicQueries.

Context {B : Type} `{BackendQueue B}.

(** [Depth]: [int64(len(t.memoryMsgChan)) + t.backend.Depth()]. *)
Definition Depth : M B Z :=
  fun w => (int64 (int64 (len (buf (memoryMsgChan (topic w)))) + bq_Depth (backend (topic w))), w).

(** [IsPaused]: [atomic.LoadInt32(&t.paused) == 1]. *)
Definition IsPaused : M B bool := fun w => (paused (topic w) =? 1, w).

(** [GetError], [IsHealthy] and [GetHealth] of the broker, which read the
    health sentinel that [SetHealth] writes. *)
Definition GetError : M B (option error) := fun w => (err (errValue w), w).

Definition IsHealthy : M B bool :=
  fun w => (match fst (GetError w) with None => true | Some _ => false end, w).

Definition GetHealth : M B string :=
  fun w => (match fst (GetError w) with Some e => ("NOK - " ++ e)%string | None => "OK" end, w).

End TopicQueries.

(** ** The loop of the topic pump *)

(** Where [messagePump] stands: in the [select] of its first loop, which
    waits for [Start]; in the [select] of its main loop; or past the label
    [exit]. *)
Inductive pump_pc : Type := At_start_select | At_main_select | Pump_returned.

(** The local variables of [messagePump] that live across iterations:
    [chans], and whether [memoryMsgChan] and [backendChan] are set (they are
    [nil] otherwise, and a receive from a [nil] channel is never taken). *)
Record Pump : Type := mkPumpCtl {
  pump_at : pump_pc;
  chans : list Channel;
  pump_memoryMsgChan : bool;
  pump_backendChan : bool
}.

(** The case a [select] of the pump takes. *)
Inductive pump_recv : Type :=
| Recv_memoryMsgChan
| Recv_backendChan (data : list byte)
| Recv_channelUpdateChan
| Recv_pauseChan
| Recv_exitChan
| Recv_startChan.

Definition is_Send_channelUpdateChan (e : event) : bool :=
  match e with Send_channelUpdateChan => true | _ => false end.

Section PumpLoop.

Context {B : Type} `{BackendQueue B}.

(** [decodeMessage] of [message.go], outside the verified files. *)
Variable decodeMessage : list byte -> Message + error.

(** [for _, c := range t.channelMap { chans = append(chans, c) }] *)
Definition range_channelMap (chans : list Channel) (t : Topic B) : list Channel :=
  chans ++ (snd <$> map_to_list (channelMap t)).

(** One iteration of the loop the pump is in, taking the case [r] of its
    [select]: the message to hand to every channel of [chans] (if the
    iteration reaches the fan-out), the world and the pump afterwards.
    [None] when the [select] cannot take that case: it is not one of its
    cases, the channel is [nil] or empty, or [exitChan] is not closed. What
    the backend's read channel delivers is decided by the disk queue; the
    senders on [channelUpdateChan] and [pauseChan] are the topic's methods. *)
Definition messagePump_step (r : pump_recv) (w : World B) (p : Pump)
  : option (option Message * World B * Pump) :=
  let t := topic w in
  let to_exit :=
    if exitChan t then
      Some (None,
            mkWorld t (errValue w) (bp w) (spawned w)
              (events w ++ [Logf LOG_INFO ("TOPIC(" ++ name t ++ "): closing ... messagePump")]),
            mkPumpCtl Pump_returned (chans p) (pump_memoryMsgChan p) (pump_backendChan p))
    else None in
  match pump_at p with
  | At_start_select =>
      match r with
      | Recv_channelUpdateChan => Some (None, w, p)
      | Recv_pauseChan => Some (None, w, p)
      | Recv_exitChan => to_exit
      | Recv_startChan =>
          match try_recv (startChan t) with
          | None => None
          | Some (_, c) =>
              let chans := range_channelMap (chans p) t in
              let set := (0 <? len chans) && negb (paused t =? 1) in
              Some (None,
                    mkWorld (set_startChan c t) (errValue w) (bp w) (spawned w) (events w),
                    mkPumpCtl At_main_select chans
                      (if set then true else pump_memoryMsgChan p)
                      (if set then true else pump_backendChan p))
          end
      | Recv_memoryMsgChan => None
      | Recv_backendChan _ => None
      end
  | At_main_select =>
      match r with
      | Recv_memoryMsgChan =>
          if pump_memoryMsgChan p then
            match try_recv (memoryMsgChan t) with
            | None => None
            | Some (msg, c) =>
                Some (Some msg,
                      mkWorld (set_memoryMsgChan c t) (errValue w) (bp w) (spawned w) (events w),
                      p)
            end
          else None
      | Recv_backendChan data =>
          if pump_backendChan p then
            match decodeMessage data with
            | inl msg => Some (Some msg, w, p)
            | inr e =>
                Some (None,
                      mkWorld t (errValue w) (bp w) (spawned w)
                        (events w ++ [Logf LOG_ERROR ("failed to decode message - " ++ e)]),
                      p)
            end
          else None
      | Recv_channelUpdateChan =>
          let chans := range_channelMap [] t in
          let set := negb ((len chans =? 0) || (paused t =? 1)) in
          Some (None, w, mkPumpCtl At_main_select chans set set)
      | Recv_pauseChan =>
          let set := negb ((len (chans p) =? 0) || (paused t =? 1)) in
          Some (None, w, mkPumpCtl At_main_select (chans p) set set)
      | Recv_exitChan => to_exit
      | Recv_startChan => None
      end
  | Pump_returned => None
  end.

(** A topic and its pump. *)
Record System : Type := mkSystem {
  sys_world : World B;
  sys_pump : Pump
}.

(** A send on [channelUpdateChan] or [pauseChan]. Both are unbuffered: the
    send completes when the pump takes it at its [select], and never once
    the pump has returned. *)
Definition send_to_pump (r : pump_recv) (s : System) : outcome System :=
  match messagePump_step r (sys_world s) (sys_pump s) with
  | Some (_, w, p) => Done (mkSystem w p)
  | None => Blocked
  end.

Fixpoint sends_to_pump (k : nat) (r : pump_recv) (s : System) : outcome System :=
  match k with
  | O => Done s
  | S k' =>
      match send_to_pump r s with
      | Done s' => sends_to_pump k' r s'
      | Blocked => Blocked
      | Out_of_range => Out_of_range
      | Out_of_fuel => Out_of_fuel
      end
  end.

(** A method of the topic run beside its pump: every send on
    [channelUpdateChan] the method made is taken by the pump. *)
Definition beside_pump {A} (method : M B A) (s : System) : outcome (A * System) :=
  let (a, w) := method (sys_world s) in
  let sent := List.filter is_Send_channelUpdateChan (skipn (length (events (sys_world s))) (events w)) in
  match sends_to_pump (length sent) Recv_channelUpdateChan (mkSystem w (sys_pump s)) with
  | Done s' => Done (a, s')
  | Blocked => Blocked
  | Out_of_range => Out_of_range
  | Out_of_fuel => Out_of_fuel
  end.

(** [doPause]: the flag is stored, then
    [select { case t.pauseChan <- 1: case <-t.exitChan: }]; the second case
    is the one taken once [exitChan] is closed. *)
Definition doPause (pause : bool) (s : System) : outcome (option error * System) :=
  let w := sys_world s in
  let w1 := mkWorld (set_paused (if pause then 1 else 0) (topic w)) (errValue w) (bp w)
              (spawned w) (events w) in
  let s1 := mkSystem w1 (sys_pump s) in
  if exitChan (topic w1) then Done (None, s1)
  else
    match send_to_pump Recv_pauseChan s1 with
    | Done s' => Done (None, s')
    | Blocked => Blocked
    | Out_of_range => Out_of_range
    | Out_of_fuel => Out_of_fuel
    end.

Definition Pause (s : System) : outcome (option error * System) := doPause true s.
Definition UnPause (s : System) : outcome (option error * System) := doPause false s.

(** What can happen to a topic and its pump. *)
Inductive topic_op : Type :=
| Op_GetChannel (channelName : string)
| Op_DeleteExistingChannel (channelName : string)
| Op_PutMessage (m : Message)
| Op_PutMessages (msgs : list Message)
| Op_Start
| Op_Pause
| Op_UnPause
| Op_pump (r : pump_recv).

Definition drop_result {A} (o : outcome (A * System)) : outcome System :=
  match o with
  | Done (_, s) => Done s
  | Blocked => Blocked
  | Out_of_range => Out_of_range
  | Out_of_fuel => Out_of_fuel
  end.

(** One operation. The pump takes a case of its [select] only when it can;
    the senders on its two signal channels are the methods above, so those
    cases are not taken on their own. *)
Definition run_op (op : topic_op) (s : System) : outcome System :=
  match op with
  | Op_GetChannel c => drop_result (beside_pump (GetChannel c) s)
  | Op_DeleteExistingChannel c => drop_result (beside_pump (DeleteExistingChannel c) s)
  | Op_PutMessage m => drop_result (beside_pump (PutMessage m) s)
  | Op_PutMessages msgs => drop_result (beside_pump (PutMessages msgs) s)
  | Op_Start => drop_result (beside_pump Start s)
  | Op_Pause => drop_result (Pause s)
  | Op_UnPause => drop_result (UnPause s)
  | Op_pump Recv_channelUpdateChan => Done s
  | Op_pump Recv_pauseChan => Done s
  | Op_pump r =>
      match messagePump_step r (sys_world s) (sys_pump s) with
      | Some (_, w, p) => Done (mkSystem w p)
      | None => Done s
      end
  end.

Fixpoint run_ops (ops : list topic_op) (s : System) : outcome System :=
  match ops with
  | [] => Done s
  | op :: rest =>
      match run_op op s with
      | Done s' => run_ops rest s'
      | Blocked => Blocked
      | Out_of_range => Out_of_range
      | Out_of_fuel => Out_of_fuel
      end
  end.

(** The pump and the topic agree: before [Start] the pump has no channel
    and reads nothing; in its main loop it holds the channels of the
    registry and reads from the two queues exactly when there is a channel
    and the topic is not paused. *)
Definition pump_in_step (s : System) : Prop :=
  let t := topic (sys_world s) in
  let p := sys_pump s in
  exitChan t = false /\
  match pump_at p with
  | At_start_select =>
      chans p = [] /\ pump_memoryMsgChan p = false /\ pump_backendChan p = false
  | At_main_select =>
      chans p = snd <$> map_to_list (channelMap t) /\
      pump_memoryMsgChan p = negb ((len (chans p) =? 0) || (paused t =? 1)) /\
      pump_backendChan p = pump_memoryMsgChan p
  | Pump_returned => False
  end.

(** The messages the pump takes from the memory queue in [k] iterations
    that receive from it, oldest first, with the world afterwards; it stops
    early when the [select] cannot take that case. *)
Fixpoint pump_memory (k : nat) (w : World B) (p : Pump) : list Message * World B :=
  match k with
  | O => ([], w)
  | S k' =>
      match messagePump_step Recv_memoryMsgChan w p with
      | Some (Some msg, w', p') =>
          let (msgs, w'') := pump_memory k' w' p' in (msg :: msgs, w'')
      | _ => ([], w)
      end
  end.

End PumpLoop.

(** ** More of the topic registry of the broker *)

(** Where a call of [DeleteExistingTopic] stands: before its lookup under
    the read lock, before [topic.Delete()] (which runs with no lock of the
    broker held), before the removal under the write lock, or returned. *)
Inductive DeleteExistingTopic_pc : Type :=
| Delete_at_RLock
| Delete_at_topic_Delete (t : nat)
| Delete_at_Lock
| Delete_returned (e : option error).

Section NSQDRegistry.

Context {D : Type} `{BackendQueue D}.

Variable Channel_Close_result : Channel -> option error.

Definition GetExistingTopic (topicName : string) (n : @NSQD D) : option nat * option error :=
  match topicMap n !! topicName with
  | None => (None, Some "topic does not exist")
  | Some topic => (Some topic, None)
  end.

Definition DeleteExistingTopic_step (topicName : string) (pc : DeleteExistingTopic_pc)
    (n : @NSQD D) : DeleteExistingTopic_pc * @NSQD D :=
  match pc with
  | Delete_at_RLock =>
      match topicMap n !! topicName with
      | None => (Delete_returned (Some "topic does not exist"), n)
      | Some topic => (Delete_at_topic_Delete topic, n)
      end
  | Delete_at_topic_Delete topic =>
      (Delete_at_Lock, on_topic topic (Delete Channel_Close_result) n)
  | Delete_at_Lock =>
      (Delete_returned None,
       mkNSQD (delete topicName (topicMap n)) (isLoading n) (opts n) (topics n)
         (nsqd_errValue n) (nsqd_bp n) (nsqd_spawned n) (nsqd_events n))
  | Delete_returned e => (Delete_returned e, n)
  end.

(** [DeleteExistingTopic] run without interruption. *)
Definition DeleteExistingTopic (topicName : string) (n : @NSQD D) : option error * @NSQD D :=
  let (pc1, n1) := DeleteExistingTopic_step topicName Delete_at_RLock n in
  let (pc2, n2) := DeleteExistingTopic_step topicName pc1 n1 in
  let (pc3, n3) := DeleteExistingTopic_step topicName pc2 n2 in
  match pc3 with
  | Delete_returned e => (e, n3)
  | _ => (None, n3)
  end.

(** [channels]: the channels of all topics, topic after topic. *)
Definition NSQD_channels (n : @NSQD D) : list Channel :=
  flat_map
    (fun entry =>
       match topics n !! snd entry with
       | Some t => snd <$> map_to_list (channelMap t)
       | None => []
       end)
    (map_to_list (topicMap n)).

End NSQDRegistry.

(** ** The clients of the broker *)

Section Clients.

(** [Client] is an interface; its implementations are outside the
    verified files. *)
Context {Client : Type}.

(** [AddClient] and [RemoveClient] on [n.clients]. *)
Definition AddClient (clientID : Z) (client : Client) (clients : gmap Z Client)
  : gmap Z Client :=
  <[clientID := client]> clients.

Definition RemoveClient (clientID : Z) (clients : gmap Z Client) : gmap Z Client :=
  match clients !! clientID with
  | None => clients
  | Some _ => delete clientID clients
  end.

End Clients.


(** ** Vocabulary of the statements about the enqueue path *)

Section PutVocabulary.

Context {B : Type} `{BackendQueue B}.

Implicit Types (m : Message) (w : World B).

(** The world after a message went to the memory queue. *)
Definition queued_in_memory m w : World B :=
  let t := topic w in
  mkWorld
    (set_memoryMsgChan (mkChan (buf (memoryMsgChan t) ++ [m]) (cap (memoryMsgChan t))) t)
    (errValue w) (bp w) (spawned w) (events w).

(** The world after a message was spilled: [backend'] and [e] are what the
    backend's [Put] gave for the frame. The buffer came from the pool and
    went back to it holding the frame; the health sentinel holds [e]; a
    failed write is logged. *)
Definition spilled_to_backend m (backend' : B) (e : option error) w : World B :=
  let t := topic w in
  mkWorld (set_backend backend' t) (mkErrStore e) (WriteTo m :: tl (bp w)) (spawned w)
    match e with
    | Some e =>
        events w ++
          [Logf LOG_ERROR
             ("TOPIC(" ++ name t ++ ") ERROR: failed to write message to backend - " ++ e)]
    | None => events w
    end.

(** The world after the counters were advanced by [dc] messages and [db]
    bytes. *)
Definition counted (dc db : Z) w : World B :=
  let t := topic w in
  mkWorld
    (set_messageBytes (AddUint64 (messageBytes t) db)
       (set_messageCount (AddUint64 (messageCount t) dc) t))
    (errValue w) (bp w) (spawned w) (events w).

(** [msgs] are enqueued one after the other, every [put] returning [nil]:
    the world after the last one. [None] when some [put] fails. *)
Fixpoint put_each (msgs : list Message) w : option (World B) :=
  match msgs with
  | [] => Some w
  | m :: rest =>
      match put m w with
      | (None, w') => put_each rest w'
      | (Some _, _) => None
      end
  end.

(** The total body length of [msgs]. *)
Definition bodies_len (msgs : list Message) : Z :=
  fold_right (fun m total => len (Body m) + total) 0 msgs.

End PutVocabulary.

(** ** Vocabulary of the statements about shutdown *)

Section ExitVocabulary.

Context {B : Type} `{BackendQueue B}.

Implicit Types (w : World B) (t : Topic B).

Definition with_topic (f : Topic B -> Topic B) w : World B :=
  mkWorld (f (topic w)) (errValue w) (bp w) (spawned w) (events w).

Definition with_events (evs : list event) w : World B :=
  mkWorld (topic w) (errValue w) (bp w) (spawned w) (events w ++ evs).

(** The topic with nothing left in its memory queue. *)
Definition emptied t : Topic B :=
  set_memoryMsgChan (mkChan [] (cap (memoryMsgChan t))) t.

(** What the calls [channel.Delete()] of a deleting [exit] leave in the log. *)
Definition delete_events (channels : list Channel) : list event :=
  map (fun c => Channel_Delete (channel_name c)) channels.

(** The registry after [delete(t.channelMap, channel.name)] for each of
    [channels]. *)
Definition deleted_from (channels : list Channel) (cm : gmap string Channel)
  : gmap string Channel :=
  fold_left (fun cm c => delete (channel_name c) cm) channels cm.

(** What the calls [channel.Close()] of a closing [exit] leave in the log. *)
Definition close_events (result : Channel -> option error) (channels : list Channel)
  : list event :=
  flat_map
    (fun c =>
       Channel_Close (channel_name c) ::
       match result c with
       | Some e => [Logf LOG_ERROR ("channel(" ++ channel_name c ++ ") close - " ++ e)]
       | None => []
       end)
    channels.

(** The backend and the log lines after each of [pending] was written to
    the backend by [flush]. *)
Fixpoint flush_writes (pending : list Message) (b : B) : B * list event :=
  match pending with
  | [] => (b, [])
  | msg :: rest =>
      let (b', e) := bq_Put (WriteTo msg) b in
      let (b'', evs) := flush_writes rest b' in
      (b'',
       match e with
       | Some e => Logf LOG_ERROR ("ERROR: failed to write message to backend - " ++ e) :: evs
       | None => evs
       end)
  end.

(** Every key of the registry is the name of the channel it holds, as
    [getOrCreateChannel] keeps it. *)
Definition keyed_by_name (cm : gmap string Channel) : Prop :=
  forall k c, cm !! k = Some c -> channel_name c = k.

(** A sequence of [Delete] ([true]) and [Close] ([false]) calls on one
    topic: the results, in order, and the world after the last call. *)
Fixpoint exit_calls (result : Channel -> option error) (calls : list bool) w
  : list (option error) * World B :=
  match calls with
  | [] => ([], w)
  | deleted :: rest =>
      let (r, w') := exit result deleted w in
      let (rs, w'') := exit_calls result rest w' in
      (r :: rs, w'')
  end.

End ExitVocabulary.

(** ** Vocabulary of the statements about the channel registry *)

Section RegistryVocabulary.

Context {B : Type} `{BackendQueue B}.

Implicit Types (w : World B).

(** What can happen to the registry of a topic: the two registry methods,
    and the scheduler letting one started [deleter.Do] goroutine run. *)
Inductive registry_step : Type :=
| Call_GetChannel (channelName : string)
| Call_DeleteExistingChannel (channelName : string)
| Run_deleter_goroutine.

Definition do_step (s : registry_step) w : World B :=
  match s with
  | Call_GetChannel c => snd (GetChannel c w)
  | Call_DeleteExistingChannel c => snd (DeleteExistingChannel c w)
  | Run_deleter_goroutine => snd (deleter_goroutine w)
  end.

Definition do_steps (steps : list registry_step) w : World B :=
  fold_left (fun w s => do_step s w) steps w.

Definition is_DeleteCallback (e : event) : bool :=
  match e with DeleteCallback _ => true | _ => false end.

Definition is_Go_deleter_Do (e : event) : bool :=
  match e with Go_deleter_Do => true | _ => false end.

(** How often the deletion callback was called so far. *)
Definition callbacks w : nat := length (List.filter is_DeleteCallback (events w)).

(** How often the firing condition was met so far, that is, how many
    [deleter.Do] goroutines were started. *)
Definition firings w : nat := length (List.filter is_Go_deleter_Do (events w)).

(** An ephemeral topic on which the latch has not been used and nothing
    has fired. *)
Definition unfired w : Prop :=
  ephemeral (topic w) = true /\ deleter (topic w) = false /\ spawned w = O /\
  callbacks w = O /\ firings w = O.

(** What the latch, the started goroutines and the two counts look like
    after a step, relative to before. *)
Record latch_view : Type := mkView {
  v_latch : bool; v_spawned : nat; v_callbacks : nat; v_firings : nat; v_ephemeral : bool }.

Definition view w : latch_view :=
  mkView (deleter (topic w)) (spawned w) (callbacks w) (firings w) (ephemeral (topic w)).

(** The latch is used exactly when the callback was called, once; a
    goroutine can only be waiting, or the latch used, after a firing. *)
Definition latch_inv (v : latch_view) : Prop :=
  v_callbacks v = (if v_latch v then 1 else 0)%nat /\
  (v_firings v = O -> v_spawned v = O /\ v_latch v = false) /\
  (v_firings v <> O -> v_spawned v <> O \/ v_latch v = true) /\
  v_ephemeral v = true.

End RegistryVocabulary.
(** ** Vocabulary of the further statements *)

Section MoreVocabulary.

Context {B : Type} `{BackendQueue B}.

Implicit Types (w : World B) (t : Topic B).

(** The backend after the frames of [msgs] were put on it one after the
    other, whatever each write returned. *)
Definition written_in_order (msgs : list Message) (b : B) : B :=
  fold_left (fun b m => fst (bq_Put (WriteTo m) b)) msgs b.

(** How many more messages the memory queue takes. *)
Definition room_in_memory t : nat :=
  Z.to_nat (cap (memoryMsgChan t) - len (buf (memoryMsgChan t))).

(** Every channel of the registry is stored under its own name, as a
    channel of this topic. *)
Definition own_channels w : Prop :=
  forall k ch, channelMap (topic w) !! k = Some ch -> ch = mkChannel (name (topic w)) k.

(** From [w] to [w1] nothing the pump looks at has changed and nothing was
    sent to it. *)
Definition quiet w w1 : Prop :=
  channelMap (topic w1) = channelMap (topic w) /\
  exitChan (topic w1) = exitChan (topic w) /\
  paused (topic w1) = paused (topic w) /\
  exists new, events w1 = events w ++ new /\
    List.filter is_Send_channelUpdateChan new = [].

(** From [w] to [w1] neither [exitChan] nor the pause flag has changed, and
    one send was made on [channelUpdateChan]. *)
Definition signalled w w1 : Prop :=
  exitChan (topic w1) = exitChan (topic w) /\
  paused (topic w1) = paused (topic w) /\
  exists new, events w1 = events w ++ new /\
    length (List.filter is_Send_channelUpdateChan new) = 1%nat.

(** Two states of a topic that differ at most in the registry of channels
    and in the start signal. *)
Definition same_queue t t' : Prop :=
  messageCount t' = messageCount t /\ messageBytes t' = messageBytes t /\
  name t' = name t /\ backend t' = backend t /\ memoryMsgChan t' = memoryMsgChan t /\
  exitChan t' = exitChan t /\ exitFlag t' = exitFlag t /\ ephemeral t' = ephemeral t /\
  deleter t' = deleter t /\ paused t' = paused t.

End MoreVocabulary.


(** ** Example inputs *)

Definition id_of (b : byte) : list byte := repeat b 16.

Definition msg_hi : Message := mkMessage (id_of x61) [x68; x69] 1000 0 0 0 0 0.
Definition msg_bye : Message := mkMessage (id_of x62) [x62; x79; x65] 2000 0 0 0 0 0.
Definition msg_later : Message := mkMessage (id_of x63) [x7a] 3000 0 5000000 0 0 0.

(** A topic named [topicName] with an empty memory queue of the given
  capacity over the given backend. *)
Definition fresh_topic {B} (topicName : string) (capacity : Z) (b : B) (eph : bool) : Topic B :=
mkTopic 0 0 topicName ∅ b (make_chan capacity) (make_chan 1) false 0 eph false 0.

Definition fresh_world {B} (t : Topic B) : World B :=
mkWorld t (mkErrStore None) [] O [].

(** A topic on a disk with room for [room] frames. *)
Definition disk_world (capacity : Z) (room : nat) : World boundedDisk :=
fresh_world (fresh_topic "orders" capacity (mkDisk [] room true) false).

(** The same topic once it is shutting down. *)
Definition exiting_world : World boundedDisk :=
mkWorld (set_exitFlag 1 (topic (disk_world 1 1))) (mkErrStore None) [] O [].

(** A disk-backed topic with the channels "archive" and "billing" and one
    message in its memory queue. *)
Definition two_channel_world : World boundedDisk :=
  snd (put msg_hi (snd (GetChannel "billing" (snd (GetChannel "archive" (disk_world 2 4)))))).

(** The ephemeral topic of scenario S6, just created. *)
Definition ephemeral_world : World dummyBackendQueue :=
  fresh_world (fresh_topic "foo#ephemeral" 10 DummyBackend true).

(** Scenario S6 played twice, the second delete of S6 included. *)
Definition S6_twice : list registry_step :=
  [Call_GetChannel "c#ephemeral"; Call_DeleteExistingChannel "c#ephemeral";
   Call_DeleteExistingChannel "c#ephemeral"; Run_deleter_goroutine;
   Call_GetChannel "c#ephemeral"; Call_DeleteExistingChannel "c#ephemeral";
   Run_deleter_goroutine].

(** Channels for the examples: [PutMessage] counts an attempt, takes a
    microsecond, and fails on the channel "full"; [PutMessageDeferred] files
    the message under its deadline. *)
Definition demo_PutMessage (c : Channel) (p : nat) (s : PumpState)
  : PumpState * option error :=
  (mkPump
     (alter (fun m => mkMessage (ID m) (Body m) (Timestamp m) (Attempts m + 1) (deferred m)
                        (clientID m) (pri m) (index m)) p (heap s))
     (clock s + 1000) (pump_log s),
   if String.eqb (channel_name c) "full" then Some "exiting" else None).

Definition demo_PutMessageDeferred (c : Channel) (p : nat) (timeout : Z) (s : PumpState)
  : PumpState :=
  mkPump
    (alter (fun m => mkMessage (ID m) (Body m) (Timestamp m) (Attempts m) (deferred m)
                       (clientID m) (clock s + timeout) 1) p (heap s))
    (clock s + 1000) (pump_log s).

(** A heap with [msg_hi] at address 7 and [msg_later] at address 0. *)
Definition demo_pump : PumpState :=
  mkPump (<[7%nat := msg_hi]> (<[0%nat := msg_later]> ∅)) 5000 [].

Definition demo_chans : list Channel :=
  [mkChannel "orders" "archive"; mkChannel "orders" "full"; mkChannel "orders" "billing"].

(** A broker with no topic yet, over bounded disks. *)
Definition demo_options : Options := mkOptions 2 [] 20 (Float64.Finite (Qmake 1 4)) 4.

Definition demo_diskqueue_New (topicName : string) : boundedDisk := mkDisk [] 8 true.

Definition empty_nsqd : @NSQD boundedDisk :=
  mkNSQD ∅ 0 demo_options ∅ (mkErrStore None) [] O [].

Definition three_calls : list (string * GetTopic_pc) :=
  [("orders", At_RLock); ("orders", At_RLock); ("audit#ephemeral", At_RLock)].

(** Queues for the examples: the names of the channels that have an
    in-flight message past its deadline. The in-flight scan of a channel
    requeues it; nothing is deferred. *)
Definition demo_processInFlightQueue (c : Channel) (now : Z) (q : list string)
  : list string * bool :=
  (List.filter (fun nm => negb (String.eqb nm (channel_name c))) q,
   existsb (String.eqb (channel_name c)) q).

Definition demo_processDeferredQueue (c : Channel) (now : Z) (q : list string)
  : list string * bool :=
  (q, false).

(** The scan state before [queueScanLoop] has started a worker. *)
Definition idle_scan : @ScanState (list string) := mkScanState 0 [] [] [] 0 O.

(** A pool of six workers, as left by a time of many channels. *)
Definition six_workers : @ScanState (list string) :=
  mkScanState 6 (repeat In_loop 6) [] [] 0 O.

(** A random source for the examples that draws the first indices. *)
Definition demo_UniqRands (quantity maxval : Z) (seed : nat) : list Z :=
  map Z.of_nat (seq 0 (Z.to_nat quantity)).

(** One worker and four channels, of which "a" and "b" hold an expired
    in-flight message. *)
Definition four_channels : @ScanState (list string) :=
  mkScanState 1 [In_loop]
    [mkChannel "orders" "a"; mkChannel "orders" "b"; mkChannel "orders" "c";
     mkChannel "orders" "d"]
    ["a"; "b"] 0 O.
(** ** More example inputs *)

(** A decoder for the examples: a frame shorter than the header of a
    message is refused, any other is read as timestamp, attempts, id and
    body. *)
Definition demo_decodeMessage (data : list byte) : Message + error :=
  if len data <? 26 then inr "invalid message buffer size"
  else inl (mkMessage (firstn 16 (skipn 10 data)) (skipn 26 data) 0 0 0 0 0 0).

(** The topic of [two_channel_world] with its pump, before [Start]. *)
Definition waiting_system : @System boundedDisk :=
  mkSystem two_channel_world (mkPumpCtl At_start_select [] false false).

(** A pump in its main loop that reads the queues of
    [two_channel_world]. *)
Definition reading_pump : Pump :=
  mkPumpCtl At_main_select
    [mkChannel "orders" "archive"; mkChannel "orders" "billing"] true true.

(** A day in the life of a topic: started, a message published, paused and
    resumed, the pump taking what it can in between. *)
Definition demo_ops : list topic_op :=
  [Op_Start; Op_pump Recv_startChan; Op_PutMessage msg_bye; Op_Pause;
   Op_pump Recv_memoryMsgChan; Op_UnPause; Op_pump Recv_memoryMsgChan;
   Op_DeleteExistingChannel "archive"; Op_GetChannel "audit"].

(** A broker that holds the topic "orders", created outside of start-up
    with no lookupd to ask. *)
Definition orders_nsqd : @NSQD boundedDisk :=
  snd (GetTopic demo_diskqueue_New [] (fun _ _ => ([], None)) "orders" empty_nsqd).

(** The topic "orders" as [GetTopic] leaves it: started, no channel yet. *)
Definition orders_topic : Topic (dummyBackendQueue + boundedDisk) :=
  mkTopic 0 0 "orders" ∅ (inr (mkDisk [] 8 true)) (make_chan 2) (mkChan [1] 1) false 0 false
    false 0.

(** Options with a negative maximum for the pool of scan workers. *)
Definition negative_max_options : Options :=
  mkOptions 2 [] 20 (Float64.Finite (Qmake 1 4)) (-1).

(** * Properties

  ** Machine integers *)

Lemma uint64_range z : 0 <= uint64 z < 2 ^ 64.
Proof. unfold uint64. apply Z.mod_pos_bound. lia. Qed.

Lemma uint64_int z : uint64 (int z) = uint64 z.
Proof.
unfold uint64, int.
rewrite Zminus_mod, Zmod_mod, <- Zminus_mod.
replace (z + 2 ^ 63 - 2 ^ 63) with z by lia. reflexivity.
Qed.

Lemma uint64_idem z : uint64 (uint64 z) = uint64 z.
Proof. unfold uint64. apply Zmod_mod. Qed.

Lemma AddUint64_uint64_r v d : AddUint64 v (uint64 d) = uint64 (v + d).
Proof. unfold AddUint64, uint64. rewrite Zplus_mod_idemp_r. reflexivity. Qed.

Lemma AddUint64_uint64_l v d : AddUint64 (uint64 v) d = uint64 (v + d).
Proof. unfold AddUint64, uint64. rewrite Zplus_mod_idemp_l. reflexivity. Qed.

Lemma AddUint64_exact v d :
0 <= v -> 0 <= d -> v + d < 2 ^ 64 -> AddUint64 v d = v + d.
Proof. intros. unfold AddUint64, uint64. apply Z.mod_small. lia. Qed.


Lemma uint64_int_add a b : uint64 (int a + b) = uint64 (a + b).
Proof.
  unfold uint64. rewrite (Zplus_mod (int a)), (Zplus_mod a).
  f_equal. f_equal. apply uint64_int.
Qed.

(** ** float64 arithmetic *)

Section Float64Properties.

Import Float64.

Lemma round_half_even_bounds N D :
  0 <= N -> 0 < D -> N / D <= round_half_even N D <= N / D + 1.
Proof.
  intros HN HD. unfold round_half_even.
  destruct (2 * (N mod D) <? D); [lia |].
  destruct (D <? 2 * (N mod D)); [lia |].
  destruct (Z.even (N / D)); lia.
Qed.

Lemma round_half_even_exact N D :
  0 < D -> N mod D = 0 -> round_half_even N D = N / D.
Proof.
  intros HD Hr. unfold round_half_even. rewrite Hr.
  destruct (Z.ltb_spec (2 * 0) D); [reflexivity | lia].
Qed.

Lemma round_half_even_mono N1 N2 D :
  0 <= N1 <= N2 -> 0 < D -> round_half_even N1 D <= round_half_even N2 D.
Proof.
  intros HN HD.
  assert (Hq : N1 / D <= N2 / D) by (apply Z.div_le_mono; lia).
  destruct (Z.eq_dec (N1 / D) (N2 / D)) as [Heq | Hne].
  - assert (Hr : N1 mod D <= N2 mod D).
    { rewrite !Z.mod_eq by lia. rewrite Heq. lia. }
    unfold round_half_even. rewrite Heq.
    repeat match goal with
           | |- context [?a <? ?b] => destruct (Z.ltb_spec a b)
           end; try lia; destruct (Z.even (N2 / D)); lia.
  - pose proof (round_half_even_bounds N1 D ltac:(lia) HD).
    pose proof (round_half_even_bounds N2 D ltac:(lia) HD). lia.
Qed.

(** The scaling exponent brings the quotient into [2^52, 2^53). *)
Lemma round_pos_scale n d k :
  0 < n -> 0 < d ->
  snd (round_pos n d) = - k ->
  2 ^ 52 * (d * 2 ^ Z.max (- k) 0) <= n * 2 ^ Z.max k 0 < 2 ^ 53 * (d * 2 ^ Z.max (- k) 0).
Proof.
  intros Hn Hd. unfold round_pos. cbn [snd]. intros Hk. apply Z.opp_inj in Hk. subst k.
  destruct (Z.log2_spec n Hn) as [Hn1 Hn2]. destruct (Z.log2_spec d Hd) as [Hd1 Hd2].
  pose proof (Z.log2_nonneg n) as Hln. pose proof (Z.log2_nonneg d) as Hld.
  set (ln := Z.log2 n) in *. set (ld := Z.log2 d) in *.
  set (k0 := 52 + ld - ln).
  rewrite Z.pow_succ_r in Hn2, Hd2 by lia.
  assert (Hp52 : 0 < 2 ^ 52) by lia.
  destruct (Z.le_gt_cases 0 k0) as [Hk0 | Hk0].
  - (* k0 >= 0 *)
    replace (Z.max k0 0) with k0 by lia. replace (Z.max (- k0) 0) with 0 by lia.
    assert (Hpow : 2 ^ ln * 2 ^ k0 = 2 ^ 52 * 2 ^ ld).
    { rewrite <- (Z.pow_add_r 2 ln k0), <- (Z.pow_add_r 2 52 ld) by lia. f_equal. lia. }
    assert (Hk0pos : 0 < 2 ^ k0) by (apply Z.pow_pos_nonneg; lia).
    rewrite Z.pow_0_r, Z.mul_1_r.
    destruct (Z.ltb_spec (n * 2 ^ k0) (2 ^ 52 * d)) as [Hlt | Hge].
    + replace (Z.max (k0 + 1) 0) with (k0 + 1) by lia.
      replace (Z.max (- (k0 + 1)) 0) with 0 by lia.
      rewrite Z.pow_add_r, Z.pow_0_r, Z.pow_1_r, Z.mul_1_r by lia. nia.
    + replace (Z.max k0 0) with k0 by lia. replace (Z.max (- k0) 0) with 0 by lia.
      rewrite Z.pow_0_r, Z.mul_1_r. nia.
  - (* k0 < 0 *)
    replace (Z.max k0 0) with 0 by lia. replace (Z.max (- k0) 0) with (- k0) by lia.
    assert (Hpow : 2 ^ ln = 2 ^ 52 * 2 ^ ld * 2 ^ (- k0)).
    { rewrite <- (Z.pow_add_r 2 52 ld), <- (Z.pow_add_r 2 (52 + ld) (- k0)) by lia.
      f_equal. lia. }
    assert (Hk0pos : 0 < 2 ^ (- k0)) by (apply Z.pow_pos_nonneg; lia).
    rewrite Z.pow_0_r, Z.mul_1_r.
    destruct (Z.ltb_spec n (2 ^ 52 * (d * 2 ^ (- k0)))) as [Hlt | Hge].
    + replace (Z.max (k0 + 1) 0) with 0 by lia.
      replace (Z.max (- (k0 + 1)) 0) with (- (k0 + 1)) by lia.
      assert (Hsplit : 2 ^ (- k0) = 2 * 2 ^ (- (k0 + 1))).
      { rewrite <- Z.pow_succ_r by lia. f_equal. lia. }
      assert (0 < 2 ^ (- (k0 + 1))) by (apply Z.pow_pos_nonneg; lia).
      rewrite Z.pow_0_r, Z.mul_1_r. nia.
    + replace (Z.max k0 0) with 0 by lia. replace (Z.max (- k0) 0) with (- k0) by lia.
      rewrite Z.pow_0_r, Z.mul_1_r. nia.
Qed.

Lemma round_pos_mantissa n d :
  0 < n -> 0 < d -> 2 ^ 52 <= fst (round_pos n d) <= 2 ^ 53.
Proof.
  intros Hn Hd.
  assert (Hscale := fun k => round_pos_scale n d k Hn Hd).
  unfold round_pos in *. cbn [fst snd] in *.
  set (k := if _ <? _ then _ else _) in *. specialize (Hscale k eq_refl).
  set (N := n * 2 ^ Z.max k 0) in *. set (Dn := d * 2 ^ Z.max (- k) 0) in *.
  assert (HDn : 0 < Dn).
  { subst Dn. apply Z.mul_pos_pos; [lia |]. apply Z.pow_pos_nonneg; lia. }
  assert (HN : 0 <= N) by nia.
  pose proof (round_half_even_bounds N Dn HN HDn).
  assert (2 ^ 52 <= N / Dn) by (apply Z.div_le_lower_bound; [lia | rewrite Z.mul_comm; lia]).
  assert (N / Dn < 2 ^ 53) by (apply Z.div_lt_upper_bound; [lia | rewrite Z.mul_comm; lia]).
  lia.
Qed.

Lemma ldexp_positive m e : 0 < m -> (0 < Qnum (ldexp m e))%Z.
Proof.
  intros Hm. unfold ldexp. destruct (0 <=? e) eqn:He; cbn; [| exact Hm].
  apply Z.mul_pos_pos; [exact Hm |]. apply Z.pow_pos_nonneg; lia.
Qed.

(** Rounding keeps the sign of a rational. *)
Lemma round_sign x :
  (Qnum x = 0 -> round x = Qmake 0 1) /\
  (0 < Qnum x -> 0 < Qnum (round x)) /\
  (Qnum x < 0 -> Qnum (round x) < 0).
Proof.
  destruct x as [n d]. unfold round. cbn [Qnum Qden].
  destruct n as [| n | n]; (split; [| split]); intros Hn; try lia; try reflexivity.
  - pose proof (round_pos_mantissa (Zpos n) (Zpos d) ltac:(lia) ltac:(lia)).
    destruct (round_pos (Zpos n) (Zpos d)) as [m e]. cbn [fst] in *.
    apply ldexp_positive. lia.
  - pose proof (round_pos_mantissa (Zpos n) (Zpos d) ltac:(lia) ltac:(lia)).
    destruct (round_pos (Zpos n) (Zpos d)) as [m e]. cbn [fst] in *.
    pose proof (ldexp_positive m e ltac:(lia)). cbn. lia.
Qed.

(** A rational that is at most 1 rounds to at most 1. *)
Lemma round_le_one x : (x <= 1)%Q -> (round x <= 1)%Q.
Proof.
  destruct x as [n d]. unfold Qle. cbn [Qnum Qden]. rewrite !Z.mul_1_r, Z.mul_1_l. intros Hle.
  destruct (Z.lt_trichotomy n 0) as [Hneg | [Hzero | Hpos]].
  - pose proof (proj2 (proj2 (round_sign (n # d))) Hneg). lia.
  - rewrite (proj1 (round_sign (n # d)) Hzero). cbn. lia.
  - unfold round. cbn [Qnum Qden]. destruct n as [| n | n]; try lia.
    assert (Hscale := fun k => round_pos_scale (Zpos n) (Zpos d) k ltac:(lia) ltac:(lia)).
    unfold round_pos in *. cbn [snd] in Hscale.
    set (k := if _ <? _ then _ else _) in *. specialize (Hscale k eq_refl).
    set (e := - k). assert (He : e = - k) by reflexivity.
    set (m := round_half_even _ _). assert (Hm : m = round_half_even
      (Zpos n * 2 ^ Z.max k 0) (Zpos d * 2 ^ Z.max (- k) 0)) by reflexivity.
    clearbody m e. clearbody k.
    assert (Hk : 52 <= k).
    { destruct (Z.le_gt_cases 0 k) as [Hk0 | Hk0].
      - replace (Z.max k 0) with k in Hscale by lia.
        replace (Z.max (- k) 0) with 0 in Hscale by lia.
        rewrite Z.pow_0_r, Z.mul_1_r in Hscale.
        apply (Z.pow_le_mono_r_iff 2); [lia | lia |].
        assert (0 < 2 ^ k) by (apply Z.pow_pos_nonneg; lia). nia.
      - replace (Z.max k 0) with 0 in Hscale by lia.
        replace (Z.max (- k) 0) with (- k) in Hscale by lia.
        assert (2 ^ 1 <= 2 ^ (- k)) by (apply Z.pow_le_mono_r; lia).
        rewrite Z.pow_0_r, Z.mul_1_r in Hscale. nia. }
    replace (Z.max k 0) with k in Hm, Hscale by lia.
    replace (Z.max (- k) 0) with 0 in Hm, Hscale by lia.
    rewrite Z.pow_0_r, Z.mul_1_r in Hm, Hscale.
    assert (Hpk : 0 < 2 ^ k) by (apply Z.pow_pos_nonneg; lia).
    assert (Hmle : m <= 2 ^ k).
    { destruct (Z.eq_dec (Zpos n) (Zpos d)) as [Heq | Hne].
      - rewrite Heq in Hm. rewrite round_half_even_exact in Hm.
        + rewrite Z.mul_comm, Z.div_mul in Hm by lia. lia.
        + lia.
        + rewrite Z.mul_comm. apply Z.mod_mul. lia.
      - pose proof (round_half_even_bounds (Zpos n * 2 ^ k) (Zpos d) ltac:(lia) ltac:(lia)).
        assert (Zpos n * 2 ^ k / Zpos d < 2 ^ k).
        { apply Z.div_lt_upper_bound; [lia |]. nia. }
        lia. }
    unfold ldexp. destruct (Z.leb_spec 0 e); [lia |].
    unfold Qle. cbn [Qnum Qden]. rewrite He, Z.opp_involutive, Z2Pos.id by lia. lia.
Qed.

Lemma round_of_int a : 0 < a -> (round (inject_Z a) == inject_Z (round_int a))%Q.
Proof.
  intros Ha. unfold round, inject_Z. cbn [Qnum Qden].
  destruct a as [| p | p]; try lia.
  destruct (Z.log2_spec (Zpos p) Ha) as [Hlo Hhi].
  pose proof (Z.log2_nonneg (Zpos p)) as Hla.
  unfold round_pos, round_int. change (Z.log2 1) with 0.
  set (a := Zpos p) in *. set (la := Z.log2 a) in *.
  replace (52 + 0 - la) with (52 - la) by lia.
  rewrite Z.pow_succ_r in Hhi by lia.
  destruct (Z.ltb_spec a (2 ^ 53)) as [Hsmall | Hbig].
  - assert (Hla52 : la <= 52).
    { destruct (Z.le_gt_cases la 52); [assumption |].
      assert (2 ^ 53 <= 2 ^ la) by (apply Z.pow_le_mono_r; lia). lia. }
    replace (Z.max (52 - la) 0) with (52 - la) by lia.
    replace (Z.max (- (52 - la)) 0) with 0 by lia.
    assert (Hpow : 2 ^ la * 2 ^ (52 - la) = 2 ^ 52).
    { rewrite <- Z.pow_add_r by lia. f_equal. lia. }
    assert (Hp : 0 < 2 ^ (52 - la)) by (apply Z.pow_pos_nonneg; lia).
    rewrite Z.pow_0_r, !Z.mul_1_r.
    destruct (Z.ltb_spec (a * 2 ^ (52 - la)) (2 ^ 52)) as [Hlt | _]; [nia |].
    replace (Z.max (52 - la) 0) with (52 - la) by lia.
    replace (Z.max (- (52 - la)) 0) with 0 by lia.
    rewrite Z.pow_0_r, !Z.mul_1_r.
    rewrite round_half_even_exact by (try lia; apply Z.mod_1_r). rewrite Z.div_1_r.
    unfold ldexp. destruct (Z.leb_spec 0 (- (52 - la))).
    + replace (- (52 - la)) with 0 by lia. replace (52 - la) with 0 by lia.
      rewrite !Z.pow_0_r, !Z.mul_1_r. reflexivity.
    + unfold Qeq. cbn [Qnum Qden]. rewrite Z.opp_involutive, Z2Pos.id by exact Hp.
      cbn [inject_Z Qnum]. ring.
  - assert (Hla53 : 53 <= la).
    { destruct (Z.le_gt_cases 53 la); [assumption |].
      assert (2 ^ la <= 2 ^ 52) by (apply Z.pow_le_mono_r; lia). lia. }
    replace (Z.max (52 - la) 0) with 0 by lia.
    replace (Z.max (- (52 - la)) 0) with (la - 52) by lia.
    assert (Hpow : 2 ^ 52 * 2 ^ (la - 52) = 2 ^ la).
    { rewrite <- Z.pow_add_r by lia. f_equal. lia. }
    rewrite Z.pow_0_r, !Z.mul_1_r, Z.mul_1_l.
    destruct (Z.ltb_spec a (2 ^ 52 * 2 ^ (la - 52))) as [Hlt | _]; [lia |].
    replace (Z.max (52 - la) 0) with 0 by lia.
    replace (Z.max (- (52 - la)) 0) with (la - 52) by lia.
    rewrite Z.pow_0_r, !Z.mul_1_r, Z.mul_1_l.
    unfold ldexp. destruct (Z.leb_spec 0 (- (52 - la))); [| lia].
    replace (- (52 - la)) with (la - 52) by lia. reflexivity.
Qed.

Lemma round_int_mono a b : 0 < a <= b -> round_int a <= round_int b.
Proof.
  intros [Ha Hab]. unfold round_int.
  assert (Hb : 0 < b) by lia.
  destruct (Z.log2_spec a Ha) as [Halo Hahi]. destruct (Z.log2_spec b Hb) as [Hblo Hbhi].
  pose proof (Z.log2_le_mono a b Hab) as Hlog.
  set (la := Z.log2 a) in *. set (lb := Z.log2 b) in *.
  rewrite Z.pow_succ_r in Hahi, Hbhi by (subst la lb; apply Z.log2_nonneg).
  assert (Hbig : forall c lc, 2 ^ 53 <= c -> 2 ^ lc <= c < 2 * 2 ^ lc ->
            53 <= lc /\ 0 < 2 ^ (lc - 52) /\ 2 ^ 52 * 2 ^ (lc - 52) = 2 ^ lc /\
            2 ^ 52 <= round_half_even c (2 ^ (lc - 52)) <= 2 ^ 53).
  { intros c lc Hc [Hlo Hhi].
    assert (Hlc : 53 <= lc).
    { destruct (Z.le_gt_cases 53 lc); [assumption |].
      destruct (Z.le_gt_cases 0 lc).
      - assert (2 ^ lc <= 2 ^ 52) by (apply Z.pow_le_mono_r; lia). lia.
      - rewrite Z.pow_neg_r in Hhi by lia. lia. }
    assert (Hp : 0 < 2 ^ (lc - 52)) by (apply Z.pow_pos_nonneg; lia).
    assert (Hpow : 2 ^ 52 * 2 ^ (lc - 52) = 2 ^ lc).
    { rewrite <- Z.pow_add_r by lia. f_equal. lia. }
    repeat split; try assumption.
    - pose proof (round_half_even_bounds c (2 ^ (lc - 52)) ltac:(lia) Hp).
      assert (2 ^ 52 <= c / 2 ^ (lc - 52))
        by (apply Z.div_le_lower_bound; [lia | rewrite Z.mul_comm; lia]).
      lia.
    - pose proof (round_half_even_bounds c (2 ^ (lc - 52)) ltac:(lia) Hp).
      assert (c / 2 ^ (lc - 52) < 2 ^ 53)
        by (apply Z.div_lt_upper_bound; [lia | rewrite Z.mul_comm; lia]).
      lia. }
  destruct (Z.ltb_spec a (2 ^ 53)) as [Has | Hab53], (Z.ltb_spec b (2 ^ 53)) as [Hbs | Hbb53];
    try lia.
  - destruct (Hbig b lb Hbb53 (conj Hblo Hbhi)) as (Hlb & Hp & Hpow & Hm & _).
    assert (2 ^ 1 <= 2 ^ (lb - 52)) by (apply Z.pow_le_mono_r; lia). nia.
  - destruct (Hbig a la Hab53 (conj Halo Hahi)) as (Hla & Hpa & Hpowa & _ & Hma).
    destruct (Hbig b lb Hbb53 (conj Hblo Hbhi)) as (Hlb & Hpb & Hpowb & Hmb & _).
    destruct (Z.eq_dec la lb) as [Heq | Hne].
    + rewrite Heq in *.
      apply Z.mul_le_mono_nonneg_r; [lia |]. apply round_half_even_mono; lia.
    + assert (2 * 2 ^ (la - 52) <= 2 ^ (lb - 52)).
      { rewrite <- Z.pow_succ_r by lia. apply Z.pow_le_mono_r; lia. }
      nia.
Qed.

Lemma Qnum_pos_lt q : 0 < Qnum q -> (0 < q)%Q.
Proof. intros Hq. unfold Qlt. cbn. lia. Qed.

Lemma round_of_int_pos a : 0 < a -> 0 < Qnum (round (inject_Z a)).
Proof. intros Ha. apply (proj1 (proj2 (round_sign (inject_Z a)))). exact Ha. Qed.

(** The quotient of two converted integers, the dividend not negative and
    either zero or at most the divisor: it is no number only as 0/0;
    otherwise it is at most 1, above 0 when the dividend is, and 0 when the
    dividend is. *)
Lemma ratio_cases a b :
  0 <= a -> a <= b \/ a = 0 ->
  (div (of_int a) (of_int b) = NaN /\ a = 0) \/
  exists r,
    div (of_int a) (of_int b) = Finite r /\
    (r <= 1)%Q /\ (1 <= a -> (0 < r)%Q) /\ (a = 0 -> (r == 0)%Q).
Proof.
  intros Ha Hab. unfold of_int, div.
  destruct (Z.eq_dec a 0) as [-> | Hane].
  - change (round (inject_Z 0)) with (Qmake 0 1). cbn [is_zero Qnum Z.eqb].
    destruct (is_zero (round (inject_Z b))); [left; auto | right].
    eexists. split; [reflexivity |].
    assert (Hzero : round (Qmake 0 1 / round (inject_Z b)) = Qmake 0 1).
    { apply (proj1 (round_sign _)). unfold Qdiv, Qmult. cbn [Qnum]. lia. }
    rewrite Hzero. repeat split; try lia; try reflexivity. unfold Qle. cbn. lia.
  - right. assert (Hbpos : 0 < b) by lia.
    pose proof (round_of_int_pos b Hbpos) as Hqb.
    pose proof (round_of_int_pos a ltac:(lia)) as Hqa.
    unfold is_zero at 1. destruct (Z.eqb_spec (Qnum (round (inject_Z b))) 0) as [| _]; [lia |].
    eexists. split; [reflexivity |]. split; [| split; [| lia]].
    + apply round_le_one. apply Qle_shift_div_r; [apply Qnum_pos_lt, Hqb |].
      rewrite Qmult_1_l, (round_of_int a), (round_of_int b) by lia.
      rewrite <- Zle_Qle. apply round_int_mono. lia.
    + intros _. apply Qnum_pos_lt, (proj1 (proj2 (round_sign _))).
      unfold Qdiv, Qmult, Qinv. destruct (round (inject_Z b)) as [nb db]. cbn [Qnum] in *.
      destruct nb as [| nb | nb]; try lia. cbn [Qnum Qden]. lia.
Qed.

Lemma gt_Finite r q :
  gt (Finite r) (Finite q) = true <-> (q < r)%Q.
Proof.
  unfold gt. split.
  - destruct (Qcompare r q) eqn:Hcmp; try discriminate. intros _.
    apply Qgt_alt in Hcmp. exact Hcmp.
  - intros Hlt. apply Qgt_alt in Hlt. rewrite Hlt. reflexivity.
Qed.

(** A rational with fewer than 53 significant bits is a float64. *)
Lemma round_dyadic x M j :
  0 < M < 2 ^ 53 -> 0 <= j -> (x == Qmake M (Z.to_pos (2 ^ j)))%Q -> (round x == x)%Q.
Proof.
  intros HM Hj Hx. destruct x as [n d].
  assert (Hpj : 0 < 2 ^ j) by (apply Z.pow_pos_nonneg; lia).
  unfold Qeq in Hx. cbn [Qnum Qden] in Hx. rewrite Z2Pos.id in Hx by exact Hpj.
  assert (Hn : 0 < n) by nia.
  unfold round. cbn [Qnum Qden]. destruct n as [| n | n]; try lia.
  assert (Hscale := fun k => round_pos_scale (Zpos n) (Zpos d) k ltac:(lia) ltac:(lia)).
  unfold round_pos in *. cbn [snd] in Hscale.
  set (k := if _ <? _ then _ else _) in *. specialize (Hscale k eq_refl). clearbody k.
  assert (Hk : j <= k).
  { destruct (Z.le_gt_cases j k) as [| Hlt]; [assumption | exfalso].
    assert (2 * 2 ^ k <= 2 ^ j \/ k < 0).
    { destruct (Z.le_gt_cases 0 k); [left | right; assumption].
      rewrite <- Z.pow_succ_r by lia. apply Z.pow_le_mono_r; lia. }
    destruct (Z.le_gt_cases 0 k) as [Hk0 | Hk0].
    - replace (Z.max k 0) with k in Hscale by lia.
      replace (Z.max (- k) 0) with 0 in Hscale by lia.
      rewrite Z.pow_0_r, Z.mul_1_r in Hscale.
      assert (0 < 2 ^ k) by (apply Z.pow_pos_nonneg; lia).
      assert (2 * 2 ^ k <= 2 ^ j) by (destruct H; [assumption | lia]).
      nia.
    - replace (Z.max k 0) with 0 in Hscale by lia.
      replace (Z.max (- k) 0) with (- k) in Hscale by lia.
      rewrite Z.pow_0_r, Z.mul_1_r in Hscale.
      assert (2 ^ 1 <= 2 ^ (- k)) by (apply Z.pow_le_mono_r; lia).
      assert (1 <= 2 ^ j) by lia. nia. }
  replace (Z.max k 0) with k in * by lia. replace (Z.max (- k) 0) with 0 in * by lia.
  rewrite Z.pow_0_r, Z.mul_1_r in *.
  assert (Hsplit : 2 ^ k = 2 ^ j * 2 ^ (k - j)).
  { rewrite <- Z.pow_add_r by lia. f_equal. lia. }
  assert (Hpkj : 0 < 2 ^ (k - j)) by (apply Z.pow_pos_nonneg; lia).
  assert (HN : Zpos n * 2 ^ k = M * 2 ^ (k - j) * Zpos d) by (rewrite Hsplit; nia).
  rewrite HN, round_half_even_exact by (try lia; apply Z.mod_mul; lia).
  rewrite Z.div_mul by lia.
  unfold ldexp. destruct (Z.leb_spec 0 (- k)).
  - assert (k = 0) by lia. assert (j = 0) by lia. subst k j.
    cbn in *. unfold Qeq. cbn [Qnum Qden]. lia.
  - unfold Qeq. cbn [Qnum Qden]. rewrite Z.opp_involutive, Z2Pos.id by lia. nia.
Qed.

Lemma to_int_nonneg x y :
  (x == y)%Q -> 0 <= Qnum x -> to_int (Finite x) = to_int (Finite y).
Proof.
  destruct x as [nx dx], y as [ny dy]. unfold Qeq. cbn [Qnum Qden to_int]. intros Heq Hx.
  assert (Hy : 0 <= ny) by nia.
  rewrite !Z.quot_div_nonneg by lia.
  rewrite <- (Z.div_mul_cancel_r nx (Zpos dx) (Zpos dy)) by lia.
  rewrite <- (Z.div_mul_cancel_r ny (Zpos dy) (Zpos dx)) by lia.
  rewrite Heq. f_equal. lia.
Qed.

(** [int(float64(num) * 0.25)] is [num / 4] up to [2^53]. *)
Lemma quarter_of_int num :
  0 <= num <= 2 ^ 53 -> to_int (mul (of_int num) quarter) = num / 4.
Proof.
  intros [Hlo Hhi].
  destruct (Z.eq_dec num 0) as [-> | Hne]; [reflexivity |].
  destruct (Z.eq_dec num (2 ^ 53)) as [-> | Hne53]; [vm_compute; reflexivity |].
  unfold of_int, quarter, mul.
  assert (Hq : (round (inject_Z num) == inject_Z num)%Q).
  { rewrite round_of_int by lia. unfold round_int.
    destruct (Z.ltb_spec num (2 ^ 53)); [reflexivity | lia]. }
  assert (Hprod : (round (inject_Z num) * (1 # 4) == Qmake num (Z.to_pos (2 ^ 2)))%Q).
  { rewrite Hq. unfold Qeq, Qmult, inject_Z. cbn. lia. }
  rewrite (to_int_nonneg _ (Qmake num (Z.to_pos (2 ^ 2)))).
  - cbn [to_int Qnum Qden]. rewrite Z.quot_div_nonneg by (cbn; lia). reflexivity.
  - rewrite (round_dyadic _ num 2); [exact Hprod | lia | lia | exact Hprod].
  - apply Z.lt_le_incl, (proj1 (proj2 (round_sign _))).
    pose proof (round_of_int_pos num ltac:(lia)).
    unfold Qmult. cbn [Qnum]. lia.
Qed.

End Float64Properties.

(** ** The enqueue path of a topic *)

Section PutProperties.

Context {B : Type} `{BackendQueue B}.

Implicit Types (m : Message) (w : World B).



Lemma put_memory m w :
  len (buf (memoryMsgChan (topic w))) < cap (memoryMsgChan (topic w)) ->
  put m w = (None, queued_in_memory m w).
Proof.
  intros Hroom. unfold put, bind, get_topic, try_send.
  destruct (Z.ltb_spec (len (buf (memoryMsgChan (topic w)))) (cap (memoryMsgChan (topic w))));
    [reflexivity | lia].
Qed.

Lemma put_spill m w backend' e :
  cap (memoryMsgChan (topic w)) <= len (buf (memoryMsgChan (topic w))) ->
  bq_Put (WriteTo m) (backend (topic w)) = (backend', e) ->
  put m w = (e, spilled_to_backend m backend' e w).
Proof.
  intros Hfull Hput. unfold put, bind, get_topic, try_send.
  destruct (Z.ltb_spec (len (buf (memoryMsgChan (topic w)))) (cap (memoryMsgChan (topic w))));
    [lia |].
  unfold bufferPoolGet, writeMessageToBackend, spilled_to_backend.
  destruct w as [t hv pool sp evs]; simpl in *.
  destruct pool as [| b0 pool]; simpl; rewrite Hput; simpl;
    destruct e; reflexivity.
Qed.

(** [put] never touches the counters, the registry or the flags. *)
Lemma put_counters m w :
  let t' := topic (snd (put m w)) in
  messageCount t' = messageCount (topic w) /\
  messageBytes t' = messageBytes (topic w) /\
  exitFlag t' = exitFlag (topic w).
Proof.
  destruct (Z.lt_ge_cases (len (buf (memoryMsgChan (topic w)))) (cap (memoryMsgChan (topic w))))
    as [Hroom | Hfull].
  - rewrite (put_memory m w Hroom). simpl. auto.
  - destruct (bq_Put (WriteTo m) (backend (topic w))) as [b' e] eqn:Hput.
    rewrite (put_spill m w b' e Hfull Hput). simpl. auto.
Qed.

End PutProperties.

Section PutClaims.

Context {B : Type} `{BackendQueue B}.

Implicit Types (m : Message) (w : World B).

(** C4. [put] follows the enqueue policy. If the memory channel has free
    capacity, the message is appended to it, [put] returns [nil], and
    neither the backend, the health sentinel, the buffer pool nor the log
    changes. Otherwise the message is framed into a buffer of the pool
    (which goes back to the pool), the frame is written to the backend, the
    result of the write is stored in the health sentinel whether it is an
    error or [nil], the memory channel is left alone, and [put] returns the
    result of the write: the backend's error, or [nil]. *)
Theorem put_enqueue_policy m w :
  let t := topic w in
  (len (buf (memoryMsgChan t)) < cap (memoryMsgChan t) ->
     put m w = (None, queued_in_memory m w) /\
     buf (memoryMsgChan (topic (queued_in_memory m w))) = buf (memoryMsgChan t) ++ [m] /\
     backend (topic (queued_in_memory m w)) = backend t /\
     errValue (queued_in_memory m w) = errValue w)
  /\
  (cap (memoryMsgChan t) <= len (buf (memoryMsgChan t)) ->
     exists backend' e,
       bq_Put (WriteTo m) (backend t) = (backend', e) /\
       put m w = (e, spilled_to_backend m backend' e w) /\
       backend (topic (spilled_to_backend m backend' e w)) = backend' /\
       memoryMsgChan (topic (spilled_to_backend m backend' e w)) = memoryMsgChan t /\
       err (errValue (spilled_to_backend m backend' e w)) = e /\
       bp (spilled_to_backend m backend' e w) = WriteTo m :: tl (bp w)).
Proof.
  intros t. split.
  - intros Hroom. split; [apply put_memory; exact Hroom |].
    simpl. auto.
  - intros Hfull.
    destruct (bq_Put (WriteTo m) (backend t)) as [backend' e] eqn:Hput.
    exists backend', e. split; [reflexivity |].
    split; [apply put_spill; assumption |].
    simpl. auto.
Qed.


Lemma PutMessage_unfold m w :
  PutMessage m w =
    if exitFlag (topic w) =? 1 then (Some "exiting", w)
    else match put m w with
         | (Some e, w1) => (Some e, w1)
         | (None, w1) => (None, counted 1 (uint64 (len (Body m))) w1)
         end.
Proof.
  unfold PutMessage, bind, get_topic.
  destruct (exitFlag (topic w) =? 1); [reflexivity |].
  destruct (put m w) as [[e |] w1]; [reflexivity |].
  unfold modify_topic, ret, counted. simpl. destruct (topic w1); reflexivity.
Qed.

(** C3. A topic whose exit flag is set refuses the message: [PutMessage]
    returns the error "exiting" and the world (counters, memory queue,
    backend) is unchanged. On a topic that is not exiting, a [PutMessage]
    that returns [nil] has enqueued the message with [put] and advanced
    [messageCount] by 1 and [messageBytes] by [len(m.Body)], in uint64
    arithmetic; everything else is as [put] left it. *)
Theorem PutMessage_exiting_or_counted m w :
  (exitFlag (topic w) = 1 -> PutMessage m w = (Some "exiting", w))
  /\
  (forall w', exitFlag (topic w) <> 1 -> PutMessage m w = (None, w') ->
     exists w1,
       put m w = (None, w1) /\
       w' = counted 1 (len (Body m)) w1 /\
       messageCount (topic w') = AddUint64 (messageCount (topic w)) 1 /\
       messageBytes (topic w') = AddUint64 (messageBytes (topic w)) (len (Body m))).
Proof.
  split.
  - intros Hexit. rewrite PutMessage_unfold, Hexit. reflexivity.
  - intros w' Hlive Hput. rewrite PutMessage_unfold in Hput.
    destruct (Z.eqb_spec (exitFlag (topic w)) 1) as [| _]; [contradiction |].
    pose proof (put_counters m w) as (Hc & Hb & _).
    destruct (put m w) as [[e |] w1]; [discriminate |].
    simpl in Hc, Hb. injection Hput as <-.
    assert (Hcounted : counted 1 (uint64 (len (Body m))) w1 = counted 1 (len (Body m)) w1).
    { unfold counted. rewrite AddUint64_uint64_r. reflexivity. }
    exists w1. split; [reflexivity |]. split; [exact Hcounted |].
    rewrite Hcounted. simpl. rewrite Hc, Hb. auto.
Qed.

(** A [put] that fails leaves the counters alone and its error is what
    [PutMessage] returns. *)
Lemma PutMessage_put_error m w e w1 :
  exitFlag (topic w) <> 1 -> put m w = (Some e, w1) -> PutMessage m w = (Some e, w1).
Proof.
  intros Hlive Hput. rewrite PutMessage_unfold, Hput.
  destruct (Z.eqb_spec (exitFlag (topic w)) 1); [contradiction | reflexivity].
Qed.

End PutClaims.

Section PutMessagesClaim.

Context {B : Type} `{BackendQueue B}.

Implicit Types (m : Message) (w : World B) (msgs : list Message).

Lemma put_each_counters msgs : forall w w1,
  put_each msgs w = Some w1 ->
  messageCount (topic w1) = messageCount (topic w) /\
  messageBytes (topic w1) = messageBytes (topic w).
Proof.
  induction msgs as [| m rest IH]; intros w w1 Hall; simpl in Hall.
  - injection Hall as <-. auto.
  - pose proof (put_counters m w) as (Hc & Hb & _).
    destruct (put m w) as [[e |] w']; [discriminate |].
    simpl in Hc, Hb. destruct (IH _ _ Hall) as [Hc' Hb']. split; congruence.
Qed.

Lemma bodies_len_app msgs1 msgs2 :
  bodies_len (msgs1 ++ msgs2) = bodies_len msgs1 + bodies_len msgs2.
Proof.
  unfold bodies_len. induction msgs1 as [| m rest IH]; simpl; [reflexivity |].
  rewrite IH. lia.
Qed.

(** The loop stops at the first [put] that fails, having counted the index
    and the bodies before it. The running total is an [int]; as a [uint64] it
    is the sum of the lengths. *)
Lemma PutMessages_range_fails pre : forall i total w w1 m post e w2,
  put_each pre w = Some w1 ->
  put m w1 = (Some e, w2) ->
  exists total',
    uint64 total' = uint64 (total + bodies_len pre) /\
    PutMessages_range i total (pre ++ m :: post) w =
      (inl e, counted (uint64 (i + len pre)) (uint64 total') w2).
Proof.
  induction pre as [| m0 rest IH]; intros i total w w1 m post e w2 Hall Hput; simpl in Hall.
  - injection Hall as <-. exists total. split.
    + f_equal. unfold bodies_len. simpl. lia.
    + simpl. unfold bind. rewrite Hput. unfold modify_topic, ret, counted. simpl.
      replace (i + len []) with i by (unfold len; simpl; lia).
      destruct (topic w2); reflexivity.
  - destruct (put m0 w) as [[e0 |] w'] eqn:Hput0; [discriminate |].
    destruct (IH (i + 1) (int (total + len (Body m0))) w' w1 m post e w2 Hall Hput)
      as (total' & Htotal & Hrun).
    exists total'. split.
    + rewrite Htotal, uint64_int_add. unfold bodies_len. simpl. f_equal. lia.
    + simpl. unfold bind at 1. rewrite Hput0. rewrite Hrun.
      replace (i + 1 + len rest) with (i + len (m0 :: rest)); [reflexivity |].
      unfold len. simpl length. lia.
Qed.

Lemma PutMessages_range_succeeds msgs : forall i total w w1,
  put_each msgs w = Some w1 ->
  exists total',
    uint64 total' = uint64 (total + bodies_len msgs) /\
    PutMessages_range i total msgs w = (inr total', w1).
Proof.
  induction msgs as [| m0 rest IH]; intros i total w w1 Hall; simpl in Hall.
  - injection Hall as <-. exists total. split; [| reflexivity].
    f_equal. unfold bodies_len. simpl. lia.
  - destruct (put m0 w) as [[e0 |] w'] eqn:Hput0; [discriminate |].
    destruct (IH (i + 1) (int (total + len (Body m0))) w' w1 Hall) as (total' & Htotal & Hrun).
    exists total'. split.
    + rewrite Htotal, uint64_int_add. unfold bodies_len. simpl. f_equal. lia.
    + simpl. unfold bind at 1. rewrite Hput0. exact Hrun.
Qed.

Lemma counted_uint64 dc db w : counted (uint64 dc) (uint64 db) w = counted dc db w.
Proof. unfold counted. rewrite !AddUint64_uint64_r. reflexivity. Qed.

(** C2. On a topic that is not exiting: if the [put] of the message at
    0-based index [i = len(pre)] fails with [e] after the messages before it
    were enqueued, [PutMessages] returns [e], having advanced [messageCount]
    by [i] and [messageBytes] by the total body length of the messages before
    index [i]; if every [put] succeeds, [PutMessages] returns [nil], having
    advanced [messageCount] by [len(msgs)] and [messageBytes] by the total
    body length of the batch. The counters advance in uint64 arithmetic, and
    nothing else differs from what the [put]s left. *)
Theorem PutMessages_counts msgs w :
  exitFlag (topic w) <> 1 ->
  (forall pre m post e w1 w2,
     msgs = pre ++ m :: post ->
     put_each pre w = Some w1 ->
     put m w1 = (Some e, w2) ->
     PutMessages msgs w = (Some e, counted (len pre) (bodies_len pre) w2) /\
     messageCount (topic (counted (len pre) (bodies_len pre) w2))
       = AddUint64 (messageCount (topic w)) (len pre) /\
     messageBytes (topic (counted (len pre) (bodies_len pre) w2))
       = AddUint64 (messageBytes (topic w)) (bodies_len pre))
  /\
  (forall w1,
     put_each msgs w = Some w1 ->
     PutMessages msgs w = (None, counted (len msgs) (bodies_len msgs) w1) /\
     messageCount (topic (counted (len msgs) (bodies_len msgs) w1))
       = AddUint64 (messageCount (topic w)) (len msgs) /\
     messageBytes (topic (counted (len msgs) (bodies_len msgs) w1))
       = AddUint64 (messageBytes (topic w)) (bodies_len msgs)).
Proof.
  intros Hlive.
  assert (Hflag : (exitFlag (topic w) =? 1) = false) by (apply Z.eqb_neq; exact Hlive).
  split.
  - intros pre m post e w1 w2 -> Hpre Hput.
    destruct (PutMessages_range_fails pre 0 0 w w1 m post e w2 Hpre Hput)
      as (total' & Htotal & Hrun).
    pose proof (put_counters m w1) as (Hc & Hb & _). rewrite Hput in Hc, Hb. simpl in Hc, Hb.
    destruct (put_each_counters pre w w1 Hpre) as [Hc1 Hb1].
    split.
    + unfold PutMessages, bind, get_topic. rewrite Hflag, Hrun. unfold ret.
      rewrite Htotal, !counted_uint64, !Z.add_0_l. reflexivity.
    + simpl. rewrite Hc, Hb, Hc1, Hb1. auto.
  - intros w1 Hall.
    destruct (PutMessages_range_succeeds msgs 0 0 w w1 Hall) as (total' & Htotal & Hrun).
    destruct (put_each_counters msgs w w1 Hall) as [Hc1 Hb1].
    split.
    + unfold PutMessages, bind, get_topic. rewrite Hflag, Hrun.
      unfold modify_topic, ret, counted. simpl. rewrite Htotal, !AddUint64_uint64_r.
      unfold AddUint64. rewrite Z.add_0_l. destruct (topic w1); reflexivity.
    + simpl. rewrite Hc1, Hb1. auto.
Qed.

(** On an exiting topic the batch is refused as a whole. *)
Lemma PutMessages_exiting msgs w :
  exitFlag (topic w) = 1 -> PutMessages msgs w = (Some "exiting", w).
Proof.
  intros Hexit. unfold PutMessages, bind, get_topic. rewrite Hexit. reflexivity.
Qed.

End PutMessagesClaim.

(** The policy on a disk-backed topic whose memory queue has one free slot,
    and on one without memory queue whose disk is full. *)
Lemma put_enqueue_policy_witness :
  put msg_hi (disk_world 1 1) = (None, queued_in_memory msg_hi (disk_world 1 1)) /\
  fst (put msg_hi (disk_world 0 0)) = Some "no space left on device" /\
  err (errValue (snd (put msg_hi (disk_world 0 0)))) = Some "no space left on device".
Proof.
  destruct (put_enqueue_policy msg_hi (disk_world 1 1)) as [Hroom _].
  destruct (put_enqueue_policy msg_hi (disk_world 0 0)) as [_ Hfull].
  split.
  - apply Hroom. vm_compute. reflexivity.
  - destruct Hfull as (backend' & e & Hput & Hrun & _ & _ & Herr & _).
    + vm_compute. discriminate.
    + rewrite Hrun. simpl fst. simpl snd. rewrite Herr.
      vm_compute in Hput. injection Hput as _ <-. auto.
Defined.

(** An exiting topic refuses the message; a live one counts it. *)
Lemma PutMessage_exiting_or_counted_witness :
  PutMessage msg_hi exiting_world = (Some "exiting", exiting_world) /\
  messageCount (topic (snd (PutMessage msg_hi (disk_world 1 1)))) = 1 /\
  messageBytes (topic (snd (PutMessage msg_hi (disk_world 1 1)))) = 2.
Proof.
  split.
  - apply (proj1 (PutMessage_exiting_or_counted msg_hi exiting_world)). reflexivity.
  - destruct (proj2 (PutMessage_exiting_or_counted msg_hi (disk_world 1 1))
                (snd (PutMessage msg_hi (disk_world 1 1))))
      as (w1 & _ & _ & Hc & Hb).
    + vm_compute. discriminate.
    + vm_compute. reflexivity.
    + rewrite Hc, Hb. vm_compute. auto.
Defined.

(** A batch of three on a topic with one memory slot and room for one frame
    on disk: the third [put] fails, two messages and five bytes are counted. *)
Lemma PutMessages_counts_witness :
  exitFlag (topic (disk_world 1 1)) <> 1 /\
  fst (PutMessages [msg_hi; msg_bye; msg_later] (disk_world 1 1))
    = Some "no space left on device" /\
  messageCount (topic (snd (PutMessages [msg_hi; msg_bye; msg_later] (disk_world 1 1)))) = 2 /\
  messageBytes (topic (snd (PutMessages [msg_hi; msg_bye; msg_later] (disk_world 1 1)))) = 5.
Proof.
  assert (Hlive : exitFlag (topic (disk_world 1 1)) <> 1) by (vm_compute; discriminate).
  split; [exact Hlive |].
  destruct (PutMessages_counts [msg_hi; msg_bye; msg_later] (disk_world 1 1) Hlive)
    as [Hfail _].
  destruct (Hfail [msg_hi; msg_bye] msg_later [] "no space left on device"
              (snd (put msg_bye (snd (put msg_hi (disk_world 1 1)))))
              (snd (put msg_later (snd (put msg_bye (snd (put msg_hi (disk_world 1 1)))))))
              eq_refl)
    as (Hrun & Hc & Hb).
  - vm_compute. reflexivity.
  - vm_compute. reflexivity.
  - rewrite Hrun. vm_compute. auto.
Defined.

(** ** Shutdown of a topic *)

Section ExitProperties.

Context {B : Type} `{BackendQueue B}.

Variable Channel_Close_result : Channel -> option error.

Implicit Types (w : World B) (t : Topic B).

Lemma exit_delete_channels_run channels : forall w,
  exit_delete_channels channels w =
    (tt, with_events (delete_events channels)
           (with_topic (fun t => set_channelMap (deleted_from channels (channelMap t)) t) w)).
Proof.
  induction channels as [| c rest IH]; intros w.
  - destruct w as [t hv pool sp evs]. destruct t.
    unfold with_events, with_topic. simpl. rewrite app_nil_r. reflexivity.
  - simpl. unfold bind at 1 2, modify_topic, emit. rewrite IH.
    unfold with_events, with_topic. simpl. rewrite <- app_assoc. reflexivity.
Qed.

Lemma exit_close_channels_run channels : forall w,
  exit_close_channels Channel_Close_result channels w =
    (tt, with_events (close_events Channel_Close_result channels) w).
Proof.
  induction channels as [| c rest IH]; intros w.
  - destruct w. unfold with_events. simpl. rewrite app_nil_r. reflexivity.
  - simpl. unfold bind at 1 2, emit.
    destruct (Channel_Close_result c) as [e |]; simpl; unfold emit, ret; rewrite IH;
      unfold with_events; simpl; rewrite <- !app_assoc; reflexivity.
Qed.

Lemma Empty_loop_run pending : forall w,
  Empty_loop pending w =
    (tt, match pending with [] => w | _ :: _ => with_topic emptied w end).
Proof.
  induction pending as [| m rest IH]; intros w; [reflexivity |].
  simpl. unfold bind, modify_topic. rewrite IH.
  destruct rest; unfold with_topic, emptied; simpl; destruct (topic w); reflexivity.
Qed.

Lemma emptied_empty t : buf (memoryMsgChan t) = [] -> emptied t = t.
Proof.
  unfold emptied. destruct t as [? ? ? ? ? [b c] ? ? ? ? ? ?]. simpl. intros ->. reflexivity.
Qed.

Lemma Empty_run w :
  Empty w =
    let (b, e) := bq_Empty (backend (topic w)) in
    (e, with_topic (fun t => set_backend b (emptied t)) w).
Proof.
  unfold Empty, bind, get_topic. rewrite Empty_loop_run.
  destruct (buf (memoryMsgChan (topic w))) as [| m rest] eqn:Hbuf.
  - unfold backend_call. destruct (bq_Empty (backend (topic w))) as [b e].
    unfold with_topic. simpl. rewrite (emptied_empty _ Hbuf). reflexivity.
  - unfold backend_call, with_topic. simpl.
    replace (backend (emptied (topic w))) with (backend (topic w))
      by (destruct (topic w); reflexivity).
    destruct (bq_Empty (backend (topic w))) as [b e]. reflexivity.
Qed.

Lemma flush_writes_cons m rest (b : B) :
  flush_writes (m :: rest) b =
    let (b', e) := bq_Put (WriteTo m) b in
    let (b'', evs) := flush_writes rest b' in
    (b'',
     match e with
     | Some e => Logf LOG_ERROR ("ERROR: failed to write message to backend - " ++ e) :: evs
     | None => evs
     end).
Proof. reflexivity. Qed.

Lemma flush_loop_run pending : forall msgBuf w,
  buf (memoryMsgChan (topic w)) = pending ->
  flush_loop msgBuf pending w =
    (tt, let (b, evs) := flush_writes pending (backend (topic w)) in
         with_events evs (with_topic (fun t => set_backend b (emptied t)) w)).
Proof.
  induction pending as [| m rest IH]; intros msgBuf w Hbuf.
  - simpl. unfold ret, with_events, with_topic. rewrite (emptied_empty _ Hbuf).
    destruct w as [t hv pool sp evs]. destruct t. simpl. rewrite app_nil_r. reflexivity.
  - rewrite flush_writes_cons. cbn [flush_loop].
    unfold bind at 1 2 3, modify_topic, writeMessageToBackend. cbn [topic fst snd].
    replace (backend (set_memoryMsgChan (mkChan rest (cap (memoryMsgChan (topic w)))) (topic w)))
      with (backend (topic w)) by (destruct (topic w); reflexivity).
    destruct (bq_Put (WriteTo m) (backend (topic w))) as [b' e] eqn:Hput. cbn [fst snd].
    set (w1 := mkWorld _ _ _ _ _).
    assert (Hb1 : backend (topic w1) = b') by (subst w1; destruct (topic w); reflexivity).
    assert (Hbuf1 : buf (memoryMsgChan (topic w1)) = rest)
      by (subst w1; destruct (topic w); reflexivity).
    destruct e as [e |]; unfold emit, ret.
    + rewrite IH by exact Hbuf1. cbn [topic]. rewrite Hb1.
      destruct (flush_writes rest b') as [b'' evs''].
      subst w1. unfold with_events, with_topic, emptied. cbn. rewrite <- app_assoc.
      destruct (topic w); reflexivity.
    + rewrite IH by exact Hbuf1. rewrite Hb1.
      destruct (flush_writes rest b') as [b'' evs''].
      subst w1. unfold with_events, with_topic, emptied. cbn.
      destruct (topic w); reflexivity.
Qed.

Lemma exit_refuses deleted w :
  exitFlag (topic w) <> 0 -> exit Channel_Close_result deleted w = (Some "exiting", w).
Proof.
  intros Hflag. unfold exit, bind, get_topic.
  destruct (Z.eqb_spec (exitFlag (topic w)) 0); [contradiction | reflexivity].
Qed.

Lemma exit_deleting w :
  exitFlag (topic w) = 0 ->
  exit Channel_Close_result true w =
    let t := topic w in
    let channels := snd <$> map_to_list (channelMap t) in
    let (b1, _) := bq_Empty (backend t) in
    let (b2, e) := bq_Delete b1 in
    (e,
     with_topic
       (fun t => set_backend b2
                   (emptied (set_channelMap (deleted_from channels (channelMap t)) (set_exitChan true (set_exitFlag 1 t)))))
       (with_events
          ([Logf LOG_INFO ("TOPIC(" ++ name t ++ "): deleting"); Notify (name t); WaitGroup_Wait]
           ++ delete_events channels) w)).
Proof.
  intros Hflag.
  destruct w as [[mc mb nm cm be mem st ec ef eph dl pz] hv pool sp evs].
  cbn in Hflag. subst ef.
  unfold exit, bind at 1, get_topic. cbn [topic exitFlag Z.eqb negb].
  unfold bind at 1 2 3 4 5 6, modify_topic, emit. cbn [fst snd topic events].
  rewrite exit_delete_channels_run. unfold bind. rewrite Empty_run.
  unfold with_events, with_topic, emptied, backend_call. cbn.
  destruct (bq_Empty be) as [b1 e1]. cbn.
  destruct (bq_Delete b1) as [b2 e]. cbn. rewrite <- !app_assoc. reflexivity.
Qed.

Lemma exit_closing w :
  exitFlag (topic w) = 0 ->
  exit Channel_Close_result false w =
    let t := topic w in
    let channels := snd <$> map_to_list (channelMap t) in
    let pending := buf (memoryMsgChan t) in
    let (b1, evs) := flush_writes pending (backend t) in
    let (b2, e) := bq_Close b1 in
    (e,
     with_topic
       (fun t => set_backend b2 (emptied (set_exitChan true (set_exitFlag 1 t))))
       (with_events
          ([Logf LOG_INFO ("TOPIC(" ++ name t ++ "): closing"); WaitGroup_Wait]
           ++ close_events Channel_Close_result channels
           ++ (if 0 <? len pending
               then [Logf LOG_INFO
                       ("TOPIC(" ++ name t ++ "): flushing "
                        ++ pretty (len pending) ++ " memory messages to backend")]
               else [])
           ++ evs) w)).
Proof.
  intros Hflag.
  destruct w as [[mc mb nm cm be mem st ec ef eph dl pz] hv pool sp evs].
  cbn in Hflag. subst ef.
  unfold exit, bind at 1, get_topic. cbn [topic exitFlag Z.eqb negb].
  unfold bind at 1 2 3 4 5, modify_topic, emit. cbn [fst snd topic events].
  rewrite exit_close_channels_run. unfold bind at 1. unfold flush, bind at 2, get_topic.
  unfold with_events at 1. cbn.
  destruct (0 <? len (buf mem)).
  - unfold bind, emit. cbn. rewrite flush_loop_run by reflexivity.
    cbn. destruct (flush_writes (buf mem) be) as [b1 evs1].
    unfold backend_call, with_events, with_topic, emptied, ret. cbn.
    destruct (bq_Close b1) as [b2 e]. rewrite <- !app_assoc. reflexivity.
  - unfold bind, ret. rewrite flush_loop_run by reflexivity.
    cbn. destruct (flush_writes (buf mem) be) as [b1 evs1].
    unfold backend_call, with_events, with_topic, emptied, ret. cbn.
    destruct (bq_Close b1) as [b2 e]. rewrite <- !app_assoc. reflexivity.
Qed.

Lemma deleted_from_lookup channels : forall (cm : gmap string Channel) k,
  deleted_from channels cm !! k =
    if decide (k ∈ channel_name <$> channels) then None else cm !! k.
Proof.
  induction channels as [| c rest IH]; intros cm k; simpl.
  - destruct (decide (k ∈ [])) as [Hin |]; [| reflexivity]. inversion Hin.
  - rewrite IH. destruct (decide (k ∈ channel_name <$> rest)) as [Hin | Hout].
    + rewrite decide_True; [reflexivity | right; exact Hin].
    + destruct (decide (k = channel_name c)) as [-> | Hne].
      * rewrite decide_True by left. apply lookup_delete_eq.
      * rewrite decide_False.
        { apply lookup_delete_ne. congruence. }
        intros Hin. apply elem_of_cons in Hin as [? | ?]; contradiction.
Qed.

Lemma deleted_from_all (cm : gmap string Channel) :
  keyed_by_name cm -> deleted_from (snd <$> map_to_list cm) cm = ∅.
Proof.
  intros Hkeyed. apply map_eq. intros k. rewrite deleted_from_lookup, lookup_empty.
  destruct (decide _) as [| Hout]; [reflexivity |].
  destruct (cm !! k) as [c |] eqn:Hk; [| reflexivity].
  exfalso. apply Hout. apply list_elem_of_fmap. exists c. split.
  - symmetry. apply Hkeyed. exact Hk.
  - apply list_elem_of_fmap. exists (k, c). split; [reflexivity |].
    apply elem_of_map_to_list. exact Hk.
Qed.

Lemma exit_calls_refused calls : forall w,
  exitFlag (topic w) <> 0 ->
  exit_calls Channel_Close_result calls w = (map (fun _ => Some "exiting") calls, w).
Proof.
  induction calls as [| deleted rest IH]; intros w Hflag; [reflexivity |].
  simpl. rewrite exit_refuses by exact Hflag. rewrite IH by exact Hflag. reflexivity.
Qed.

(** C9. Shutdown is one-shot. A call of [exit] (from [Delete] or [Close])
    that finds [exitFlag] already swapped returns the error "exiting" and
    leaves the world as it was. The call that swaps the flag from 0 to 1
    performs the shutdown: afterwards the flag is 1, [exitChan] is closed, the
    pump has been waited for, every channel of the registry was deleted (on
    [Delete]) or closed (on [Close]), the memory queue is empty, the backend
    was emptied and deleted (on [Delete]) or received the flushed messages and
    was closed (on [Close]), a registry keyed by channel name is empty after
    [Delete]; and every later sequence of [Delete] and [Close] calls returns
    "exiting" each time and changes nothing. *)
Theorem exit_one_shot (deleted : bool) w :
  (exitFlag (topic w) <> 0 ->
     exit Channel_Close_result deleted w = (Some "exiting", w))
  /\
  (exitFlag (topic w) = 0 ->
     let w' := snd (exit Channel_Close_result deleted w) in
     exitFlag (topic w') = 1 /\
     exitChan (topic w') = true /\
     WaitGroup_Wait ∈ events w' /\
     (forall k c, channelMap (topic w) !! k = Some c ->
        (if deleted then Channel_Delete (channel_name c) else Channel_Close (channel_name c))
          ∈ events w') /\
     buf (memoryMsgChan (topic w')) = [] /\
     (if deleted
      then backend (topic w') = fst (bq_Delete (fst (bq_Empty (backend (topic w)))))
      else backend (topic w') =
             fst (bq_Close (fst (flush_writes (buf (memoryMsgChan (topic w)))
                                   (backend (topic w)))))) /\
     (deleted = true -> keyed_by_name (channelMap (topic w)) -> channelMap (topic w') = ∅) /\
     (forall calls,
        exit_calls Channel_Close_result calls w' = (map (fun _ => Some "exiting") calls, w'))).
Proof.
  split; [apply exit_refuses |].
  intros Hflag w'.
  assert (Hchan : forall k c, channelMap (topic w) !! k = Some c ->
            c ∈ snd <$> map_to_list (channelMap (topic w))).
  { intros k c Hk. apply list_elem_of_fmap. exists (k, c). split; [reflexivity |].
    apply elem_of_map_to_list. exact Hk. }
  assert (Hlast : exitFlag (topic w') = 1 ->
            forall calls,
              exit_calls Channel_Close_result calls w' = (map (fun _ => Some "exiting") calls, w')).
  { intros Hone calls. apply exit_calls_refused. rewrite Hone. discriminate. }
  destruct deleted.
  - remember (exit Channel_Close_result true w) as r eqn:Hr.
    rewrite (exit_deleting w Hflag) in Hr.
    destruct w as [[mc mb nm cm be mem st ec ef eph dl pz] hv pool sp evs].
    cbn in Hr, Hchan, Hflag |- *.
    destruct (bq_Empty be) as [b1 e1]. cbn.
    destruct (bq_Delete b1) as [b2 e].
    subst w' r. cbn in Hlast |- *.
    repeat split; auto.
    + apply elem_of_app. right. set_solver.
    + intros k c Hk. apply elem_of_app. right. do 3 right.
      apply list_elem_of_fmap. exists c. split; [reflexivity | eauto].
    + intros _. apply deleted_from_all.
  - remember (exit Channel_Close_result false w) as r eqn:Hr.
    rewrite (exit_closing w Hflag) in Hr.
    destruct w as [[mc mb nm cm be mem st ec ef eph dl pz] hv pool sp evs].
    cbn in Hr, Hchan, Hflag |- *.
    destruct (flush_writes (buf mem) be) as [b1 evs1]. cbn.
    destruct (bq_Close b1) as [b2 e].
    subst w' r. cbn in Hlast |- *.
    repeat split; auto.
    + apply elem_of_app. right. set_solver.
    + intros k c Hk. apply elem_of_app. right. do 2 right. apply elem_of_app. left.
      unfold close_events. apply list_elem_of_In, in_flat_map. exists c. split.
      * apply list_elem_of_In. eauto.
      * left. reflexivity.
    + discriminate.
Qed.

End ExitProperties.

(** [Delete], then [Close], on a topic with two channels and one queued
    message: the second call is refused and changes nothing. *)
Lemma exit_one_shot_witness :
  exitFlag (topic (snd (Delete (fun _ => None) two_channel_world))) = 1 /\
  Close (fun _ => None) (snd (Delete (fun _ => None) two_channel_world))
    = (Some "exiting", snd (Delete (fun _ => None) two_channel_world)).
Proof.
  destruct (exit_one_shot (fun _ => None) true two_channel_world) as [_ Hfirst].
  destruct Hfirst as (Hflag & _); [reflexivity |].
  split; [exact Hflag |].
  apply (proj1 (exit_one_shot (fun _ => None) false
                  (snd (Delete (fun _ => None) two_channel_world)))).
  unfold Delete. rewrite Hflag. discriminate.
Defined.

(** ** The channel registry and the deletion latch *)

Section RegistryProperties.

Context {B : Type} `{BackendQueue B}.

Implicit Types (w : World B) (t : Topic B).

Lemma count_app (p : event -> bool) (l1 l2 : list event) :
  length (List.filter p (l1 ++ l2)) = (length (List.filter p l1) + length (List.filter p l2))%nat.
Proof. rewrite List.filter_app, length_app. reflexivity. Qed.

Lemma GetChannel_view c w : view (snd (GetChannel c w)) = view w.
Proof.
  destruct w as [[mc mb nm cm be mem st ec ef eph dl pz] hv pool sp evs].
  unfold GetChannel, getOrCreateChannel, notify_channelUpdate, bind, get_topic, modify_topic,
    emit, ret, view, callbacks, firings. cbn.
  destruct (cm !! c); cbn; [reflexivity |].
  destruct ec; cbn; rewrite ?count_app; cbn; rewrite ?Nat.add_0_r; reflexivity.
Qed.

Lemma DeleteExistingChannel_view c w :
  view (snd (DeleteExistingChannel c w)) =
    if bool_decide (is_Some (channelMap (topic w) !! c) /\
                    delete c (channelMap (topic w)) = ∅ /\
                    ephemeral (topic w) = true)
    then mkView (deleter (topic w)) (S (spawned w)) (callbacks w) (S (firings w))
           (ephemeral (topic w))
    else view w.
Proof.
  destruct w as [[mc mb nm cm be mem st ec ef eph dl pz] hv pool sp evs].
  cbn [topic channelMap ephemeral deleter spawned].
  remember (bool_decide _) as d eqn:Hd.
  unfold DeleteExistingChannel, go_deleter_Do, notify_channelUpdate, bind, get_topic,
    modify_topic, emit, ret, view, callbacks, firings. cbn.
  destruct (cm !! c) as [ch |] eqn:Hc; cbn.
  2:{ rewrite bool_decide_eq_false_2 in Hd; [subst d; reflexivity |].
      intros [[? Hs] _]. discriminate. }
  destruct (Z.eqb_spec (Z.of_nat (size (delete c cm))) 0) as [Hsize | Hsize];
    destruct eph; cbn.
  - rewrite bool_decide_eq_true_2 in Hd.
    + subst d. destruct ec; cbn; rewrite ?count_app; cbn; f_equal; lia.
    + split; [eauto |]. split; [| reflexivity]. apply map_size_empty_iff. lia.
  - rewrite bool_decide_eq_false_2 in Hd by (intros (_ & _ & ?); discriminate).
    subst d. destruct ec; cbn; rewrite ?count_app; cbn; f_equal; lia.
  - rewrite bool_decide_eq_false_2 in Hd.
    + subst d. destruct ec; cbn; rewrite ?count_app; cbn; f_equal; lia.
    + intros (_ & Hempty & _). apply Hsize. rewrite Hempty, map_size_empty. reflexivity.
  - rewrite bool_decide_eq_false_2 in Hd by (intros (_ & _ & ?); discriminate).
    subst d. destruct ec; cbn; rewrite ?count_app; cbn; f_equal; lia.
Qed.

Lemma deleter_goroutine_view w :
  view (snd (deleter_goroutine w)) =
    match spawned w with
    | O => view w
    | S k => mkView true k (if deleter (topic w) then callbacks w else S (callbacks w))
               (firings w) (ephemeral (topic w))
    end.
Proof.
  destruct w as [[mc mb nm cm be mem st ec ef eph dl pz] hv pool sp evs].
  unfold deleter_goroutine, view, callbacks, firings. cbn.
  destruct sp as [| k]; [reflexivity |]. cbn.
  destruct dl; cbn; rewrite ?count_app; cbn; rewrite ?app_nil_r; f_equal; lia.
Qed.

Lemma DeleteExistingChannel_missing c w :
  channelMap (topic w) !! c = None ->
  DeleteExistingChannel c w = (Some "channel does not exist", w).
Proof.
  intros Hc. unfold DeleteExistingChannel, bind at 1, get_topic. rewrite Hc. reflexivity.
Qed.

Lemma DeleteExistingChannel_removes c w :
  channelMap (topic (snd (DeleteExistingChannel c w))) !! c = None.
Proof.
  destruct w as [[mc mb nm cm be mem st ec ef eph dl pz] hv pool sp evs].
  unfold DeleteExistingChannel, go_deleter_Do, notify_channelUpdate, bind, get_topic,
    modify_topic, emit, ret. cbn.
  destruct (cm !! c) as [ch |] eqn:Hc; cbn; [| exact Hc].
  destruct (_ && _); destruct ec; cbn; apply lookup_delete_eq.
Qed.

Lemma do_step_inv s w : latch_inv (view w) -> latch_inv (view (do_step s w)).
Proof.
  intros (Hcb & Hnone & Hsome & Heph). destruct s as [c | c |]; simpl.
  - rewrite GetChannel_view. repeat split; tauto.
  - rewrite DeleteExistingChannel_view. case_bool_decide; [| repeat split; tauto].
    unfold latch_inv. simpl in *. repeat split; auto; try discriminate.
  - rewrite deleter_goroutine_view. simpl in *.
    destruct (spawned w) as [| k] eqn:Hsp; [repeat split; tauto |].
    unfold latch_inv. simpl.
    destruct (deleter (topic w)); repeat split; auto; try lia;
      intros Hf; destruct (Hnone Hf); discriminate.
Qed.

Lemma do_steps_inv steps : forall w, latch_inv (view w) -> latch_inv (view (do_steps steps w)).
Proof.
  induction steps as [| s rest IH]; intros w Hinv; [exact Hinv |].
  simpl. apply IH, do_step_inv, Hinv.
Qed.

Lemma unfired_inv w : unfired w -> latch_inv (view w).
Proof.
  intros (Heph & Hlatch & Hsp & Hcb & Hf). unfold latch_inv. simpl.
  rewrite Hlatch, Hcb, Hf, Hsp. repeat split; auto.
Qed.

(** C7. The deletion callback of an ephemeral topic is called at most once,
    whatever sequence of [GetChannel] and [DeleteExistingChannel] calls and
    goroutine runs the topic goes through: it is called exactly once as
    soon as the firing condition was met and the started goroutines have
    run, and not at all before. The condition is met exactly by a
    [DeleteExistingChannel] that removes the last channel; when it recurs,
    a goroutine is started again and the latch keeps the callback from a
    second call. Deleting a channel a second time changes nothing: the call
    returns the error "channel does not exist" and the world is as it was. *)
Theorem ephemeral_deleter_once w0 :
  unfired w0 ->
  forall steps,
    let w := do_steps steps w0 in
    (callbacks w <= 1)%nat /\
    (spawned w = O -> callbacks w = if Nat.eqb (firings w) 0 then O else 1%nat) /\
    (forall c,
       firings (snd (DeleteExistingChannel c w)) =
         if bool_decide (is_Some (channelMap (topic w) !! c) /\
                         delete c (channelMap (topic w)) = ∅)
         then S (firings w) else firings w) /\
    (callbacks (snd (deleter_goroutine w)) =
       if bool_decide (spawned w <> O /\ callbacks w = O) then 1%nat else callbacks w) /\
    (forall c,
       let w1 := snd (DeleteExistingChannel c w) in
       DeleteExistingChannel c w1 = (Some "channel does not exist", w1)).
Proof.
  intros Hfresh steps w.
  pose proof (do_steps_inv steps w0 (unfired_inv w0 Hfresh)) as (Hcb & Hnone & Hsome & Heph).
  fold w in Hcb, Hnone, Hsome, Heph. simpl in Hcb, Hnone, Hsome, Heph.
  split; [| split; [| split; [| split]]].
  - rewrite Hcb. destruct (deleter (topic w)); lia.
  - intros Hsp. rewrite Hcb. destruct (firings w) as [| n] eqn:Hf; simpl.
    + destruct Hnone as [_ ->]; reflexivity.
    + destruct Hsome as [? | ->]; [discriminate | contradiction | reflexivity].
  - intros c. pose proof (DeleteExistingChannel_view c w) as Hview.
    apply (f_equal v_firings) in Hview. simpl in Hview. rewrite Hview.
    destruct (bool_decide (_ /\ _ /\ _)) eqn:Hd.
    + apply bool_decide_eq_true in Hd. rewrite bool_decide_eq_true_2; [reflexivity | tauto].
    + apply bool_decide_eq_false in Hd. rewrite bool_decide_eq_false_2; [reflexivity | tauto].
  - pose proof (deleter_goroutine_view w) as Hview.
    apply (f_equal v_callbacks) in Hview. simpl in Hview. rewrite Hview.
    case_bool_decide as Hd.
    + destruct Hd as [Hsp Hz]. destruct (spawned w) as [| k]; [contradiction |]. simpl.
      rewrite Hcb in Hz. destruct (deleter (topic w)); [discriminate | lia].
    + destruct (spawned w) as [| k]; simpl; [reflexivity |].
      destruct (deleter (topic w)) eqn:Hlatch; [reflexivity |].
      exfalso. apply Hd. split; [discriminate | exact Hcb].
  - intros c w1. apply DeleteExistingChannel_missing, DeleteExistingChannel_removes.
Qed.
End RegistryProperties.

(** The scenario S6 and beyond: create "c#ephemeral" on "foo#ephemeral",
    delete it, let the goroutine run, then do all of it again. The condition
    fires twice, the callback is called once. *)
Lemma ephemeral_deleter_once_witness :
  unfired ephemeral_world /\
  firings (do_steps S6_twice ephemeral_world) = 2%nat /\
  callbacks (do_steps S6_twice ephemeral_world) = 1%nat /\
  (callbacks (do_steps S6_twice ephemeral_world) <= 1)%nat.
Proof.
  assert (Hfresh : unfired ephemeral_world) by (vm_compute; auto).
  split; [exact Hfresh |].
  destruct (ephemeral_deleter_once ephemeral_world Hfresh S6_twice) as (Hmost & Hdone & _).
  split; [vm_compute; reflexivity |].
  split; [| exact Hmost].
  rewrite Hdone; vm_compute; reflexivity.
Defined.

(** ** Message ids *)

Section GenerateIDProperties.

Context {F : Type}.
Variable NewGUID : F -> F * (Z + error).
Variable Hex : Z -> list byte.

Lemma GenerateID_returns k : forall f f_k g f' fuel slept,
  after_failures NewGUID k f = Some f_k ->
  NewGUID f_k = (f', inl g) ->
  (k < fuel)%nat ->
  GenerateID NewGUID Hex fuel f slept = Some (Hex g, f', slept + Z.of_nat k * Millisecond).
Proof.
  induction k as [| k IH]; intros f f_k g f' fuel slept Hfail Hok Hfuel;
    (destruct fuel as [| fuel]; [lia |]); cbn [GenerateID after_failures] in Hfail |- *.
  - injection Hfail as <-. rewrite Hok. do 2 f_equal. lia.
  - destruct (NewGUID f) as [f1 [g1 | e1]]; [discriminate |].
    rewrite (IH f1 f_k g f' fuel (slept + Millisecond) Hfail Hok) by lia.
    do 2 f_equal. rewrite Nat2Z.inj_succ. lia.
Qed.

Lemma GenerateID_returned fuel : forall f slept id f' slept',
  GenerateID NewGUID Hex fuel f slept = Some (id, f', slept') ->
  exists k f_k g,
    (k < fuel)%nat /\
    after_failures NewGUID k f = Some f_k /\
    NewGUID f_k = (f', inl g) /\
    id = Hex g /\
    slept' = slept + Z.of_nat k * Millisecond.
Proof.
  induction fuel as [| fuel IH]; intros f slept id f' slept' Hrun; [discriminate |].
  cbn [GenerateID] in Hrun. destruct (NewGUID f) as [f1 [g1 | e1]] eqn:Hcall.
  - injection Hrun as <- <- <-. exists O, f, g1. cbn [after_failures].
    repeat split; auto; lia.
  - destruct (IH _ _ _ _ _ Hrun) as (k & f_k & g & Hk & Hfail & Hok & Hid & Hslept).
    exists (S k), f_k, g. cbn [after_failures]. rewrite Hcall, Nat2Z.inj_succ.
    repeat split; auto; lia.
Qed.

(** C8. [GenerateID] returns exactly when some call of [NewGUID] succeeds:
    if the first [k] calls fail and the next gives the guid [g], then with
    room for more than [k] calls it returns [g.Hex()], the guid of that last
    call, having slept one millisecond after each of the [k] errors, none of
    which reaches the caller. Conversely whatever it returns arose that way.
    While every call fails it keeps retrying, for any number of rounds. The
    result carries no error. *)
Theorem GenerateID_retries_until_success f slept :
  (forall fuel id f' slept',
     GenerateID NewGUID Hex fuel f slept = Some (id, f', slept') <->
     exists k f_k g,
       (k < fuel)%nat /\
       after_failures NewGUID k f = Some f_k /\
       NewGUID f_k = (f', inl g) /\
       id = Hex g /\
       slept' = slept + Z.of_nat k * Millisecond)
  /\
  ((forall k, after_failures NewGUID k f <> None) ->
   forall fuel, GenerateID NewGUID Hex fuel f slept = None).
Proof.
  assert (Hiff : forall fuel id f' slept',
     GenerateID NewGUID Hex fuel f slept = Some (id, f', slept') <->
     exists k f_k g,
       (k < fuel)%nat /\
       after_failures NewGUID k f = Some f_k /\
       NewGUID f_k = (f', inl g) /\
       id = Hex g /\
       slept' = slept + Z.of_nat k * Millisecond).
  { intros fuel id f' slept'. split.
    - apply GenerateID_returned.
    - intros (k & f_k & g & Hk & Hfail & Hok & -> & ->).
      apply (GenerateID_returns k f f_k g f' fuel slept Hfail Hok Hk). }
  split; [exact Hiff |].
  intros Hnever fuel.
  destruct (GenerateID NewGUID Hex fuel f slept) as [[[id f'] slept'] |] eqn:Hrun;
    [| reflexivity].
  apply Hiff in Hrun as (k & f_k & g & _ & Hfail & Hok & _).
  exfalso. apply (Hnever (S k)).
  clear - Hfail Hok. revert f Hfail.
  induction k as [| k IH]; intros f Hfail; simpl in Hfail |- *.
  - injection Hfail as ->. rewrite Hok. reflexivity.
  - destruct (NewGUID f) as [f1 [g1 | e1]]; [reflexivity |]. apply IH. exact Hfail.
Qed.

End GenerateIDProperties.

(** Two errors, then the guid 255: the id is its hex form and two
    milliseconds were slept. *)
Lemma GenerateID_retries_until_success_witness :
  GenerateID scripted_NewGUID hex_of_guid 5
    [inr "time has gone backwards"; inr "sequence expired"; inl 255; inl 256] 0
  = Some (hex_of_guid 255, [inl 256], 2 * Millisecond).
Proof.
  apply (proj1 (GenerateID_retries_until_success scripted_NewGUID hex_of_guid _ 0)).
  exists 2%nat, [inl 255; inl 256], 255.
  repeat split; auto.
Defined.

(** ** The fan-out of the topic pump *)

Section PumpProperties.

Variable Channel_PutMessage : Channel -> nat -> PumpState -> PumpState * option error.
Variable Channel_PutMessageDeferred : Channel -> nat -> Z -> PumpState -> PumpState.

(** The channel methods leave what was published of every message alone. *)
Hypothesis PutMessage_keeps :
  forall c p s, keeps_published s (fst (Channel_PutMessage c p s)).
Hypothesis PutMessageDeferred_keeps :
  forall c p timeout s, keeps_published s (Channel_PutMessageDeferred c p timeout s).

Lemma keeps_published_refl s : keeps_published s s.
Proof. intros a m Ha. eauto. Qed.

Lemma keeps_published_trans s1 s2 s3 :
  keeps_published s1 s2 -> keeps_published s2 s3 -> keeps_published s1 s3.
Proof.
  intros H12 H23 a m Ha. destruct (H12 a m Ha) as (m2 & Ha2 & Hp2).
  destruct (H23 a m2 Ha2) as (m3 & Ha3 & Hp3). exists m3. split; congruence.
Qed.

Lemma keeps_published_dom s s' a :
  keeps_published s s' -> a ∈ dom (heap s) -> a ∈ dom (heap s').
Proof.
  intros Hk Ha. apply elem_of_dom in Ha as [m Ha].
  destruct (Hk a m Ha) as (m' & Ha' & _). apply elem_of_dom. eauto.
Qed.

(** The copy the pump makes of [m]: where it is, and what it holds. *)
Lemma copy_made m s :
  let p := fresh (dom (heap s)) in
  let s1 := store_deferred p (deferred m)
              (store_Timestamp p (Timestamp m) (snd (NewMessage (ID m) (Body m) s))) in
  ((p ∉ dom (heap s)) /\
   heap s1 !! p = Some (mkMessage (ID m) (Body m) (Timestamp m) 0 (deferred m) 0 0 0) /\
   keeps_published s s1).
Proof.
  intros p s1. assert (Hfresh : p ∉ dom (heap s)) by apply is_fresh.
  split; [exact Hfresh |]. subst s1. unfold store_deferred, store_Timestamp, NewMessage.
  fold p. cbn. split.
  - rewrite !lookup_alter_eq, lookup_insert_eq. reflexivity.
  - intros a m0 Ha. exists m0. split; [| reflexivity]. cbn.
    assert (a <> p). { intros ->. apply Hfresh, elem_of_dom. eauto. }
    rewrite !lookup_alter_ne, lookup_insert_ne by congruence. exact Ha.
Qed.


Lemma fanout_from topicName msg pub chans : forall i s m_cur,
  0 <= i ->
  heap s !! msg = Some m_cur ->
  published m_cur = pub ->
  exists ds s',
    messagePump_fanout Channel_PutMessage Channel_PutMessageDeferred topicName i chans msg s
      = Some (ds, s') /\
    map d_channel ds = chans /\
    Forall (fun d => published (d_msg d) = pub /\ d_timeout d = timeout_of pub) ds /\
    (i = 0 -> forall d, head ds = Some d -> d_ptr d = msg) /\
    Forall (fun d => d_ptr d ∉ dom (heap s)) (if 0 <? i then ds else tail ds) /\
    NoDup (map d_ptr ds) /\
    keeps_published s s' /\
    Forall (fun d => exists m', heap s' !! d_ptr d = Some m' /\ published m' = pub) ds.
Proof.
  induction chans as [| channel rest IH]; intros i s m_cur Hi Hmsg Hpub.
  - exists [], s. simpl. repeat split; auto using keeps_published_refl.
    + intros _ d Hd. discriminate.
    + destruct (0 <? i); constructor.
    + constructor.
  - cbn [messagePump_fanout]. rewrite Hmsg.
    (* the message handed to this channel *)
    assert (Hpick : exists chanMsg s1 cm,
      (if 0 <? i
       then let (p, s') := NewMessage (ID m_cur) (Body m_cur) s in
            (p, store_deferred p (deferred m_cur) (store_Timestamp p (Timestamp m_cur) s'))
       else (msg, s)) = (chanMsg, s1) /\
      heap s1 !! chanMsg = Some cm /\ published cm = pub /\ keeps_published s s1 /\
      (if 0 <? i then chanMsg ∉ dom (heap s) else chanMsg = msg)).
    { destruct (0 <? i).
      - destruct (copy_made m_cur s) as (Hfresh & Hcopy & Hkeep).
        eexists _, _, _. split; [reflexivity |]. split; [exact Hcopy |].
        split; [exact Hpub |]. split; [exact Hkeep | exact Hfresh].
      - exists msg, s, m_cur. repeat split; auto using keeps_published_refl. }
    destruct Hpick as (chanMsg & s1 & cm & -> & Hcm & Hcmpub & Hkeep1 & Hwhere).
    rewrite Hcm.
    set (d_s2 := if negb (deferred cm =? 0) then _ else _).
    assert (Hd : d_channel (fst d_s2) = channel /\ d_ptr (fst d_s2) = chanMsg /\
                 d_msg (fst d_s2) = cm /\ d_timeout (fst d_s2) = timeout_of pub /\
                 keeps_published s1 (snd d_s2)).
    { subst d_s2. unfold timeout_of. rewrite <- Hcmpub. cbn [published snd].
      destruct (deferred cm =? 0); cbn [negb].
      - pose proof (PutMessage_keeps channel chanMsg s1) as Hk.
        destruct (Channel_PutMessage channel chanMsg s1) as [s2 [e |]]; cbn in *; auto.
      - cbn. auto. }
    destruct Hd as (Hdc & Hdp & Hdm & Hdt & Hkeep2).
    destruct (Hkeep1 msg m_cur Hmsg) as (m1 & Hmsg1 & Hpub1).
    destruct (Hkeep2 msg m1 Hmsg1) as (m2 & Hmsg2 & Hpub2).
    destruct (IH (i + 1) (snd d_s2) m2 ltac:(lia) Hmsg2 ltac:(congruence))
      as (ds & s' & -> & Hchans & Hall & _ & Hfresh & Hnodup & Hkeep3 & Hfinal).
    replace (0 <? i + 1) with true in Hfresh by (symmetry; apply Z.ltb_lt; lia).
    assert (Hkeep12 : keeps_published s (snd d_s2))
      by (eapply keeps_published_trans; eassumption).
    assert (Hin2 : chanMsg ∈ dom (heap (snd d_s2))).
    { eapply keeps_published_dom; [exact Hkeep2 |]. apply elem_of_dom. eauto. }
    exists (fst d_s2 :: ds), s'. split; [reflexivity |].
    split; [cbn; congruence |].
    split; [constructor; [split; congruence | exact Hall] |].
    split.
    { intros -> d [= <-]. rewrite Hdp. exact Hwhere. }
    split.
    { assert (Hrest : Forall (fun d => d_ptr d ∉ dom (heap s)) ds).
      { eapply Forall_impl; [exact Hfresh |]. cbn. intros d Hd Hin. apply Hd.
        eapply keeps_published_dom; eassumption. }
      destruct (0 <? i); [| exact Hrest].
      constructor; [rewrite Hdp; exact Hwhere | exact Hrest]. }
    split.
    { cbn. constructor; [| exact Hnodup]. rewrite Hdp. intros Hin.
      apply list_elem_of_In, in_map_iff in Hin as (d & Hdeq & Hdin).
      rewrite Forall_forall in Hfresh. apply list_elem_of_In in Hdin.
      apply (Hfresh d Hdin). rewrite Hdeq. exact Hin2. }
    split; [eapply keeps_published_trans; eassumption |].
    constructor; [| exact Hfinal].
    rewrite Hdp.
    destruct (Hkeep2 chanMsg cm Hcm) as (cm2 & Hcm2 & Hcm2pub).
    destruct (Hkeep3 chanMsg cm2 Hcm2) as (cm3 & Hcm3 & Hcm3pub).
    exists cm3. split; [exact Hcm3 | congruence].
Qed.

(** C1. For a message [m] at [msg] and a snapshot [chans] of the channels,
    the fan-out makes one delivery per channel, in order. The first channel
    is handed [msg] itself; every later channel is handed a pointer that was
    not allocated before the fan-out, and no pointer is handed out twice.
    What each channel is handed holds the id, body, timestamp and defer delay
    of [m] when it is handed over, and still does when the fan-out is done.
    Each delivery is by [PutMessageDeferred] with the defer delay when the
    delay is not zero, and by [PutMessage] otherwise. This holds when the
    channel methods, whose code is elsewhere, do not touch those four fields
    of any message. *)
Theorem messagePump_fanout_copies topicName chans msg s m :
  heap s !! msg = Some m ->
  exists ds s',
    messagePump_fanout Channel_PutMessage Channel_PutMessageDeferred topicName 0 chans msg s
      = Some (ds, s') /\
    map d_channel ds = chans /\
    (forall d, head ds = Some d -> d_ptr d = msg) /\
    Forall (fun d => d_ptr d ∉ dom (heap s)) (tail ds) /\
    NoDup (map d_ptr ds) /\
    Forall (fun d =>
              ID (d_msg d) = ID m /\ Body (d_msg d) = Body m /\
              Timestamp (d_msg d) = Timestamp m /\ deferred (d_msg d) = deferred m /\
              d_timeout d = (if deferred m =? 0 then None else Some (deferred m)) /\
              exists m', heap s' !! d_ptr d = Some m' /\ published m' = published m) ds.
Proof.
  intros Hmsg.
  destruct (fanout_from topicName msg (published m) chans 0 s m ltac:(lia) Hmsg eq_refl)
    as (ds & s' & Hrun & Hchans & Hall & Hfirst & Hfresh & Hnodup & _ & Hfinal).
  exists ds, s'. repeat (split; [solve [auto] |]).
  apply Forall_forall. intros d Hd.
  rewrite Forall_forall in Hall, Hfinal.
  destruct (Hall d Hd) as [Hpub Htimeout]. unfold published in Hpub.
  injection Hpub as -> -> -> Hdef. rewrite Htimeout. unfold timeout_of. cbn [published snd].
  rewrite Hdef. repeat split; auto.
Qed.

End PumpProperties.

Lemma demo_PutMessage_keeps c p s : keeps_published s (fst (demo_PutMessage c p s)).
Proof.
  intros a m Ha. cbn. destruct (decide (a = p)) as [-> | Hne].
  - rewrite lookup_alter_eq, Ha. eexists. split; reflexivity.
  - rewrite lookup_alter_ne by congruence. eauto.
Qed.

Lemma demo_PutMessageDeferred_keeps c p timeout s :
  keeps_published s (demo_PutMessageDeferred c p timeout s).
Proof.
  intros a m Ha. cbn. destruct (decide (a = p)) as [-> | Hne].
  - rewrite lookup_alter_eq, Ha. eexists. split; reflexivity.
  - rewrite lookup_alter_ne by congruence. eauto.
Qed.

(** Three channels and the message at address 7: the first channel gets
    address 7, the others two new addresses. *)
Lemma messagePump_fanout_copies_witness :
  heap demo_pump !! 7%nat = Some msg_hi /\
  exists ds s',
    messagePump_fanout demo_PutMessage demo_PutMessageDeferred "orders" 0 demo_chans 7%nat
      demo_pump = Some (ds, s') /\
    map d_channel ds = demo_chans /\
    NoDup (map d_ptr ds).
Proof.
  assert (Hmsg : heap demo_pump !! 7%nat = Some msg_hi) by reflexivity.
  split; [exact Hmsg |].
  destruct (messagePump_fanout_copies demo_PutMessage demo_PutMessageDeferred
              demo_PutMessage_keeps demo_PutMessageDeferred_keeps
              "orders" demo_chans 7%nat demo_pump msg_hi Hmsg)
    as (ds & s' & Hrun & Hchans & _ & _ & Hnodup & _).
  exists ds, s'. auto.
Defined.

(** ** The topic registry of the broker *)

Section GetTopicProperties.

Context {D : Type} `{BackendQueue D}.
Variable diskqueue_New : string -> D.
Variable lookupdHTTPAddrs : list string.
Variable GetLookupdTopicChannels : string -> list string -> list string * option error.

Abbreviation step := (GetTopic_step diskqueue_New lookupdHTTPAddrs GetLookupdTopicChannels).
Abbreviation run := (run_schedule diskqueue_New lookupdHTTPAddrs GetLookupdTopicChannels).

Implicit Types (n : @NSQD D) (cs : list (string * GetTopic_pc)) (pc : GetTopic_pc).

Lemma GetChannel_name {B} `{BackendQueue B} c (w : World B) :
  name (topic (snd (GetChannel c w))) = name (topic w).
Proof.
  destruct w as [[mc mb nm cm be mem st ec ef eph dl pz] hv pool sp evs].
  unfold GetChannel, getOrCreateChannel, notify_channelUpdate, bind, get_topic, modify_topic,
    emit, ret. cbn.
  destruct (cm !! c); cbn; [reflexivity |]. destruct ec; reflexivity.
Qed.

Lemma Start_name {B} `{BackendQueue B} (w : World B) :
  name (topic (snd (Start w))) = name (topic w).
Proof.
  destruct w as [[mc mb nm cm be mem st ec ef eph dl pz] hv pool sp evs].
  unfold Start, bind, get_topic, modify_topic, ret. cbn.
  destruct (try_send st 1); reflexivity.
Qed.

Lemma on_topic_registry {A} t (method : M (dummyBackendQueue + D) A) n :
  (forall w, name (topic (snd (method w))) = name (topic w)) ->
  registry_ok n ->
  registry_ok (on_topic t method n) /\ topicMap (on_topic t method n) = topicMap n.
Proof.
  intros Hname [Hreg Hheap]. unfold on_topic.
  destruct (topics n !! t) as [obj |] eqn:Ht; [| split; [split |]; auto].
  split; [| reflexivity]. split; cbn.
  - intros topicName t' Hlookup. destruct (Hreg _ _ Hlookup) as (obj' & Hobj' & Hnm).
    destruct (decide (t' = t)) as [-> | Hne].
    + rewrite lookup_insert_eq. eexists. split; [reflexivity |].
      rewrite Hname. cbn. congruence.
    + rewrite lookup_insert_ne by congruence. eauto.
  - intros t' obj' Hobj'. destruct (decide (t' = t)) as [-> | Hne].
    + rewrite lookup_insert_eq in Hobj'. injection Hobj' as <-.
      rewrite Hname. cbn. apply Hheap. exact Ht.
    + rewrite lookup_insert_ne in Hobj' by congruence. apply Hheap. exact Hobj'.
Qed.

Lemma precreate_channels_registry t channelNames : forall n,
  registry_ok n ->
  registry_ok (precreate_channels t channelNames n) /\
  topicMap (precreate_channels t channelNames n) = topicMap n.
Proof.
  induction channelNames as [| c rest IH]; intros n Hok; [auto |].
  simpl. destruct (HasSuffix c "#ephemeral"); [apply IH, Hok |].
  destruct (on_topic_registry t (GetChannel c) n (GetChannel_name c) Hok) as [Hok1 Hmap1].
  destruct (IH _ Hok1) as [Hok2 Hmap2]. split; [exact Hok2 | congruence].
Qed.

Lemma nsqd_emit_registry e n :
  registry_ok n -> registry_ok (nsqd_emit e n) /\ topicMap (nsqd_emit e n) = topicMap n.
Proof. intros Hok. split; [exact Hok | reflexivity]. Qed.

Lemma GetTopic_step_registry topicName pc n :
  registry_ok n ->
  holds_registered topicName pc n ->
  let n' := snd (step topicName pc n) in
  registry_ok n' /\
  topicMap n ⊆ topicMap n' /\
  holds_registered topicName (fst (step topicName pc n)) n'.
Proof.
  intros Hok Hheld. destruct pc as [| | t | t]; cbn [GetTopic_step].
  - destruct (topicMap n !! topicName) as [t |] eqn:Hfound; cbn; auto.
  - destruct (topicMap n !! topicName) as [t |] eqn:Hfound; cbn; [auto |].
    destruct Hok as [Hreg Hheap].
    assert (Hfresh : topics n !! fresh (dom (topics n)) = None)
      by (apply not_elem_of_dom, is_fresh).
    split; [split |]; cbn.
    + intros nm t Hlookup. destruct (decide (nm = topicName)) as [-> | Hne].
      * rewrite lookup_insert_eq in Hlookup. injection Hlookup as <-.
        rewrite lookup_insert_eq. eexists. split; reflexivity.
      * rewrite lookup_insert_ne in Hlookup by congruence.
        destruct (Hreg _ _ Hlookup) as (obj & Hobj & Hnm).
        rewrite lookup_insert_ne by congruence. eauto.
    + intros t obj Hobj. destruct (decide (t = fresh (dom (topics n)))) as [-> | Hne].
      * rewrite lookup_insert_eq in Hobj. injection Hobj as <-. cbn.
        apply lookup_insert_eq.
      * rewrite lookup_insert_ne in Hobj by congruence.
        pose proof (Hheap _ _ Hobj) as Hlookup.
        rewrite lookup_insert_ne by congruence. exact Hlookup.
    + split; [apply insert_subseteq; exact Hfound | apply lookup_insert_eq].
  - cbn in Hheld.
    set (n1 := nsqd_emit _ n).
    destruct (isLoading n1 =? 1); cbn; [auto |].
    set (n2 := if 0 <? len lookupdHTTPAddrs then _ else _).
    assert (Hn2 : registry_ok n2 /\ topicMap n2 = topicMap n).
    { subst n2. destruct (0 <? len lookupdHTTPAddrs).
      - destruct (GetLookupdTopicChannels topicName lookupdHTTPAddrs) as [channelNames e].
        match goal with |- context [precreate_channels t channelNames ?m] =>
          destruct (precreate_channels_registry t channelNames m) as [Hok' Hmap'] end.
        + destruct e; exact Hok.
        + split; [exact Hok' |]. rewrite Hmap'. destruct e; reflexivity.
      - destruct (0 <? len _); auto. }
    destruct Hn2 as [Hok2 Hmap2].
    destruct (on_topic_registry t Start n2 Start_name Hok2) as [Hok3 Hmap3].
    split; [exact Hok3 |]. rewrite Hmap3, Hmap2. auto.
  - cbn. auto.
Qed.

Lemma holds_registered_mono topicName pc n n' :
  topicMap n ⊆ topicMap n' -> holds_registered topicName pc n ->
  holds_registered topicName pc n'.
Proof.
  intros Hsub. destruct pc; cbn; auto; intros Hheld; eapply lookup_weaken; eassumption.
Qed.

Lemma schedule_step_ok i cs n :
  calls_ok cs n ->
  let r := schedule_step diskqueue_New lookupdHTTPAddrs GetLookupdTopicChannels i cs n in
  calls_ok (fst r) (snd r) /\ topicMap n ⊆ topicMap (snd r) /\
  map fst (fst r) = map fst cs.
Proof.
  intros [Hok Hcalls]. unfold schedule_step.
  destruct (cs !! i) as [[topicName pc] |] eqn:Hi; cbn; [| split; [split |]; auto].
  destruct (GetTopic_step_registry topicName pc n Hok (Hcalls _ _ _ Hi))
    as (Hok' & Hsub & Hheld').
  destruct (step topicName pc n) as [pc' n']. cbn in *.
  split; [split; [exact Hok' |] | split; [exact Hsub |]].
  - intros j nm pcj Hj. destruct (decide (j = i)) as [-> | Hne].
    + rewrite list_lookup_insert_eq in Hj by (eapply lookup_lt_Some; eauto).
      injection Hj as <- <-. exact Hheld'.
    + rewrite list_lookup_insert_ne in Hj by congruence.
      eapply holds_registered_mono; [exact Hsub | eauto].
  - apply list_eq. intros j. rewrite !list_lookup_fmap.
    destruct (decide (j = i)) as [-> | Hne].
    + rewrite list_lookup_insert_eq by (eapply lookup_lt_Some; eauto). rewrite Hi. reflexivity.
    + rewrite list_lookup_insert_ne by congruence. reflexivity.
Qed.

Lemma run_schedule_ok schedule : forall cs n,
  calls_ok cs n ->
  calls_ok (fst (run schedule cs n)) (snd (run schedule cs n)) /\
  topicMap n ⊆ topicMap (snd (run schedule cs n)) /\
  map fst (fst (run schedule cs n)) = map fst cs.
Proof.
  induction schedule as [| i rest IH]; intros cs n Hok; [cbn; auto |].
  cbn [run_schedule].
  destruct (schedule_step_ok i cs n Hok) as (Hok1 & Hsub1 & Hnames1).
  destruct (schedule_step _ _ _ i cs n) as [cs1 n1]. cbn in *.
  destruct (IH cs1 n1 Hok1) as (Hok2 & Hsub2 & Hnames2).
  split; [exact Hok2 |]. split; [etrans; eassumption | congruence].
Qed.

Lemma registry_ok_instances n topicName :
  registry_ok n -> (instances topicName n <= 1)%nat.
Proof.
  intros [_ Hheap]. unfold instances.
  set (l := List.filter _ _).
  assert (Hnodup : NoDup l).
  { subst l. apply NoDup_ListNoDup, List.NoDup_filter, NoDup_ListNoDup, NoDup_map_to_list. }
  assert (Hsame : forall x y, In x l -> In y l -> x = y).
  { subst l. intros [t obj] [u obj'] Hx Hy.
    apply List.filter_In in Hx as [Hx Hxn], Hy as [Hy Hyn].
    apply list_elem_of_In, elem_of_map_to_list in Hx, Hy. cbn in Hxn, Hyn.
    apply String.eqb_eq in Hxn, Hyn.
    pose proof (Hheap _ _ Hx) as Hrx. pose proof (Hheap _ _ Hy) as Hry.
    rewrite Hxn in Hrx. rewrite Hyn in Hry.
    assert (t = u) by congruence. subst u. congruence. }
  destruct l as [| x [| y l']]; cbn; [lia | lia |].
  exfalso. assert (x = y) by (apply Hsame; cbn; auto). subst y.
  apply NoDup_cons in Hnodup as [Hnot _]. apply Hnot. left.
Qed.

Lemma GetTopic_registered topicName n :
  registry_ok n ->
  registry_ok (snd (GetTopic diskqueue_New lookupdHTTPAddrs GetLookupdTopicChannels topicName n))
  /\ topicMap (snd (GetTopic diskqueue_New lookupdHTTPAddrs GetLookupdTopicChannels topicName n))
       !! topicName
     = Some (fst (GetTopic diskqueue_New lookupdHTTPAddrs GetLookupdTopicChannels topicName n)).
Proof.
  intros Hok. unfold GetTopic.
  destruct (GetTopic_step_registry topicName At_RLock n Hok I) as (Hok1 & _ & Hheld1).
  destruct (step topicName At_RLock n) as [pc1 n1] eqn:Hs1. cbn in Hok1, Hheld1.
  destruct (GetTopic_step_registry topicName pc1 n1 Hok1 Hheld1) as (Hok2 & _ & Hheld2).
  destruct (step topicName pc1 n1) as [pc2 n2] eqn:Hs2. cbn in Hok2, Hheld2.
  destruct (GetTopic_step_registry topicName pc2 n2 Hok2 Hheld2) as (Hok3 & _ & Hheld3).
  destruct (step topicName pc2 n2) as [pc3 n3] eqn:Hs3. cbn in Hok3, Hheld3.
  assert (Hdone : exists t, pc3 = Returned t).
  { cbn in Hs1. destruct (topicMap n !! topicName).
    - injection Hs1 as <- <-. cbn in Hs2. injection Hs2 as <- <-. cbn in Hs3.
      injection Hs3 as <- <-. eauto.
    - injection Hs1 as <- <-. cbn [GetTopic_step] in Hs2.
      destruct (topicMap n !! topicName).
      + injection Hs2 as <- <-. cbn in Hs3. injection Hs3 as <- <-. eauto.
      + destruct (NewTopic _ _ _) as [t n']. injection Hs2 as <- <-.
        cbn [GetTopic_step] in Hs3.
        destruct (isLoading _ =? 1); injection Hs3 as <- <-; eauto. }
  destruct Hdone as [t ->]. cbn in *. auto.
Qed.

(** C10. [GetTopic] never creates a duplicate. From a consistent registry,
    let any number of calls of [GetTopic] run concurrently, their critical
    sections interleaved in any order, no topic being deleted meanwhile.
    Then at every moment the registry is consistent; the heap holds at most
    one topic of each name; topics registered at the start stay as they are;
    a call that has returned holds the pointer registered under its name;
    and two calls for the same name that have returned hold the same pointer.
    The second of two calls made one after the other returns what the first
    returned. *)
Theorem GetTopic_no_duplicate n0 :
  registry_ok n0 ->
  (forall schedule cs0,
     Forall (fun c => snd c = At_RLock) cs0 ->
     let cs := fst (run schedule cs0 n0) in
     let n := snd (run schedule cs0 n0) in
     registry_ok n /\
     (forall topicName, instances topicName n <= 1)%nat /\
     (forall topicName t, topicMap n0 !! topicName = Some t -> topicMap n !! topicName = Some t) /\
     (forall i topicName t,
        cs !! i = Some (topicName, Returned t) -> topicMap n !! topicName = Some t) /\
     (forall i j topicName t u,
        cs !! i = Some (topicName, Returned t) ->
        cs !! j = Some (topicName, Returned u) -> t = u))
  /\
  (forall topicName,
     let first := GetTopic diskqueue_New lookupdHTTPAddrs GetLookupdTopicChannels topicName n0 in
     fst (GetTopic diskqueue_New lookupdHTTPAddrs GetLookupdTopicChannels topicName (snd first))
       = fst first).
Proof.
  intros Hok0. split.
  - intros schedule cs0 Hstart cs n.
    assert (Hinit : calls_ok cs0 n0).
    { split; [exact Hok0 |]. intros i nm pc Hi.
      rewrite Forall_forall in Hstart. apply list_elem_of_lookup_2, Hstart in Hi.
      cbn in Hi. subst pc. exact I. }
    destruct (run_schedule_ok schedule cs0 n0 Hinit) as ([Hok Hcalls] & Hsub & _).
    fold cs n in Hok, Hcalls, Hsub.
    split; [exact Hok |].
    split; [intros nm; apply registry_ok_instances, Hok |].
    split; [intros nm t Ht; eapply lookup_weaken; eassumption |].
    split; [intros i nm t Hi; apply (Hcalls _ _ _ Hi) |].
    intros i j nm t u Hi Hj.
    pose proof (Hcalls _ _ _ Hi) as Ht. pose proof (Hcalls _ _ _ Hj) as Hu.
    cbn in Ht, Hu. congruence.
  - intros topicName first.
    destruct (GetTopic_registered topicName n0 Hok0) as [Hok1 Hreg1]. fold first in Hok1, Hreg1.
    unfold GetTopic at 1. cbn [GetTopic_step]. rewrite Hreg1. reflexivity.
Qed.
End GetTopicProperties.

Lemma empty_nsqd_ok : registry_ok empty_nsqd.
Proof. split; intros ? ? Hlookup; cbn in Hlookup; rewrite lookup_empty in Hlookup; discriminate. Qed.

(** Two calls for "orders" and one for "audit#ephemeral" whose critical
    sections alternate: both calls for "orders" pass the read lock before
    either creates the topic, and both return the same pointer. *)
Lemma GetTopic_no_duplicate_witness :
  registry_ok empty_nsqd /\
  fst (run_schedule demo_diskqueue_New [] (fun _ _ => ([], None))
         [0; 1; 2; 0; 1; 2; 0; 1; 2]%nat three_calls empty_nsqd)
    = [("orders", Returned 0%nat); ("orders", Returned 0%nat);
       ("audit#ephemeral", Returned 1%nat)].
Proof.
  split; [exact empty_nsqd_ok |].
  destruct (GetTopic_no_duplicate demo_diskqueue_New [] (fun _ _ => ([], None))
              empty_nsqd empty_nsqd_ok) as [Hconcurrent _].
  destruct (Hconcurrent [0; 1; 2; 0; 1; 2; 0; 1; 2]%nat three_calls) as (_ & _ & _ & _ & Hsame).
  - repeat constructor.
  - vm_compute. reflexivity.
Defined.

(** ** The pool of scan workers *)

Section ScanPoolProperties.

Context {Queues : Type}.
Variable processInFlightQueue : Channel -> Z -> Queues -> Queues * bool.
Variable processDeferredQueue : Channel -> Z -> Queues -> Queues * bool.

Abbreviation deliver_close := (deliver_close processInFlightQueue processDeferredQueue).
Abbreviation send_closeCh := (send_closeCh processInFlightQueue processDeferredQueue).
Abbreviation resizePool_loop := (resizePool_loop processInFlightQueue processDeferredQueue).
Abbreviation resizePool := (resizePool processInFlightQueue processDeferredQueue).

Implicit Types (s : @ScanState Queues) (ws : list worker).

Lemma deliver_close_one s ws : forall k,
  (k < in_loop ws)%nat ->
  S (in_loop (deliver_close k s ws)) = in_loop ws /\
  returned (deliver_close k s ws) = S (returned ws) /\
  length (deliver_close k s ws) = length ws.
Proof.
  induction ws as [| w rest IH]; intros k Hk; [cbn in Hk; lia |].
  destruct w; cbn [deliver_close].
  - destruct k as [| k].
    + cbn. auto.
    + unfold in_loop, returned in *. cbn in *.
      destruct (IH k ltac:(lia)) as (H1 & H2 & H3). lia.
  - unfold in_loop, returned in *. cbn in *.
    destruct (IH k Hk) as (H1 & H2 & H3). lia.
Qed.

Lemma send_closeCh_one pick s ws' :
  send_closeCh pick s = Some ws' ->
  S (in_loop ws') = in_loop (workers s) /\
  returned ws' = S (returned (workers s)) /\
  length ws' = length (workers s).
Proof.
  unfold send_closeCh. destruct (in_loop (workers s)) as [| k] eqn:Hn; [discriminate |].
  pose proof (Nat.mod_upper_bound pick (S k) ltac:(discriminate)) as Hbound.
  intros Hsome. injection Hsome as <-. rewrite <- Hn in Hbound |- *.
  apply deliver_close_one. rewrite Hn in Hbound |- *. exact Hbound.
Qed.

Lemma send_closeCh_some pick s :
  (0 < in_loop (workers s))%nat -> exists ws', send_closeCh pick s = Some ws'.
Proof.
  unfold send_closeCh. destruct (in_loop (workers s)); [lia | eauto].
Qed.

Lemma in_loop_app ws1 ws2 : in_loop (ws1 ++ ws2) = (in_loop ws1 + in_loop ws2)%nat.
Proof. unfold in_loop. rewrite List.filter_app, length_app. reflexivity. Qed.

Lemma int_small z : - 2 ^ 63 <= z < 2 ^ 63 -> int z = z.
Proof.
  intros Hz. unfold int. rewrite Z.mod_small by lia. lia.
Qed.

Lemma resizePool_loop_reaches picks ideal : forall fuel s,
  0 <= ideal < 2 ^ 63 -> pool_ok s ->
  (Z.to_nat (Z.abs (ideal - poolSize s)) < fuel)%nat ->
  exists s',
    resizePool_loop fuel picks ideal s = Done s' /\
    poolSize s' = ideal /\ pool_ok s' /\
    channels s' = channels s /\ queues s' = queues s /\
    (returned (workers s') = returned (workers s) + Z.to_nat (poolSize s - ideal))%nat.
Proof.
  induction fuel as [| fuel IH]; intros s Hideal [Hcount Hrange] Hfuel; [lia |].
  cbn [resizePool_loop].
  destruct (Z.eqb_spec ideal (poolSize s)) as [Heq | Hne].
  - exists s. repeat split; auto. rewrite <- Heq. replace (ideal - ideal) with 0 by lia. cbn. lia.
  - destruct (Z.ltb_spec ideal (poolSize s)) as [Hshrink | Hgrow].
    + destruct (send_closeCh_some (picks fuel) s ltac:(lia)) as [ws' Hsend].
      rewrite Hsend. destruct (send_closeCh_one _ _ _ Hsend) as (Hin & Hret & _).
      rewrite int_small by lia.
      destruct (IH (mkScanState (poolSize s - 1) ws' (channels s) (queues s) (now s) (rand s)))
        as (s' & Hrun & Hsize & Hok & Hch & Hq & Hr); try assumption.
      * split; cbn [poolSize workers]; lia.
      * cbn [poolSize]. lia.
      * exists s'. cbn [poolSize workers channels queues] in *.
        do 5 (split; [assumption |]). rewrite Hr, Hret. cbn [poolSize]. lia.
    + rewrite int_small by lia.
      destruct (IH (mkScanState (poolSize s + 1) (workers s ++ [In_loop]) (channels s)
                      (queues s) (now s) (rand s)))
        as (s' & Hrun & Hsize & Hok & Hch & Hq & Hr); try assumption.
      * split; cbn [poolSize workers]; [rewrite in_loop_app; cbn; lia | lia].
      * cbn [poolSize]. lia.
      * exists s'. cbn [poolSize workers channels queues] in *.
        do 5 (split; [assumption |]). rewrite Hr.
        unfold returned. rewrite List.filter_app, length_app. cbn. lia.
Qed.

Lemma idealPoolSize_clamp Max num :
  1 <= Max ->
  idealPoolSize Max num =
    Z.min (Z.max 1 (Float64.to_int (Float64.mul (Float64.of_int num) Float64.quarter))) Max.
Proof.
  intros HMax. unfold idealPoolSize.
  destruct (Z.ltb_spec (Float64.to_int (Float64.mul (Float64.of_int num) Float64.quarter)) 1);
    [lia |].
  destruct (Z.ltb_spec Max (Float64.to_int (Float64.mul (Float64.of_int num) Float64.quarter)));
    lia.
Qed.

(** C5, as amended. For [0 <= num] and a configured maximum of at least 1,
    [resizePool] returns, whoever receives the sends on [closeCh], and leaves
    [n.poolSize] at [floor_quarter] raised to at least 1 and capped at
    [QueueScanWorkerPoolMax], where [floor_quarter] is
    [int(float64(num) * 0.25)], which is the floor of [num / 4] for [num] up
    to [2^53]. [n.poolSize] then counts the workers that are in their loop as
    it did before, and as many workers have returned as the pool was above
    the target. Every single send on [closeCh] makes exactly one worker
    return. *)
Theorem resizePool_clamps picks o num s :
  0 <= num < 2 ^ 63 ->
  1 <= QueueScanWorkerPoolMax o < 2 ^ 63 ->
  pool_ok s ->
  let floor_quarter := Float64.to_int (Float64.mul (Float64.of_int num) Float64.quarter) in
  let target := Z.min (Z.max 1 floor_quarter) (QueueScanWorkerPoolMax o) in
  (num <= 2 ^ 53 -> floor_quarter = num / 4) /\
  (forall fuel,
     (Z.to_nat (Z.abs (target - poolSize s)) < fuel)%nat ->
     exists s',
       resizePool fuel picks o num s = Done s' /\
       poolSize s' = target /\
       pool_ok s' /\
       (returned (workers s') = returned (workers s) + Z.to_nat (poolSize s - target))%nat) /\
  (forall pick st ws',
     send_closeCh pick st = Some ws' ->
     S (in_loop ws') = in_loop (workers st) /\ returned ws' = S (returned (workers st))).
Proof.
  intros Hnum HMax Hok floor_quarter target.
  split; [intros Hsmall; apply quarter_of_int; lia |].
  split.
  - intros fuel Hfuel. unfold resizePool. rewrite idealPoolSize_clamp by lia.
    fold floor_quarter. fold target.
    destruct (resizePool_loop_reaches picks target fuel s ltac:(lia) Hok Hfuel)
      as (s' & Hrun & Hsize & Hok' & _ & _ & Hret).
    exists s'. auto.
  - intros pick st ws' Hsend. destruct (send_closeCh_one pick st ws' Hsend) as (? & ? & _). auto.
Qed.
End ScanPoolProperties.

Lemma idle_scan_ok : pool_ok idle_scan.
Proof. split; [reflexivity | vm_compute; reflexivity]. Qed.

(** A pool of six workers sized for four channels: five workers are told
    to return. *)
Lemma resizePool_clamps_witness :
  pool_ok six_workers /\
  exists s',
    resizePool demo_processInFlightQueue demo_processDeferredQueue 6 (fun k => k) demo_options 4
      six_workers = Done s' /\
    poolSize s' = 1 /\ in_loop (workers s') = 1%nat /\ returned (workers s') = 5%nat.
Proof.
  assert (Hok : pool_ok six_workers) by (split; [reflexivity | vm_compute; reflexivity]).
  split; [exact Hok |].
  destruct (resizePool_clamps demo_processInFlightQueue demo_processDeferredQueue
              (fun k => k) demo_options 4 six_workers)
    as (_ & Hrun & _); [lia | cbn; lia | exact Hok |].
  destruct (Hrun 6%nat) as (s' & Hdone & Hsize & [Hcount _] & Hret); [vm_compute; lia |].
  exists s'. split; [exact Hdone |].
  assert (Hsize1 : poolSize s' = 1) by (rewrite Hsize; vm_compute; reflexivity).
  assert (Hret5 : returned (workers s') = 5%nat) by (rewrite Hret; vm_compute; reflexivity).
  split; [exact Hsize1 |]. split; [| exact Hret5].
  apply Nat2Z.inj. rewrite <- Hcount, Hsize1. reflexivity.
Defined.

(** With [QueueScanWorkerPoolMax] at 0 and no channel, [resizePool] starts
    a worker and leaves the pool at 1, where 0 * 0.25 raised to at least 1 and
    then capped at 0 is 0. *)
Lemma resizePool_clamp_counterexample :
  exists s',
    resizePool demo_processInFlightQueue demo_processDeferredQueue 3 (fun k => k)
      (mkOptions 2 [] 20 (Float64.Finite (Qmake 1 4)) 0) 0 idle_scan = Done s' /\
    poolSize s' = 1 /\
    poolSize s' <> Z.min (Z.max 1 (0 / 4)) 0.
Proof.
  eexists. split; [vm_compute; reflexivity |]. split; [reflexivity | discriminate].
Qed.

(** With a negative [QueueScanWorkerPoolMax] and eight channels the first
    send on [closeCh] finds no worker: [resizePool] never returns. *)
Lemma resizePool_blocks_below_zero fuel :
  resizePool demo_processInFlightQueue demo_processDeferredQueue (S fuel) (fun k => k)
    (mkOptions 2 [] 20 (Float64.Finite (Qmake 1 4)) (-1)) 8 idle_scan = Blocked.
Proof. reflexivity. Qed.

(** ** The scan loop *)

Section ScanLoopProperties.

Context {Queues : Type}.
Variable processInFlightQueue : Channel -> Z -> Queues -> Queues * bool.
Variable processDeferredQueue : Channel -> Z -> Queues -> Queues * bool.
Variable UniqRands : Z -> Z -> nat -> list Z.

(** Unfolds one turn of the loop at the label [loop] into its pass. *)
Ltac unfold_pass H := cbn [queueScanLoop_step] in H; unfold scan_pass in H.

Abbreviation dispatch := (dispatch processInFlightQueue processDeferredQueue).
Abbreviation scan_pass := (scan_pass processInFlightQueue processDeferredQueue UniqRands).
Abbreviation queueScanLoop_step :=
  (queueScanLoop_step processInFlightQueue processDeferredQueue UniqRands).

Implicit Types (s : @ScanState Queues).

Lemma dirty_among_bounds responses : 0 <= dirty_among responses <= len responses.
Proof.
  unfold dirty_among, len. pose proof (List.filter_length_le (fun dirty => dirty) responses).
  lia.
Qed.

Lemma count_dirty_counts num : forall responseCh numDirty0 numDirty rest,
  0 <= numDirty0 -> numDirty0 + Z.of_nat num < 2 ^ 63 ->
  count_dirty num responseCh numDirty0 = Some (numDirty, rest) ->
  numDirty = numDirty0 + dirty_among (firstn num responseCh) /\
  length (firstn num responseCh) = num /\
  rest = skipn num responseCh.
Proof.
  induction num as [| num IH]; intros responseCh numDirty0 numDirty rest H0 Hmax Hcount.
  - cbn [count_dirty] in Hcount. injection Hcount as <- <-.
    unfold dirty_among. cbn [firstn skipn List.filter length Z.of_nat].
    rewrite Z.add_0_r. auto.
  - cbn [count_dirty] in Hcount. destruct responseCh as [| dirty rest0]; [discriminate |].
    pose proof (dirty_among_bounds (firstn num rest0)) as Hb.
    assert (Hlen : len (firstn num rest0) <= Z.of_nat num).
    { unfold len. rewrite length_firstn. lia. }
    destruct dirty.
    + rewrite int_small in Hcount by lia.
      apply IH in Hcount; [| lia | lia]. destruct Hcount as (-> & Hl & ->).
      cbn [firstn skipn length]. unfold dirty_among in *. cbn [List.filter length].
      split; [lia | split; [lia | reflexivity]].
    + apply IH in Hcount; [| lia | lia]. destruct Hcount as (-> & Hl & ->).
      cbn [firstn skipn length]. unfold dirty_among in *. cbn [List.filter length].
      split; [lia | split; [lia | reflexivity]].
Qed.

(** C6. At the label [loop] the scan loop runs a pass at once: no tick is
    waited for, whatever the tickers do meanwhile. After a pass over [num]
    sampled channels of which [numDirty] answered dirty, the loop is back at
    the label [loop] if and only if the float64 quotient
    [float64(numDirty)/float64(num)] is greater than [QueueScanDirtyPercent],
    and otherwise in its [select], where it waits for the next tick. So with
    [QueueScanDirtyPercent] at 1.0 every pass is followed by a wait, and with
    0.0 a pass is followed by another at once exactly when at least one
    sampled channel was dirty. *)
Theorem queueScanLoop_repeats fuel picks o num ev s pc' s' :
  num < 2 ^ 63 ->
  queueScanLoop_step fuel picks o (At_loop num) ev s = Done (pc', s') ->
  exists responses,
    let numDirty := dirty_among (firstn (Z.to_nat num) responses) in
    dispatch (UniqRands num (len (channels s)) (rand s))
      (mkScanState (poolSize s) (workers s) (channels s) (queues s) (now s) (S (rand s)))
      = Done (responses, s') /\
    0 <= numDirty <= Z.max num 0 /\
    (pc' = At_loop num <->
     Float64.gt (Float64.div (Float64.of_int numDirty) (Float64.of_int num))
       (QueueScanDirtyPercent o) = true) /\
    (pc' = At_loop num \/ pc' = At_select) /\
    (forall q, QueueScanDirtyPercent o = Float64.Finite q -> (q == 1)%Q -> pc' = At_select) /\
    (forall q, QueueScanDirtyPercent o = Float64.Finite q -> (q == 0)%Q ->
       (pc' = At_loop num <-> 1 <= numDirty)).
Proof.
  intros Hnum Hstep. unfold_pass Hstep.
  destruct (dispatch _ _) as [[responses s1] | | |] eqn:Hdispatch; try discriminate.
  destruct (count_dirty (Z.to_nat num) responses 0) as [[numDirty rest] |] eqn:Hcount;
    [| discriminate].
  injection Hstep as <- <-.
  apply count_dirty_counts in Hcount; [| lia | lia]. destruct Hcount as (HnumDirty & Hlen & _).
  rewrite Z.add_0_l in HnumDirty. subst numDirty.
  exists responses. cbv zeta. set (numDirty := dirty_among _) in *.
  split; [reflexivity |].
  assert (Hbounds : 0 <= numDirty <= Z.max num 0).
  { pose proof (dirty_among_bounds (firstn (Z.to_nat num) responses)) as Hb.
    fold numDirty in Hb. unfold len in Hb. rewrite Hlen in Hb. lia. }
  split; [exact Hbounds |].
  unfold after_pass.
  set (ratio := Float64.div (Float64.of_int numDirty) (Float64.of_int num)).
  assert (Hratio := ratio_cases numDirty num ltac:(lia) ltac:(lia)). fold ratio in Hratio.
  destruct (Float64.gt ratio (QueueScanDirtyPercent o)) eqn:Hgt.
  - split; [tauto |]. split; [auto |].
    destruct Hratio as [[Hnan _] | (r & Hr & Hle & Hpos & Hzero)].
    { rewrite Hnan in Hgt. discriminate. }
    rewrite Hr in Hgt. split.
    + intros q Hq Hone. rewrite Hq in Hgt. apply gt_Finite in Hgt.
      rewrite Hone in Hgt. exfalso. apply (Qlt_not_le _ _ Hgt). exact Hle.
    + intros q Hq Hz. split; [intros _ | reflexivity].
      rewrite Hq in Hgt. apply gt_Finite in Hgt. rewrite Hz in Hgt.
      destruct (Z.eq_dec numDirty 0) as [H0 | H0]; [| lia].
      rewrite (Hzero H0) in Hgt. exfalso. apply (Qlt_irrefl _ Hgt).
  - split; [split; [discriminate | discriminate] |]. split; [auto |].
    split; [reflexivity |].
    intros q Hq Hz. split; [discriminate | intros Hdirty; exfalso].
    destruct Hratio as [[_ H0] | (r & Hr & _ & Hpos & _)]; [lia |].
    rewrite Hr, Hq in Hgt.
    assert (Htrue : Float64.gt (Float64.Finite r) (Float64.Finite q) = true).
    { apply gt_Finite. rewrite Hz. apply Hpos. exact Hdirty. }
    congruence.
Qed.
End ScanLoopProperties.

(** Four channels, two of them with an expired message, one worker, a
    threshold of 0.25: the first pass finds 2 of 4 dirty and is followed by a
    second at once, which finds none and is followed by a wait. *)
Lemma queueScanLoop_repeats_witness :
  4 < 2 ^ 63 /\
  (exists s1 s2,
     queueScanLoop_step demo_processInFlightQueue demo_processDeferredQueue demo_UniqRands
       1 (fun k => k) demo_options (At_loop 4) Tick_workTicker four_channels
       = Done (At_loop 4, s1) /\
     queueScanLoop_step demo_processInFlightQueue demo_processDeferredQueue demo_UniqRands
       1 (fun k => k) demo_options (At_loop 4) Tick_workTicker s1
       = Done (At_select, s2)) /\
  Float64.gt (Float64.div (Float64.of_int 2) (Float64.of_int 4))
    (QueueScanDirtyPercent demo_options) = true.
Proof.
  assert (Hnum : 4 < 2 ^ 63) by lia.
  split; [exact Hnum |].
  split.
  { exists (mkScanState 1 [In_loop] (channels four_channels) [] 0 1%nat).
    exists (mkScanState 1 [In_loop] (channels four_channels) [] 0 2%nat).
    split; vm_compute; reflexivity. }
  destruct (queueScanLoop_repeats demo_processInFlightQueue demo_processDeferredQueue
              demo_UniqRands 1%nat (fun k => k) demo_options 4 Tick_workTicker four_channels
              (At_loop 4)
              (mkScanState 1 [In_loop] (channels four_channels) [] 0 1%nat) Hnum)
    as (responses & Hdispatch & _ & Hiff & _).
  - vm_compute. reflexivity.
  - vm_compute in Hdispatch. injection Hdispatch as <-.
    apply (proj1 Hiff). reflexivity.
Defined.
(** ** More on the channel registry *)

(** Takes a topic apart, with names for its fields. *)
Ltac destruct_topic t :=
  destruct t as [t_count t_bytes t_name t_channels t_backend t_memory t_start t_exitChan
                 t_exitFlag t_ephemeral t_deleter t_paused].

Section RegistryProps.

Context {B : Type} `{BackendQueue B}.

Implicit Types (w : World B).

(** X1. [GetChannel] gets or creates: the channel it returns is the one
    [GetExistingChannel] finds afterwards, a second [GetChannel] of the same
    name returns it again and changes nothing, and no other name of the
    registry is touched. For a name already registered nothing changes at
    all; for a new name the channel is created for this topic, the creation
    is logged, and the pump is told unless the topic has shut down. *)
Theorem GetChannel_get_or_create c w :
  let ch := fst (GetChannel c w) in
  let w1 := snd (GetChannel c w) in
  GetExistingChannel c w1 = ((Some ch, None), w1) /\
  GetChannel c w1 = (ch, w1) /\
  (forall c', c' <> c -> channelMap (topic w1) !! c' = channelMap (topic w) !! c') /\
  (is_Some (channelMap (topic w) !! c) -> w1 = w) /\
  (channelMap (topic w) !! c = None ->
     ch = mkChannel (name (topic w)) c /\
     events w1 = events w ++
       [NewChannel (name (topic w)) c;
        Logf LOG_INFO ("TOPIC(" ++ name (topic w) ++ "): new channel(" ++ c ++ ")")] ++
       (if exitChan (topic w) then [] else [Send_channelUpdateChan])).
Proof.
  destruct w as [t ev b sp evs].
  unfold GetChannel, getOrCreateChannel, GetExistingChannel, notify_channelUpdate,
    bind, ret, get_topic, modify_topic, emit.
  cbn [topic errValue bp spawned events].
  destruct (channelMap t !! c) as [ch0 |] eqn:Hc.
  - cbn. rewrite Hc. cbn. split; [reflexivity |]. split; [reflexivity |].
    split; [reflexivity |]. split; [reflexivity |]. intros Hn; discriminate.
  - destruct_topic t; cbn in *. destruct t_exitChan; cbn.
    all: rewrite lookup_insert_eq; cbn.
    all: split; [reflexivity |]; split; [reflexivity |].
    all: split; [intros c' Hne; rewrite lookup_insert_ne; auto |].
    all: split; [intros [x Hx]; discriminate |].
    all: intros _; split; [reflexivity |].
    all: rewrite <- ?app_assoc; reflexivity.
Qed.

Lemma GetExistingChannel_run c w :
  GetExistingChannel c w =
    (match channelMap (topic w) !! c with
     | Some ch => (Some ch, None)
     | None => (None, Some "channel does not exist")
     end, w).
Proof.
  unfold GetExistingChannel, bind, ret, get_topic.
  destruct (channelMap (topic w) !! c); reflexivity.
Qed.

(** X2. After [DeleteExistingChannel] of a name, [GetExistingChannel] of
    that name fails with "channel does not exist" and every other name is
    found as before. Deleting a name that is not registered returns that
    error and changes nothing; deleting a registered one returns [nil],
    removes exactly that entry and calls the channel's [Delete]. *)
Theorem DeleteExistingChannel_then_lookup c w :
  let r := fst (DeleteExistingChannel c w) in
  let w1 := snd (DeleteExistingChannel c w) in
  GetExistingChannel c w1 = ((None, Some "channel does not exist"), w1) /\
  (forall c', c' <> c -> fst (GetExistingChannel c' w1) = fst (GetExistingChannel c' w)) /\
  (channelMap (topic w) !! c = None -> r = Some "channel does not exist" /\ w1 = w) /\
  (forall ch, channelMap (topic w) !! c = Some ch ->
     r = None /\
     channelMap (topic w1) = delete c (channelMap (topic w)) /\
     Channel_Delete (channel_name ch) ∈ events w1).
Proof.
  cbv zeta.
  assert (Hmap : channelMap (topic (snd (DeleteExistingChannel c w)))
                 = delete c (channelMap (topic w))).
  { destruct w as [t ev b sp evs].
    unfold DeleteExistingChannel, notify_channelUpdate, go_deleter_Do, bind, ret, get_topic,
      modify_topic, emit.
    cbn [topic errValue bp spawned events].
    destruct (channelMap t !! c) as [ch0 |] eqn:Hc.
    - destruct_topic t; cbn in *.
      destruct t_exitChan; cbn;
        destruct (Z.of_nat (size (delete c t_channels)) =? 0); cbn;
        destruct t_ephemeral; cbn; reflexivity.
    - cbn. symmetry. apply delete_id. exact Hc. }
  split.
  { rewrite GetExistingChannel_run, Hmap, lookup_delete_eq. reflexivity. }
  split.
  { intros c' Hne. rewrite !GetExistingChannel_run, Hmap, lookup_delete_ne by auto.
    reflexivity. }
  split.
  { intros Hc. rewrite (DeleteExistingChannel_missing c w Hc). auto. }
  intros ch Hc. split; [| split; [exact Hmap |]].
  - destruct w as [t ev b sp evs].
    unfold DeleteExistingChannel, notify_channelUpdate, go_deleter_Do, bind, ret, get_topic,
      modify_topic, emit.
    cbn [topic errValue bp spawned events] in *. rewrite Hc.
    destruct_topic t; cbn in *.
    destruct t_exitChan; cbn;
      destruct (Z.of_nat (size (delete c t_channels)) =? 0); cbn;
      destruct t_ephemeral; cbn; reflexivity.
  - destruct w as [t ev b sp evs].
    unfold DeleteExistingChannel, notify_channelUpdate, go_deleter_Do, bind, ret, get_topic,
      modify_topic, emit.
    cbn [topic errValue bp spawned events] in *. rewrite Hc.
    destruct_topic t; cbn in *.
    destruct t_exitChan; cbn;
      destruct (Z.of_nat (size (delete c t_channels)) =? 0); cbn;
      destruct t_ephemeral; cbn; set_solver.
Qed.

Lemma GetChannel_channelMap c w :
  channelMap (topic (snd (GetChannel c w))) =
    match channelMap (topic w) !! c with
    | Some _ => channelMap (topic w)
    | None => <[c := mkChannel (name (topic w)) c]> (channelMap (topic w))
    end.
Proof.
  destruct w as [t ev b sp evs].
  unfold GetChannel, getOrCreateChannel, notify_channelUpdate, bind, ret, get_topic,
    modify_topic, emit.
  cbn [topic errValue bp spawned events].
  destruct (channelMap t !! c) as [ch0 |] eqn:Hc; [reflexivity |].
  destruct_topic t; cbn in *. destruct t_exitChan; reflexivity.
Qed.

Lemma DeleteExistingChannel_channelMap c w :
  channelMap (topic (snd (DeleteExistingChannel c w))) = delete c (channelMap (topic w)) /\
  name (topic (snd (DeleteExistingChannel c w))) = name (topic w).
Proof.
  destruct w as [t ev b sp evs].
  unfold DeleteExistingChannel, notify_channelUpdate, go_deleter_Do, bind, ret, get_topic,
    modify_topic, emit.
  cbn [topic errValue bp spawned events].
  destruct (channelMap t !! c) as [ch0 |] eqn:Hc.
  - destruct_topic t; cbn in *.
    destruct t_exitChan; cbn;
      destruct (Z.of_nat (size (delete c t_channels)) =? 0); cbn;
      destruct t_ephemeral; cbn; auto.
  - cbn. split; [| reflexivity]. symmetry. apply delete_id. exact Hc.
Qed.

Lemma deleter_goroutine_channelMap w :
  channelMap (topic (snd (deleter_goroutine w))) = channelMap (topic w) /\
  name (topic (snd (deleter_goroutine w))) = name (topic w).
Proof.
  destruct w as [t ev b sp evs]. unfold deleter_goroutine. cbn.
  destruct sp; [auto |]. destruct t; cbn. auto.
Qed.

Lemma do_step_own_channels s w :
  own_channels w -> own_channels (do_step s w) /\ name (topic (do_step s w)) = name (topic w).
Proof.
  intros Hown. destruct s as [c | c |]; cbn [do_step].
  - split; [| apply GetChannel_name].
    intros k ch. rewrite GetChannel_name, GetChannel_channelMap.
    destruct (channelMap (topic w) !! c) eqn:Hc; [apply Hown |].
    destruct (decide (k = c)) as [-> | Hne].
    + rewrite lookup_insert_eq. congruence.
    + rewrite lookup_insert_ne by auto. apply Hown.
  - destruct (DeleteExistingChannel_channelMap c w) as [Hm Hn]. split; [| exact Hn].
    intros k ch. rewrite Hm, Hn. intros Hk. apply lookup_delete_Some in Hk. apply Hown, Hk.
  - destruct (deleter_goroutine_channelMap w) as [Hm Hn]. split; [| exact Hn].
    intros k ch. rewrite Hm, Hn. apply Hown.
Qed.

(** X3. From an empty registry, whatever calls of [GetChannel] and
    [DeleteExistingChannel] are made and whenever the deleter goroutine runs,
    every entry of [channelMap] is stored under the name of the channel it
    holds, and that channel belongs to this topic. *)
Theorem registry_holds_own_channels w0 steps :
  channelMap (topic w0) = ∅ ->
  let w := do_steps steps w0 in
  name (topic w) = name (topic w0) /\
  (forall k ch, channelMap (topic w) !! k = Some ch ->
     channel_name ch = k /\ channel_topicName ch = name (topic w0)) /\
  keyed_by_name (channelMap (topic w)).
Proof.
  intros Hempty. cbv zeta.
  assert (Hgen : forall steps w, own_channels w ->
            own_channels (do_steps steps w) /\ name (topic (do_steps steps w)) = name (topic w)).
  { clear Hempty. intros steps0. induction steps0 as [| s steps0 IH]; intros w Hown; [auto |].
    unfold do_steps. cbn [fold_left]. fold (do_steps steps0 (do_step s w)).
    destruct (do_step_own_channels s w Hown) as [Hown' Hn'].
    destruct (IH _ Hown') as [Hown'' Hn'']. split; [exact Hown'' | congruence]. }
  assert (Hown0 : own_channels w0).
  { intros k ch. rewrite Hempty, lookup_empty. discriminate. }
  destruct (Hgen steps w0 Hown0) as [Hown Hn].
  split; [exact Hn |]. split.
  - intros k ch Hk. rewrite (Hown k ch Hk). cbn. rewrite Hn. auto.
  - intros k ch Hk. rewrite (Hown k ch Hk). reflexivity.
Qed.

(** X4. A topic that is not ephemeral never asks for its own deletion:
    whatever calls of [GetChannel] and [DeleteExistingChannel] are made, also
    when the last channel goes, no [deleter.Do] goroutine is started and the
    deletion callback is not called. *)
Theorem durable_topic_keeps_deleter_idle w0 steps :
  ephemeral (topic w0) = false ->
  spawned w0 = O ->
  let w := do_steps steps w0 in
  firings w = firings w0 /\ callbacks w = callbacks w0 /\ spawned w = O /\
  deleter (topic w) = deleter (topic w0) /\ ephemeral (topic w) = false.
Proof.
  intros Heph Hsp. cbv zeta. revert w0 Heph Hsp.
  induction steps as [| s steps IH]; intros w0 Heph Hsp; [auto |].
  unfold do_steps. cbn [fold_left]. fold (do_steps steps (do_step s w0)).
  assert (Hv : view (do_step s w0) = view w0).
  { destruct s as [c | c |]; cbn [do_step].
    - apply GetChannel_view.
    - rewrite DeleteExistingChannel_view. case_bool_decide as Hd; [| reflexivity].
      destruct Hd as (_ & _ & He). congruence.
    - rewrite deleter_goroutine_view, Hsp. reflexivity. }
  unfold view in Hv. injection Hv as Hd Hs Hc Hf He.
  destruct (IH (do_step s w0)) as (H1 & H2 & H3 & H4 & H5); [congruence | congruence |].
  repeat split; congruence.
Qed.

End RegistryProps.

Lemma registry_holds_own_channels_witness :
  channelMap (topic ephemeral_world) = ∅ /\
  keyed_by_name (channelMap (topic (do_steps S6_twice ephemeral_world))).
Proof.
  assert (Hempty : channelMap (topic ephemeral_world) = ∅) by reflexivity.
  split; [exact Hempty |].
  exact (proj2 (proj2 (registry_holds_own_channels ephemeral_world S6_twice Hempty))).
Defined.

Lemma durable_topic_keeps_deleter_idle_witness :
  ephemeral (topic (disk_world 2 4)) = false /\
  spawned (disk_world 2 4) = O /\
  firings (do_steps [Call_GetChannel "archive"; Call_DeleteExistingChannel "archive";
                     Run_deleter_goroutine] (disk_world 2 4)) = firings (disk_world 2 4).
Proof.
  assert (Heph : ephemeral (topic (disk_world 2 4)) = false) by reflexivity.
  assert (Hsp : spawned (disk_world 2 4) = O) by reflexivity.
  split; [exact Heph |]. split; [exact Hsp |].
  exact (proj1 (durable_topic_keeps_deleter_idle (disk_world 2 4)
                  [Call_GetChannel "archive"; Call_DeleteExistingChannel "archive";
                   Run_deleter_goroutine] Heph Hsp)).
Defined.

(** ** More on the enqueue path, the depth and shutdown *)

Section EnqueueProps.

Context {B : Type} `{BackendQueue B}.

Implicit Types (w : World B) (m : Message).

Lemma put_each_split msgs : forall w w1,
  put_each msgs w = Some w1 ->
  let t := topic w in
  let t1 := topic w1 in
  buf (memoryMsgChan t1) = buf (memoryMsgChan t) ++ firstn (room_in_memory t) msgs /\
  cap (memoryMsgChan t1) = cap (memoryMsgChan t) /\
  backend t1 = written_in_order (skipn (room_in_memory t) msgs) (backend t).
Proof.
  induction msgs as [| m msgs IH]; intros w w1 Hput; cbv zeta.
  - cbn in Hput. injection Hput as <-. rewrite firstn_nil, skipn_nil, app_nil_r. auto.
  - cbn [put_each] in Hput.
    destruct (Z.ltb_spec (len (buf (memoryMsgChan (topic w)))) (cap (memoryMsgChan (topic w))))
      as [Hroom | Hfull].
    + rewrite (put_memory m w Hroom) in Hput. apply IH in Hput. cbv zeta in Hput.
      destruct Hput as (Hb & Hc & Hk).
      assert (Hr : room_in_memory (topic w) = S (room_in_memory (topic (queued_in_memory m w)))).
      { unfold room_in_memory, queued_in_memory. destruct w as [t ? ? ? ?]; destruct t; cbn in *.
        unfold len in *. rewrite length_app. cbn. lia. }
      rewrite Hr. cbn [firstn skipn]. rewrite Hb, Hc, Hk.
      unfold queued_in_memory. destruct w as [t ? ? ? ?]; destruct t; cbn.
      rewrite <- app_assoc. auto.
    + destruct (bq_Put (WriteTo m) (backend (topic w))) as [b' e] eqn:Hbq.
      rewrite (put_spill m w b' e Hfull Hbq) in Hput. destruct e; [discriminate |].
      apply IH in Hput. cbv zeta in Hput. destruct Hput as (Hb & Hc & Hk).
      assert (Hr : room_in_memory (topic w) = O) by (unfold room_in_memory; lia).
      assert (Hr' : room_in_memory (topic (spilled_to_backend m b' None w)) = O).
      { unfold room_in_memory, spilled_to_backend. destruct w as [t ? ? ? ?]; destruct t; cbn in *.
        lia. }
      rewrite Hr' in *. rewrite Hr. cbn [firstn skipn] in *. rewrite Hb, Hc, Hk.
      unfold written_in_order. cbn [fold_left]. rewrite Hbq.
      unfold spilled_to_backend. destruct w as [t ? ? ? ?]; destruct t; cbn. auto.
Qed.

Lemma PutMessages_range_ran msgs : forall i total w total' w1,
  PutMessages_range i total msgs w = (inr total', w1) -> put_each msgs w = Some w1.
Proof.
  induction msgs as [| m msgs IH]; intros i total w total' w1 Hrun.
  - cbn in Hrun. injection Hrun as _ <-. reflexivity.
  - cbn [PutMessages_range put_each] in *. unfold bind in Hrun.
    destruct (put m w) as [[e |] w'].
    + cbn in Hrun. discriminate.
    + eapply IH. exact Hrun.
Qed.

(** X5. A batch that [PutMessages] accepts whole goes to the memory queue
    as far as there is room and to the backend from there on, in the order of
    the batch: the memory queue gains the first messages, behind what it held,
    and the frames of the others are written to the backend one after the
    other. The memory queue never grows beyond its capacity. *)
Theorem PutMessages_memory_then_backend msgs w :
  exitFlag (topic w) <> 1 ->
  fst (PutMessages msgs w) = None ->
  let t := topic w in
  let t1 := topic (snd (PutMessages msgs w)) in
  buf (memoryMsgChan t1) = buf (memoryMsgChan t) ++ firstn (room_in_memory t) msgs /\
  cap (memoryMsgChan t1) = cap (memoryMsgChan t) /\
  backend t1 = written_in_order (skipn (room_in_memory t) msgs) (backend t) /\
  len (buf (memoryMsgChan t1)) <= Z.max (len (buf (memoryMsgChan t))) (cap (memoryMsgChan t)).
Proof.
  intros Hlive Hnil. cbv zeta.
  unfold PutMessages, bind, get_topic in *.
  apply Z.eqb_neq in Hlive. rewrite Hlive in *.
  destruct (PutMessages_range 0 0 msgs w) as [[e | total'] w1] eqn:Hrun; [discriminate |].
  apply PutMessages_range_ran in Hrun. apply put_each_split in Hrun. cbv zeta in Hrun.
  destruct Hrun as (Hb & Hc & Hk).
  destruct w1 as [t1 ? ? ? ?]; destruct t1; cbn in Hb, Hc, Hk |- *.
  split; [exact Hb |]. split; [exact Hc |]. split; [exact Hk |].
  rewrite Hb. unfold len. rewrite length_app, length_firstn. unfold room_in_memory, len. lia.
Qed.

(** X6. The health of the broker follows the last write to a backend.
    A [PutMessage] served by the memory queue returns [nil] and leaves
    [GetHealth] and [IsHealthy] as they were. One that has to write to the
    backend leaves [GetError] at what it returns: [GetHealth] is "OK" and
    [IsHealthy] true when the write succeeded, [GetHealth] is "NOK - " followed
    by the error otherwise, and then neither counter nor the memory queue has
    changed. *)
Theorem PutMessage_health m w :
  exitFlag (topic w) <> 1 ->
  let r := fst (PutMessage m w) in
  let w1 := snd (PutMessage m w) in
  (len (buf (memoryMsgChan (topic w))) < cap (memoryMsgChan (topic w)) ->
     r = None /\ fst (GetHealth w1) = fst (GetHealth w) /\ fst (IsHealthy w1) = fst (IsHealthy w)) /\
  (cap (memoryMsgChan (topic w)) <= len (buf (memoryMsgChan (topic w))) ->
     fst (GetError w1) = r /\
     fst (GetHealth w1) = match r with Some e => ("NOK - " ++ e)%string | None => "OK" end /\
     (fst (IsHealthy w1) = true <-> r = None) /\
     (r <> None ->
        messageCount (topic w1) = messageCount (topic w) /\
        messageBytes (topic w1) = messageBytes (topic w) /\
        memoryMsgChan (topic w1) = memoryMsgChan (topic w))).
Proof.
  intros Hlive. cbv zeta. rewrite PutMessage_unfold.
  apply Z.eqb_neq in Hlive. rewrite Hlive. split.
  - intros Hroom. rewrite (put_memory m w Hroom).
    destruct w as [t ? ? ? ?]; destruct t; cbn. auto.
  - intros Hfull. destruct (bq_Put (WriteTo m) (backend (topic w))) as [b' e] eqn:Hbq.
    rewrite (put_spill m w b' e Hfull Hbq).
    destruct w as [t ? ? ? ?]; destruct t; destruct e; cbn.
    + split; [reflexivity |]. split; [reflexivity |].
      split; [split; discriminate |]. intros _. auto.
    + split; [reflexivity |]. split; [reflexivity |].
      split; [split; reflexivity |]. intros Hn. congruence.
Qed.

End EnqueueProps.

Lemma PutMessages_memory_then_backend_witness :
  exitFlag (topic (disk_world 1 4)) <> 1 /\
  fst (PutMessages [msg_hi; msg_bye; msg_later] (disk_world 1 4)) = None /\
  buf (memoryMsgChan (topic (snd (PutMessages [msg_hi; msg_bye; msg_later] (disk_world 1 4)))))
    = [msg_hi] /\
  frames (backend (topic (snd (PutMessages [msg_hi; msg_bye; msg_later] (disk_world 1 4)))))
    = [WriteTo msg_bye; WriteTo msg_later].
Proof.
  assert (Hlive : exitFlag (topic (disk_world 1 4)) <> 1) by discriminate.
  assert (Hnil : fst (PutMessages [msg_hi; msg_bye; msg_later] (disk_world 1 4)) = None)
    by (vm_compute; reflexivity).
  split; [exact Hlive |]. split; [exact Hnil |].
  destruct (PutMessages_memory_then_backend [msg_hi; msg_bye; msg_later] (disk_world 1 4)
              Hlive Hnil) as (Hbuf & _ & Hbackend & _).
  split; [rewrite Hbuf | rewrite Hbackend]; vm_compute; reflexivity.
Defined.

Lemma PutMessage_health_witness :
  exitFlag (topic (disk_world 0 0)) <> 1 /\
  fst (GetHealth (snd (PutMessage msg_hi (disk_world 0 0)))) = "NOK - no space left on device".
Proof.
  assert (Hlive : exitFlag (topic (disk_world 0 0)) <> 1) by discriminate.
  split; [exact Hlive |].
  destruct (PutMessage_health msg_hi (disk_world 0 0) Hlive) as [_ Hfull].
  destruct Hfull as (_ & Hhealth & _); [vm_compute; discriminate |].
  rewrite Hhealth. vm_compute. reflexivity.
Defined.

Section DepthProps.

Context {B : Type} `{BackendQueue B}.

Implicit Types (w : World B) (m : Message).

Lemma int64_small z : - 2 ^ 63 <= z < 2 ^ 63 -> int64 z = z.
Proof. intros Hz. unfold int64. rewrite Z.mod_small by lia. lia. Qed.

(** X7. [Empty] drains the memory queue and empties the backend: it
    returns what the backend's [Empty] returns, and [Depth] afterwards is what
    the emptied backend reports. The message and byte counters are not reset. *)
Theorem Empty_leaves_backend_depth w :
  let w1 := snd (Empty w) in
  fst (Empty w) = snd (bq_Empty (backend (topic w))) /\
  buf (memoryMsgChan (topic w1)) = [] /\
  backend (topic w1) = fst (bq_Empty (backend (topic w))) /\
  fst (Depth w1) = int64 (bq_Depth (fst (bq_Empty (backend (topic w))))) /\
  messageCount (topic w1) = messageCount (topic w) /\
  messageBytes (topic w1) = messageBytes (topic w).
Proof.
  cbv zeta. rewrite Empty_run. destruct (bq_Empty (backend (topic w))) as [b e].
  unfold Depth. destruct w as [t ? ? ? ?]; destruct t; cbn. auto 10.
Qed.

(** X8. On a topic that is not exiting and has room in its memory queue,
    [PutMessage] returns [nil] and raises [Depth] by exactly one (for depths
    within [int64]). *)
Theorem PutMessage_raises_Depth m w :
  exitFlag (topic w) <> 1 ->
  len (buf (memoryMsgChan (topic w))) < cap (memoryMsgChan (topic w)) ->
  0 <= bq_Depth (backend (topic w)) ->
  len (buf (memoryMsgChan (topic w))) + bq_Depth (backend (topic w)) + 1 < 2 ^ 63 ->
  fst (PutMessage m w) = None /\
  fst (Depth (snd (PutMessage m w))) = fst (Depth w) + 1.
Proof.
  intros Hlive Hroom Hlo Hhi. rewrite PutMessage_unfold.
  apply Z.eqb_neq in Hlive. rewrite Hlive. rewrite (put_memory m w Hroom).
  split; [reflexivity |]. unfold Depth.
  destruct w as [t ? ? ? ?]; destruct_topic t; cbn in *.
  assert (Hlen : len (buf t_memory ++ [m]) = len (buf t_memory) + 1).
  { unfold len. rewrite length_app. cbn. lia. }
  rewrite Hlen.
  assert (0 <= len (buf t_memory)) by (unfold len; lia).
  rewrite (int64_small (len (buf t_memory) + 1)) by lia.
  rewrite (int64_small (len (buf t_memory))) by lia.
  rewrite !int64_small by lia. lia.
Qed.

(** X9. [Start] never blocks and is idempotent: with the one-slot
    [startChan] that [NewTopic] makes, the start signal is there after a
    [Start], a further [Start] changes nothing, and nothing but [startChan] is
    ever touched. *)
Theorem Start_is_idempotent w :
  cap (startChan (topic w)) = 1 ->
  let w1 := snd (Start w) in
  buf (startChan (topic w1)) <> [] /\
  len (buf (startChan (topic w1))) = Z.max 1 (len (buf (startChan (topic w)))) /\
  Start w1 = (tt, w1) /\
  set_startChan (startChan (topic w)) (topic w1) = topic w.
Proof.
  intros Hcap. cbv zeta. unfold Start, bind, get_topic, try_send, modify_topic.
  destruct w as [t ? ? ? ?]; destruct t as [? ? ? ? ? ? [sbuf scap] ? ? ? ? ?]; cbn in *. subst scap.
  destruct sbuf as [| x sbuf]; cbn.
  - split; [discriminate |]. split; [reflexivity |]. split; reflexivity.
  - assert (Hl : (len (x :: sbuf) <? 1) = false).
    { apply Z.ltb_ge. unfold len. cbn [length]. lia. }
    rewrite Hl. cbn. rewrite Hl. cbn. split; [discriminate |]. split; [| split; reflexivity].
    unfold len in *. cbn [length]. lia.
Qed.
End DepthProps.

Lemma PutMessage_raises_Depth_witness :
  exitFlag (topic (disk_world 2 4)) <> 1 /\
  fst (Depth (snd (PutMessage msg_hi (disk_world 2 4)))) = fst (Depth (disk_world 2 4)) + 1.
Proof.
  assert (Hlive : exitFlag (topic (disk_world 2 4)) <> 1) by discriminate.
  split; [exact Hlive |].
  apply (PutMessage_raises_Depth msg_hi (disk_world 2 4) Hlive); vm_compute; try reflexivity;
    discriminate.
Defined.

Lemma Start_is_idempotent_witness :
  cap (startChan (topic (disk_world 2 4))) = 1 /\
  Start (snd (Start (disk_world 2 4))) = (tt, snd (Start (disk_world 2 4))).
Proof.
  assert (Hcap : cap (startChan (topic (disk_world 2 4))) = 1) by reflexivity.
  split; [exact Hcap |].
  exact (proj1 (proj2 (proj2 (Start_is_idempotent (disk_world 2 4) Hcap)))).
Defined.

Section ShutdownProps.

Context {B : Type} `{BackendQueue B}.

Variable Channel_Close_result : Channel -> option error.

Implicit Types (w : World B) (m : Message).

Lemma flush_writes_backend pending : forall b : B,
  fst (flush_writes pending b) = written_in_order pending b.
Proof.
  induction pending as [| m pending IH]; intros b; [reflexivity |].
  rewrite flush_writes_cons. unfold written_in_order. cbn [fold_left].
  destruct (bq_Put (WriteTo m) b) as [b' e]. specialize (IH b').
  destruct (flush_writes pending b') as [b'' evs]. cbn in *. exact IH.
Qed.

Lemma flush_run w :
  flush w =
    (None,
     let pending := buf (memoryMsgChan (topic w)) in
     let (b, evs) := flush_writes pending (backend (topic w)) in
     with_events
       ((if 0 <? len pending
         then [Logf LOG_INFO
                 ("TOPIC(" ++ name (topic w) ++ "): flushing "
                  ++ pretty (len pending) ++ " memory messages to backend")]
         else []) ++ evs)
       (with_topic (fun t => set_backend b (emptied t)) w)).
Proof.
  unfold flush, bind, get_topic, ret.
  destruct (0 <? len (buf (memoryMsgChan (topic w)))) eqn:Hlen.
  - unfold emit. rewrite flush_loop_run by reflexivity. cbn [topic].
    destruct (flush_writes _ _) as [b evs]. unfold with_events, with_topic. cbn.
    rewrite <- app_assoc. reflexivity.
  - rewrite flush_loop_run by reflexivity.
    destruct (flush_writes _ _) as [b evs]. unfold with_events, with_topic. cbn. reflexivity.
Qed.

(** X10. [flush] always returns [nil]: it takes every message out of the
    memory queue and writes its frame to the backend, in queue order, and a
    write that fails is only logged. The health sentinel and the counters are
    left as they were. *)
Theorem flush_never_fails w :
  let w1 := snd (flush w) in
  fst (flush w) = None /\
  buf (memoryMsgChan (topic w1)) = [] /\
  cap (memoryMsgChan (topic w1)) = cap (memoryMsgChan (topic w)) /\
  backend (topic w1) = written_in_order (buf (memoryMsgChan (topic w))) (backend (topic w)) /\
  errValue w1 = errValue w /\
  messageCount (topic w1) = messageCount (topic w) /\
  messageBytes (topic w1) = messageBytes (topic w).
Proof.
  cbv zeta. rewrite flush_run. cbn [fst snd].
  rewrite <- flush_writes_backend.
  destruct (flush_writes _ _) as [b evs]. destruct w as [t ? ? ? ?]; destruct t; cbn. auto 10.
Qed.

(** X11. Once [Delete] or [Close] has been called on a topic, whatever
    that call returned, [Exiting] is true, [PutMessage] and [PutMessages]
    return "exiting" and change nothing, and so do further calls of [Delete]
    and [Close]. *)
Theorem closed_topic_refuses_messages deleted w :
  exitFlag (topic w) = 0 \/ exitFlag (topic w) = 1 ->
  let w' := snd (exit Channel_Close_result deleted w) in
  fst (Exiting w') = true /\
  (forall m, PutMessage m w' = (Some "exiting", w')) /\
  (forall msgs, PutMessages msgs w' = (Some "exiting", w')) /\
  exit Channel_Close_result true w' = (Some "exiting", w') /\
  exit Channel_Close_result false w' = (Some "exiting", w').
Proof.
  intros Hflag. cbv zeta.
  assert (Hset : exitFlag (topic (snd (exit Channel_Close_result deleted w))) = 1).
  { destruct Hflag as [H0 | H1].
    - destruct deleted.
      + rewrite exit_deleting by exact H0. cbv zeta.
        destruct (bq_Empty _) as [b1 e1]. destruct (bq_Delete _) as [b2 e2].
        destruct w as [t ? ? ? ?]; destruct t; reflexivity.
      + rewrite exit_closing by exact H0. cbv zeta.
        destruct (flush_writes _ _) as [b1 evs]. destruct (bq_Close _) as [b2 e2].
        destruct w as [t ? ? ? ?]; destruct t; reflexivity.
    - rewrite exit_refuses by lia. exact H1. }
  set (w' := snd (exit Channel_Close_result deleted w)) in *.
  split; [unfold Exiting, bind, get_topic, ret; cbn [fst]; rewrite Hset; reflexivity |].
  split; [intros m; rewrite PutMessage_unfold, Hset; reflexivity |].
  split; [intros msgs; apply PutMessages_exiting; exact Hset |].
  split; apply exit_refuses; lia.
Qed.
End ShutdownProps.

Lemma closed_topic_refuses_messages_witness :
  (exitFlag (topic two_channel_world) = 0 \/ exitFlag (topic two_channel_world) = 1) /\
  fst (Exiting (snd (Close (fun _ => None) two_channel_world))) = true /\
  PutMessage msg_bye (snd (Close (fun _ => None) two_channel_world))
    = (Some "exiting", snd (Close (fun _ => None) two_channel_world)).
Proof.
  assert (Hflag : exitFlag (topic two_channel_world) = 0 \/
                  exitFlag (topic two_channel_world) = 1) by (left; reflexivity).
  split; [exact Hflag |].
  destruct (closed_topic_refuses_messages (fun _ => None) false two_channel_world Hflag)
    as (Hexiting & Hput & _).
  split; [exact Hexiting | exact (Hput msg_bye)].
Defined.

(** ** The loop of the topic pump *)

Section PumpProps.

Context {B : Type} `{BackendQueue B}.

Variable decodeMessage : list byte -> Message + error.

Implicit Types (w : World B) (s : @System B) (p : Pump).

Abbreviation step := (messagePump_step decodeMessage).

Lemma doPause_in_step pause s :
  pump_in_step s ->
  exists s',
    doPause decodeMessage pause s = Done (None, s') /\
    fst (IsPaused (sys_world s')) = pause /\
    pump_in_step s' /\
    set_paused (paused (topic (sys_world s))) (topic (sys_world s')) = topic (sys_world s) /\
    chans (sys_pump s') = chans (sys_pump s) /\
    pump_at (sys_pump s') = pump_at (sys_pump s) /\
    (pause = true ->
       step Recv_memoryMsgChan (sys_world s') (sys_pump s') = None /\
       forall data, step (Recv_backendChan data) (sys_world s') (sys_pump s') = None) /\
    (pause = false -> pump_at (sys_pump s) = At_main_select ->
       pump_memoryMsgChan (sys_pump s') = negb (len (chans (sys_pump s)) =? 0) /\
       pump_backendChan (sys_pump s') = negb (len (chans (sys_pump s)) =? 0)).
Proof.
  intros (Hexit & Hinv).
  destruct s as [[t ev b sp evs] [at_ cs m bk]]. cbn in Hexit, Hinv.
  unfold doPause, send_to_pump, messagePump_step, IsPaused, pump_in_step.
  destruct_topic t; cbn in Hexit, Hinv |- *. subst t_exitChan. cbn.
  destruct at_; cbn.
  - destruct Hinv as (-> & -> & ->).
    eexists. split; [reflexivity |]. cbn.
    repeat split; auto; try (destruct pause; reflexivity); discriminate.
  - destruct Hinv as (Hcs & Hm & Hbk).
    eexists. split; [reflexivity |]. cbn.
    split; [destruct pause; reflexivity |].
    split; [split; [reflexivity | split; [exact Hcs | split; reflexivity]] |].
    split; [reflexivity |]. split; [reflexivity |]. split; [reflexivity |].
    split.
    + intros ->. cbn. rewrite orb_true_r. cbn. auto.
    + intros -> _. cbn. rewrite orb_false_r. auto.
  - destruct Hinv.
Qed.

Lemma quiet_refl w : quiet w w.
Proof. repeat split. exists []. rewrite app_nil_r. auto. Qed.

Lemma quiet_trans w1 w2 w3 : quiet w1 w2 -> quiet w2 w3 -> quiet w1 w3.
Proof.
  intros (Hc & He & Hp & new & Hev & Hf) (Hc' & He' & Hp' & new' & Hev' & Hf').
  repeat split; try congruence. exists (new ++ new'). split.
  - rewrite Hev', Hev, <- app_assoc. reflexivity.
  - rewrite List.filter_app, Hf, Hf'. reflexivity.
Qed.

Lemma quiet_put m w : quiet w (snd (put m w)).
Proof.
  destruct (Z.ltb_spec (len (buf (memoryMsgChan (topic w)))) (cap (memoryMsgChan (topic w))))
    as [Hroom | Hfull].
  - rewrite (put_memory m w Hroom). destruct w as [t ? ? ? ?]; destruct t.
    repeat split. exists []. cbn. rewrite app_nil_r. auto.
  - destruct (bq_Put (WriteTo m) (backend (topic w))) as [b' e] eqn:Hbq.
    rewrite (put_spill m w b' e Hfull Hbq). destruct w as [t ? ? ? ?]; destruct t.
    repeat split. destruct e; cbn.
    + eexists. split; [reflexivity |]. reflexivity.
    + exists []. rewrite app_nil_r. auto.
Qed.

Lemma quiet_counted dc db w : quiet w (counted dc db w).
Proof.
  destruct w as [t ? ? ? ?]; destruct t. repeat split. exists []. cbn.
  rewrite app_nil_r. auto.
Qed.

Lemma quiet_PutMessage m w : quiet w (snd (PutMessage m w)).
Proof.
  rewrite PutMessage_unfold. destruct (exitFlag (topic w) =? 1); [apply quiet_refl |].
  pose proof (quiet_put m w) as Hq. destruct (put m w) as [[e |] w1]; cbn in *; [exact Hq |].
  eapply quiet_trans; [exact Hq | apply quiet_counted].
Qed.

Lemma quiet_PutMessages_range msgs : forall i total w,
  quiet w (snd (PutMessages_range i total msgs w)).
Proof.
  induction msgs as [| m msgs IH]; intros i total w; [apply quiet_refl |].
  cbn [PutMessages_range]. unfold bind.
  pose proof (quiet_put m w) as Hq. destruct (put m w) as [[e |] w1]; cbn [snd] in Hq.
  - eapply quiet_trans; [exact Hq |].
    destruct w1 as [t ? ? ? ?]; destruct t. repeat split. exists []. cbn.
    rewrite app_nil_r. auto.
  - eapply quiet_trans; [exact Hq | apply IH].
Qed.

Lemma quiet_PutMessages msgs w : quiet w (snd (PutMessages msgs w)).
Proof.
  unfold PutMessages, bind, get_topic.
  destruct (exitFlag (topic w) =? 1); [apply quiet_refl |].
  pose proof (quiet_PutMessages_range msgs 0 0 w) as Hq.
  destruct (PutMessages_range 0 0 msgs w) as [[e | total] w1]; cbn [snd] in Hq; [exact Hq |].
  eapply quiet_trans; [exact Hq |].
  destruct w1 as [t ? ? ? ?]; destruct t. repeat split. exists []. cbn.
  rewrite app_nil_r. auto.
Qed.

Lemma quiet_Start w : quiet w (snd (Start w)).
Proof.
  unfold Start, bind, get_topic, modify_topic.
  destruct (try_send (startChan (topic w)) 1); [| apply quiet_refl].
  destruct w as [t ? ? ? ?]; destruct t. repeat split. exists []. cbn.
  rewrite app_nil_r. auto.
Qed.

Lemma beside_pump_quiet {A} (method : M B A) s :
  pump_in_step s ->
  quiet (sys_world s) (snd (method (sys_world s))) ->
  beside_pump decodeMessage method s
    = Done (fst (method (sys_world s)), mkSystem (snd (method (sys_world s))) (sys_pump s)) /\
  pump_in_step (mkSystem (snd (method (sys_world s))) (sys_pump s)).
Proof.
  intros (Hexit & Hinv) (Hc & He & Hp & new & Hev & Hf).
  unfold beside_pump. destruct (method (sys_world s)) as [a w1]. cbn [fst snd] in *.
  rewrite Hev, drop_app_length, Hf. cbn. split; [reflexivity |].
  unfold pump_in_step. cbn. rewrite He, Hc, Hp. auto.
Qed.

Lemma beside_pump_signalled {A} (method : M B A) s :
  pump_in_step s ->
  signalled (sys_world s) (snd (method (sys_world s))) ->
  exists p',
    beside_pump decodeMessage method s
      = Done (fst (method (sys_world s)), mkSystem (snd (method (sys_world s))) p') /\
    pump_in_step (mkSystem (snd (method (sys_world s))) p') /\
    pump_at p' = pump_at (sys_pump s).
Proof.
  intros (Hexit & Hinv) (He & Hp & new & Hev & Hf).
  unfold beside_pump. destruct (method (sys_world s)) as [a w1]. cbn [fst snd] in *.
  rewrite Hev, drop_app_length, Hf. cbn [sends_to_pump]. unfold send_to_pump.
  cbn [sys_world sys_pump]. unfold messagePump_step.
  destruct (pump_at (sys_pump s)) eqn:Hat.
  - eexists. split; [reflexivity |]. split; [| exact Hat].
    unfold pump_in_step. cbn. rewrite He, Hat. auto.
  - eexists. split; [reflexivity |]. split; [| reflexivity].
    unfold pump_in_step. cbn. rewrite He.
    split; [exact Hexit |]. unfold range_channelMap. cbn. auto.
  - destruct Hinv.
Qed.

Lemma GetChannel_effect c w :
  exitChan (topic w) = false ->
  quiet w (snd (GetChannel c w)) \/ signalled w (snd (GetChannel c w)).
Proof.
  intros Hexit. destruct w as [t ev b sp evs].
  unfold GetChannel, getOrCreateChannel, notify_channelUpdate, bind, ret, get_topic,
    modify_topic, emit.
  cbn [topic errValue bp spawned events] in *.
  destruct (channelMap t !! c) as [ch0 |] eqn:Hc.
  - left. apply quiet_refl.
  - right. destruct_topic t; cbn in *. subst t_exitChan. cbn.
    repeat split. eexists. split; [rewrite <- !app_assoc; reflexivity |]. reflexivity.
Qed.

Lemma DeleteExistingChannel_effect c w :
  exitChan (topic w) = false ->
  quiet w (snd (DeleteExistingChannel c w)) \/ signalled w (snd (DeleteExistingChannel c w)).
Proof.
  intros Hexit. destruct w as [t ev b sp evs].
  unfold DeleteExistingChannel, notify_channelUpdate, go_deleter_Do, bind, ret, get_topic,
    modify_topic, emit.
  cbn [topic errValue bp spawned events] in *.
  destruct (channelMap t !! c) as [ch0 |] eqn:Hc.
  - right. destruct_topic t; cbn in *. subst t_exitChan. cbn.
    destruct (Z.of_nat (size (delete c t_channels)) =? 0); cbn; destruct t_ephemeral; cbn.
    all: repeat split; eexists; (split; [rewrite <- !app_assoc; reflexivity |]); reflexivity.
  - left. apply quiet_refl.
Qed.

Lemma run_op_in_step op s :
  pump_in_step s -> exists s', run_op decodeMessage op s = Done s' /\ pump_in_step s'.
Proof.
  intros Hinv. destruct op as [c | c | m | msgs | | | | r]; cbn [run_op].
  - destruct (GetChannel_effect c (sys_world s) (proj1 Hinv)) as [Hq | Hs].
    + destruct (beside_pump_quiet (GetChannel c) s Hinv Hq) as [-> Hi]. cbn. eauto.
    + destruct (beside_pump_signalled (GetChannel c) s Hinv Hs) as (p' & -> & Hi & _). cbn. eauto.
  - destruct (DeleteExistingChannel_effect c (sys_world s) (proj1 Hinv)) as [Hq | Hs].
    + destruct (beside_pump_quiet (DeleteExistingChannel c) s Hinv Hq) as [-> Hi]. cbn. eauto.
    + destruct (beside_pump_signalled (DeleteExistingChannel c) s Hinv Hs) as (p' & -> & Hi & _).
      cbn. eauto.
  - destruct (beside_pump_quiet (PutMessage m) s Hinv (quiet_PutMessage m _)) as [-> Hi].
    cbn. eauto.
  - destruct (beside_pump_quiet (PutMessages msgs) s Hinv (quiet_PutMessages msgs _)) as [-> Hi].
    cbn. eauto.
  - destruct (beside_pump_quiet Start s Hinv (quiet_Start _)) as [-> Hi]. cbn. eauto.
  - destruct (doPause_in_step true s Hinv) as (s' & Hrun & _ & Hi & _).
    unfold Pause. rewrite Hrun. cbn. eauto.
  - destruct (doPause_in_step false s Hinv) as (s' & Hrun & _ & Hi & _).
    unfold UnPause. rewrite Hrun. cbn. eauto.
  - destruct Hinv as (Hexit & Hinv).
    destruct s as [[t ev b sp evs] [at_ cs mm bk]]. cbn in Hexit, Hinv.
    destruct r; cbn [run_op]; try (eexists; split; [reflexivity | split; assumption]).
    all: unfold messagePump_step; cbn [sys_world sys_pump pump_at topic]; rewrite ?Hexit.
    all: destruct at_; try (eexists; split; [reflexivity | split; assumption]).
    + destruct mm; [| eexists; split; [reflexivity | split; assumption]].
      destruct (try_recv (memoryMsgChan t)) as [[msg c] |];
        [| eexists; split; [reflexivity | split; assumption]].
      eexists; split; [reflexivity |]. unfold pump_in_step. destruct t; cbn in *. auto.
    + destruct bk; [| eexists; split; [reflexivity | split; assumption]].
      destruct (decodeMessage data) as [msg | e];
        (eexists; split; [reflexivity |]); unfold pump_in_step; destruct t; cbn in *; auto.
    + destruct (try_recv (startChan t)) as [[x c] |];
        [| eexists; split; [reflexivity | split; assumption]].
      eexists; split; [reflexivity |]. unfold pump_in_step.
      destruct Hinv as (-> & -> & ->). destruct_topic t; cbn in *.
      split; [exact Hexit |]. unfold range_channelMap. cbn.
      split; [reflexivity |].
      destruct (0 <? len (map_to_list t_channels).*2) eqn:Hl; destruct (t_paused =? 1); cbn.
      all: try (apply Z.ltb_lt in Hl); try (apply Z.ltb_ge in Hl).
      all: destruct (Z.eqb_spec (len (map_to_list t_channels).*2) 0) as [Hz | Hz]; cbn; auto.
      all: try lia.
      all: unfold len in *; lia.
Qed.

(** X12. On a topic that has not shut down, [Pause] and [UnPause] store
    the flag that [IsPaused] reads and return [nil] once the pump has taken
    the signal; nothing else of the topic changes, and the pump keeps its
    channels. After [Pause] the pump takes no message from the memory queue
    or the backend; after [UnPause] a pump in its main loop reads them again
    exactly when it has a channel. *)
Theorem doPause_sets_the_pump pause s :
  pump_in_step s ->
  exists s',
    doPause decodeMessage pause s = Done (None, s') /\
    fst (IsPaused (sys_world s')) = pause /\
    pump_in_step s' /\
    set_paused (paused (topic (sys_world s))) (topic (sys_world s')) = topic (sys_world s) /\
    chans (sys_pump s') = chans (sys_pump s) /\
    pump_at (sys_pump s') = pump_at (sys_pump s) /\
    (pause = true ->
       step Recv_memoryMsgChan (sys_world s') (sys_pump s') = None /\
       forall data, step (Recv_backendChan data) (sys_world s') (sys_pump s') = None) /\
    (pause = false -> pump_at (sys_pump s) = At_main_select ->
       pump_memoryMsgChan (sys_pump s') = negb (len (chans (sys_pump s)) =? 0) /\
       pump_backendChan (sys_pump s') = negb (len (chans (sys_pump s)) =? 0)).
Proof. apply doPause_in_step. Qed.

(** X13. On a topic that has not shut down, whatever is called on it
    ([GetChannel], [DeleteExistingChannel], [PutMessage], [PutMessages],
    [Start], [Pause], [UnPause]) and whatever the pump receives in between,
    no call blocks and the pump stays in step with the topic. So the pump
    takes a message from the memory queue only in its main loop, with at
    least one channel registered and the topic not paused, and the message
    it takes is the oldest; before [Start], with no channel, or while
    paused, it takes nothing from the memory queue or the backend. *)
Theorem pump_follows_the_registry ops : forall s0,
  pump_in_step s0 ->
  exists s,
    run_ops decodeMessage ops s0 = Done s /\
    pump_in_step s /\
    (forall m w' p',
       step Recv_memoryMsgChan (sys_world s) (sys_pump s) = Some (Some m, w', p') ->
       pump_at (sys_pump s) = At_main_select /\
       channelMap (topic (sys_world s)) <> ∅ /\
       paused (topic (sys_world s)) <> 1 /\
       buf (memoryMsgChan (topic (sys_world s))) = m :: buf (memoryMsgChan (topic w'))) /\
    (pump_at (sys_pump s) = At_start_select \/ channelMap (topic (sys_world s)) = ∅ \/
     paused (topic (sys_world s)) = 1 ->
       step Recv_memoryMsgChan (sys_world s) (sys_pump s) = None /\
       forall data, step (Recv_backendChan data) (sys_world s) (sys_pump s) = None).
Proof.
  induction ops as [| op ops IH]; intros s0 Hinv.
  - exists s0. split; [reflexivity |]. split; [exact Hinv |].
    destruct Hinv as (Hexit & Hinv).
    destruct s0 as [[t ev b sp evs] [at_ cs mm bk]]. cbn in Hexit, Hinv |- *.
    unfold messagePump_step. cbn [pump_at topic pump_memoryMsgChan pump_backendChan].
    split.
    + intros m w' p' Hstep. destruct at_; try discriminate.
      destruct Hinv as (Hcs & Hm & Hbk). destruct mm; [| discriminate].
      destruct (try_recv (memoryMsgChan t)) as [[msg c] |] eqn:Hrecv; [| discriminate].
      injection Hstep as -> <- <-.
      symmetry in Hm. apply negb_true_iff, orb_false_iff in Hm. destruct Hm as [Hlen Hp].
      split; [reflexivity |]. split.
      { intros Hempty. rewrite Hcs, Hempty, map_to_list_empty in Hlen. discriminate. }
      split; [apply Z.eqb_neq; exact Hp |].
      unfold try_recv in Hrecv. destruct (buf (memoryMsgChan t)) as [| x rest]; [discriminate |].
      injection Hrecv as -> <-. destruct t; reflexivity.
    + intros Hwhy. destruct at_; [auto | | destruct Hinv].
      destruct Hinv as (Hcs & Hm & Hbk). cbn in Hcs, Hm, Hbk.
      assert (Hoff : mm = false).
      { rewrite Hm. apply negb_false_iff, orb_true_iff.
        destruct Hwhy as [Hw | [Hw | Hw]]; [discriminate | left | right].
        - rewrite Hcs, Hw, map_to_list_empty. reflexivity.
        - apply Z.eqb_eq. exact Hw. }
      rewrite Hbk, Hoff. auto.
  - destruct (run_op_in_step op s0 Hinv) as (s1 & Hrun & Hinv1).
    destruct (IH s1 Hinv1) as (s & Hruns & Hrest).
    exists s. cbn [run_ops]. rewrite Hrun. auto.
Qed.


Lemma put_each_fits msgs : forall w,
  len (buf (memoryMsgChan (topic w))) + len msgs <= cap (memoryMsgChan (topic w)) ->
  exists w1, put_each msgs w = Some w1.
Proof.
  induction msgs as [| m msgs IH]; intros w Hfit; [eexists; reflexivity |].
  cbn [put_each]. unfold len in Hfit. cbn [length] in Hfit.
  rewrite put_memory by (unfold len; lia).
  apply IH. unfold queued_in_memory. destruct w as [t ? ? ? ?]; destruct t; cbn in *.
  unfold len. rewrite length_app. cbn. lia.
Qed.

Lemma step_memory w p m pending :
  pump_at p = At_main_select ->
  pump_memoryMsgChan p = true ->
  buf (memoryMsgChan (topic w)) = m :: pending ->
  step Recv_memoryMsgChan w p =
    Some (Some m,
          mkWorld (set_memoryMsgChan (mkChan pending (cap (memoryMsgChan (topic w)))) (topic w))
            (errValue w) (bp w) (spawned w) (events w),
          p).
Proof.
  intros Hat Hon Hbuf. unfold messagePump_step, try_recv. rewrite Hat, Hon, Hbuf. reflexivity.
Qed.

Lemma pump_memory_drains p : forall pending w,
  pump_at p = At_main_select ->
  pump_memoryMsgChan p = true ->
  buf (memoryMsgChan (topic w)) = pending ->
  fst (pump_memory decodeMessage (length pending) w p) = pending /\
  buf (memoryMsgChan (topic (snd (pump_memory decodeMessage (length pending) w p)))) = [] /\
  step Recv_memoryMsgChan (snd (pump_memory decodeMessage (length pending) w p)) p = None.
Proof.
  intros pending. induction pending as [| m pending IH]; intros w Hat Hon Hbuf.
  - cbn. unfold messagePump_step, try_recv. rewrite Hat, Hon, Hbuf. auto.
  - cbn [length pump_memory]. rewrite (step_memory w p m pending Hat Hon Hbuf).
    set (w' := mkWorld _ _ _ _ _).
    destruct (IH w' Hat Hon) as (Hf & Hb & Hs).
    { subst w'. destruct w as [t ? ? ? ?]; destruct t; reflexivity. }
    destruct (pump_memory decodeMessage (length pending) w' p) as [msgs w''] eqn:Hpm.
    cbn [fst snd] in *. rewrite Hf. auto.
Qed.

(** X14. Messages leave the topic in the order they entered it: when a
    batch fits in the memory queue, [PutMessages] accepts it without touching
    the backend, and a reading pump then takes what the queue held before
    followed by the batch, in order, after which the queue is empty and the
    pump finds nothing more. *)
Theorem pump_delivers_in_order msgs w p :
  exitFlag (topic w) <> 1 ->
  len (buf (memoryMsgChan (topic w))) + len msgs <= cap (memoryMsgChan (topic w)) ->
  pump_at p = At_main_select ->
  pump_memoryMsgChan p = true ->
  let pending := buf (memoryMsgChan (topic w)) ++ msgs in
  let w1 := snd (PutMessages msgs w) in
  let r := pump_memory decodeMessage (length pending) w1 p in
  fst (PutMessages msgs w) = None /\
  backend (topic w1) = backend (topic w) /\
  fst r = pending /\
  buf (memoryMsgChan (topic (snd r))) = [] /\
  step Recv_memoryMsgChan (snd r) p = None.
Proof.
  intros Hlive Hfit Hat Hon. cbv zeta.
  destruct (put_each_fits msgs w Hfit) as (w1 & Hput).
  destruct (PutMessages_range_succeeds msgs 0 0 w w1 Hput) as (total' & _ & Hrun).
  pose proof (put_each_split msgs w w1 Hput) as Hsplit. cbv zeta in Hsplit.
  destruct Hsplit as (Hb & Hc & Hk).
  assert (Hroom : (length msgs <= room_in_memory (topic w))%nat).
  { unfold room_in_memory, len in *. lia. }
  rewrite firstn_all2 in Hb by exact Hroom.
  rewrite skipn_all2 in Hk by exact Hroom. cbn in Hk.
  unfold PutMessages, bind, get_topic.
  apply Z.eqb_neq in Hlive. rewrite Hlive, Hrun.
  set (w2 := snd _).
  assert (Hb2 : buf (memoryMsgChan (topic w2)) = buf (memoryMsgChan (topic w)) ++ msgs).
  { subst w2. rewrite <- Hb. destruct w1 as [t1 ? ? ? ?]; destruct t1; reflexivity. }
  assert (Hk2 : backend (topic w2) = backend (topic w)).
  { subst w2. rewrite <- Hk. destruct w1 as [t1 ? ? ? ?]; destruct t1; reflexivity. }
  split; [destruct w1 as [t1 ? ? ? ?]; destruct t1; reflexivity |].
  split; [exact Hk2 |].
  rewrite <- Hb2. apply pump_memory_drains; auto.
Qed.

End PumpProps.

Lemma waiting_system_in_step : pump_in_step waiting_system.
Proof. split; [reflexivity |]. cbn. auto. Qed.

Lemma doPause_sets_the_pump_witness :
  pump_in_step waiting_system /\
  exists s',
    Pause demo_decodeMessage waiting_system = Done (None, s') /\
    fst (IsPaused (sys_world s')) = true.
Proof.
  split; [exact waiting_system_in_step |].
  destruct (doPause_sets_the_pump demo_decodeMessage true waiting_system waiting_system_in_step)
    as (s' & Hrun & Hpaused & _).
  exists s'. split; [exact Hrun | exact Hpaused].
Defined.

Lemma pump_follows_the_registry_witness :
  pump_in_step waiting_system /\
  exists s,
    run_ops demo_decodeMessage demo_ops waiting_system = Done s /\
    pump_in_step s.
Proof.
  split; [exact waiting_system_in_step |].
  destruct (pump_follows_the_registry demo_decodeMessage demo_ops waiting_system
              waiting_system_in_step) as (s & Hrun & Hinv & _).
  exists s. split; [exact Hrun | exact Hinv].
Defined.

Lemma pump_delivers_in_order_witness :
  exitFlag (topic two_channel_world) <> 1 /\
  fst (pump_memory demo_decodeMessage 2
         (snd (PutMessages [msg_bye] two_channel_world)) reading_pump) = [msg_hi; msg_bye].
Proof.
  assert (Hlive : exitFlag (topic two_channel_world) <> 1) by discriminate.
  split; [exact Hlive |].
  destruct (pump_delivers_in_order demo_decodeMessage [msg_bye] two_channel_world reading_pump
              Hlive) as (_ & _ & Hmsgs & _);
    [vm_compute; discriminate | reflexivity | reflexivity |].
  exact Hmsgs.
Defined.

(** ** More on the topic registry of the broker *)

Section SuffixProps.

Lemma substring_append_skip p : forall k s,
  substring (String.length p) k (p ++ s) = substring 0 k s.
Proof. induction p as [| a p IH]; intros k s; [reflexivity | simpl; apply IH]. Qed.

Lemma substring_all s : substring 0 (String.length s) s = s.
Proof. induction s as [| a s IH]; [reflexivity | simpl; f_equal; exact IH]. Qed.

Lemma string_length_append p s :
  String.length (p ++ s) = (String.length p + String.length s)%nat.
Proof. induction p as [| a p IH]; [reflexivity | simpl; f_equal; exact IH]. Qed.

Lemma substring_split s : forall i k,
  (i + k = String.length s)%nat -> s = (substring 0 i s ++ substring i k s)%string.
Proof.
  induction s as [| a s IH]; intros i k Hlen.
  - cbn in Hlen. assert (i = O) by lia. assert (k = O) by lia. subst. reflexivity.
  - destruct i as [| i].
    + rewrite Nat.add_0_l in Hlen. subst k.
      change (substring 0 0 (String a s)) with EmptyString.
      rewrite substring_all. reflexivity.
    + simpl in Hlen. simpl.
      change (String a s = String a (substring 0 i s ++ substring i k s)%string).
      f_equal. apply IH. lia.
Qed.

(** [HasSuffix] holds exactly of the strings that end with the suffix. *)
Lemma HasSuffix_spec s suffix :
  HasSuffix s suffix = true <-> exists prefix, s = (prefix ++ suffix)%string.
Proof.
  unfold HasSuffix. split.
  - intros Hs. apply andb_true_iff in Hs. destruct Hs as [Hle Heq].
    apply Nat.leb_le in Hle. apply String.eqb_eq in Heq.
    exists (substring 0 (String.length s - String.length suffix) s).
    transitivity (substring 0 (String.length s - String.length suffix) s
                  ++ substring (String.length s - String.length suffix)
                       (String.length suffix) s)%string.
    + apply substring_split. lia.
    + f_equal. exact Heq.
  - intros (prefix & ->). rewrite string_length_append.
    apply andb_true_iff. split; [apply Nat.leb_le; lia |].
    apply String.eqb_eq.
    replace (String.length prefix + String.length suffix - String.length suffix)%nat
      with (String.length prefix) by lia.
    rewrite substring_append_skip. apply substring_all.
Qed.

End SuffixProps.

Section NSQDRegistryProps.

Context {D : Type} `{BackendQueue D}.

Variable Channel_Close_result : Channel -> option error.

Implicit Types (n : @NSQD D).

Abbreviation DeleteExistingTopic' := (DeleteExistingTopic Channel_Close_result).

Lemma on_topic_topicMap {A} t (method : M (dummyBackendQueue + D) A) n :
  topicMap (on_topic t method n) = topicMap n.
Proof. unfold on_topic. destruct (topics n !! t); reflexivity. Qed.

Lemma on_topic_lookup {A} t (method : M (dummyBackendQueue + D) A) n obj :
  topics n !! t = Some obj ->
  topics (on_topic t method n) !! t =
    Some (topic (snd (method (mkWorld obj (nsqd_errValue n) (nsqd_bp n) (nsqd_spawned n)
                                (nsqd_events n))))) /\
  nsqd_events (on_topic t method n) =
    events (snd (method (mkWorld obj (nsqd_errValue n) (nsqd_bp n) (nsqd_spawned n)
                           (nsqd_events n)))) /\
  forall u, u <> t -> topics (on_topic t method n) !! u = topics n !! u.
Proof.
  intros Hobj. unfold on_topic. rewrite Hobj. cbn. rewrite lookup_insert_eq.
  split; [reflexivity |]. split; [reflexivity |].
  intros u Hne. rewrite lookup_insert_ne by auto. reflexivity.
Qed.

Lemma DeleteExistingTopic_run topicName n :
  DeleteExistingTopic' topicName n =
    match topicMap n !! topicName with
    | None => (Some "topic does not exist", n)
    | Some t =>
        let n1 := on_topic t (Delete Channel_Close_result) n in
        (None,
         mkNSQD (delete topicName (topicMap n)) (isLoading n1) (opts n1) (topics n1)
           (nsqd_errValue n1) (nsqd_bp n1) (nsqd_spawned n1) (nsqd_events n1))
    end.
Proof.
  unfold DeleteExistingTopic. cbn [DeleteExistingTopic_step].
  destruct (topicMap n !! topicName) as [t |]; [| reflexivity].
  cbn. rewrite on_topic_topicMap. reflexivity.
Qed.

(** X15. [DeleteExistingTopic] of a name that is not registered returns
    "topic does not exist" and changes nothing. Of a registered name it
    returns [nil] and removes exactly that entry: [GetExistingTopic] finds the
    topic before and fails afterwards, a second [DeleteExistingTopic] fails,
    and every other name is found as before. The topic itself has been
    deleted: its exit flag is set, [exitChan] is closed, its memory queue is
    empty and lookupd was notified. *)
Theorem DeleteExistingTopic_removes topicName n :
  (topicMap n !! topicName = None ->
     DeleteExistingTopic' topicName n = (Some "topic does not exist", n) /\
     GetExistingTopic topicName n = (None, Some "topic does not exist")) /\
  (forall t, topicMap n !! topicName = Some t ->
     let r := DeleteExistingTopic' topicName n in
     GetExistingTopic topicName n = (Some t, None) /\
     fst r = None /\
     topicMap (snd r) = delete topicName (topicMap n) /\
     GetExistingTopic topicName (snd r) = (None, Some "topic does not exist") /\
     DeleteExistingTopic' topicName (snd r) = (Some "topic does not exist", snd r) /\
     (forall other, other <> topicName ->
        GetExistingTopic other (snd r) = GetExistingTopic other n) /\
     (forall obj, topics n !! t = Some obj -> exitFlag obj = 0 ->
        exists obj',
          topics (snd r) !! t = Some obj' /\
          exitFlag obj' = 1 /\
          exitChan obj' = true /\
          buf (memoryMsgChan obj') = [] /\
          Notify (name obj) ∈ nsqd_events (snd r))).
Proof.
  split.
  - intros Hnone. rewrite DeleteExistingTopic_run. unfold GetExistingTopic. rewrite Hnone. auto.
  - intros t Ht. cbv zeta. rewrite DeleteExistingTopic_run. unfold GetExistingTopic.
    rewrite Ht. cbn [fst snd topicMap].
    split; [reflexivity |]. split; [reflexivity |]. split; [reflexivity |].
    rewrite lookup_delete_eq. split; [reflexivity |].
    split.
    { rewrite DeleteExistingTopic_run. cbn [topicMap]. rewrite lookup_delete_eq. reflexivity. }
    split.
    { intros other Hne. rewrite lookup_delete_ne by auto. reflexivity. }
    intros obj Hobj Hflag.
    destruct (on_topic_lookup t (Delete Channel_Close_result) n obj Hobj) as (Hl & Hev & _).
    cbn [topics nsqd_events]. rewrite Hl, Hev.
    eexists. split; [reflexivity |].
    unfold Delete. rewrite exit_deleting by exact Hflag. cbv zeta. cbn [topic backend].
    destruct (bq_Empty (backend obj)) as [b1 e1]. destruct (bq_Delete b1) as [b2 e2].
    destruct obj; cbn. repeat split. set_solver.
Qed.

End NSQDRegistryProps.

Section GetTopicProps.

Context {D : Type} `{BackendQueue D}.

Variable diskqueue_New : string -> D.
Variable lookupdHTTPAddrs : list string.
Variable GetLookupdTopicChannels : string -> list string -> list string * option error.

Implicit Types (n : @NSQD D).

Abbreviation GetTopic' := (GetTopic diskqueue_New lookupdHTTPAddrs GetLookupdTopicChannels).

Lemma same_queue_refl {B} (t : Topic B) : same_queue t t.
Proof. repeat split. Qed.

Lemma same_queue_trans {B} (t1 t2 t3 : Topic B) :
  same_queue t1 t2 -> same_queue t2 t3 -> same_queue t1 t3.
Proof. unfold same_queue. intros. repeat split; intuition congruence. Qed.

Lemma GetChannel_same_queue {B} `{BackendQueue B} c (w : World B) :
  same_queue (topic w) (topic (snd (GetChannel c w))) /\
  startChan (topic (snd (GetChannel c w))) = startChan (topic w).
Proof.
  destruct w as [t ev b sp evs].
  unfold GetChannel, getOrCreateChannel, notify_channelUpdate, bind, ret, get_topic,
    modify_topic, emit.
  cbn [topic errValue bp spawned events].
  destruct (channelMap t !! c) as [ch0 |] eqn:Hc.
  - split; [apply same_queue_refl | reflexivity].
  - destruct_topic t; cbn in *. destruct t_exitChan; cbn; repeat split.
Qed.

Lemma Start_same_queue {B} `{BackendQueue B} (w : World B) :
  same_queue (topic w) (topic (snd (Start w))) /\
  channelMap (topic (snd (Start w))) = channelMap (topic w) /\
  startChan (topic (snd (Start w))) =
    match try_send (startChan (topic w)) 1 with
    | Some c => c
    | None => startChan (topic w)
    end.
Proof.
  unfold Start, bind, get_topic, modify_topic.
  destruct (try_send (startChan (topic w)) 1); cbn.
  - destruct w as [t ? ? ? ?]; destruct t; cbn. repeat split.
  - repeat split.
Qed.

Lemma precreate_channels_obj t channelNames : forall n obj,
  topics n !! t = Some obj ->
  exists obj',
    topics (precreate_channels t channelNames n) !! t = Some obj' /\
    same_queue obj obj' /\
    startChan obj' = startChan obj /\
    (forall c, is_Some (channelMap obj' !! c) <->
       is_Some (channelMap obj !! c) \/
       (c ∈ channelNames /\ HasSuffix c "#ephemeral" = false)) /\
    topicMap (precreate_channels t channelNames n) = topicMap n /\
    isLoading (precreate_channels t channelNames n) = isLoading n /\
    opts (precreate_channels t channelNames n) = opts n /\
    (forall u, u <> t -> topics (precreate_channels t channelNames n) !! u = topics n !! u).
Proof.
  induction channelNames as [| c0 rest IH]; intros n obj Hobj.
  - exists obj. cbn. split; [exact Hobj |]. split; [apply same_queue_refl |].
    split; [reflexivity |]. split; [| auto].
    intros c. split; [auto |]. intros [Hc | [Hin _]]; [exact Hc |]. inversion Hin.
  - cbn [precreate_channels]. destruct (HasSuffix c0 "#ephemeral") eqn:Heph.
    + destruct (IH n obj Hobj) as (obj' & Hl & Hs & Hst & Hcm & Hrest).
      exists obj'. split; [exact Hl |]. split; [exact Hs |]. split; [exact Hst |].
      split; [| exact Hrest].
      intros c. rewrite Hcm. split.
      * intros [Hc | [Hin Hne]]; [auto |]. right. split; [right; exact Hin | exact Hne].
      * intros [Hc | [Hin Hne]]; [auto |]. right. split; [| exact Hne].
        apply elem_of_cons in Hin. destruct Hin as [-> | Hin]; [congruence | exact Hin].
    + set (w0 := mkWorld obj (nsqd_errValue n) (nsqd_bp n) (nsqd_spawned n) (nsqd_events n)).
      assert (Hl1 : topics (on_topic t (GetChannel c0) n) !! t
                    = Some (topic (snd (GetChannel c0 w0)))).
      { unfold on_topic. rewrite Hobj. cbn. rewrite lookup_insert_eq. reflexivity. }
      assert (Hother : forall u, u <> t ->
                topics (on_topic t (GetChannel c0) n) !! u = topics n !! u).
      { intros u Hne. unfold on_topic. rewrite Hobj. cbn. rewrite lookup_insert_ne by auto.
        reflexivity. }
      assert (Hframe : topicMap (on_topic t (GetChannel c0) n) = topicMap n /\
                       isLoading (on_topic t (GetChannel c0) n) = isLoading n /\
                       opts (on_topic t (GetChannel c0) n) = opts n).
      { unfold on_topic. rewrite Hobj. cbn. auto. }
      destruct (IH _ _ Hl1) as (obj' & Hl & Hs & Hst & Hcm & Htm & Hld & Hop & Hrest).
      destruct (GetChannel_same_queue c0 w0) as [Hs0 Hst0].
      exists obj'. split; [exact Hl |].
      split; [eapply same_queue_trans; [exact Hs0 | exact Hs] |].
      split; [rewrite Hst, Hst0; reflexivity |].
      split.
      { intros c. rewrite Hcm.
        assert (Hmap : channelMap (topic (snd (GetChannel c0 w0))) =
                  match channelMap obj !! c0 with
                  | Some _ => channelMap obj
                  | None => <[c0 := mkChannel (name obj) c0]> (channelMap obj)
                  end).
        { subst w0. unfold GetChannel, getOrCreateChannel, notify_channelUpdate, bind, ret,
            get_topic, modify_topic, emit. cbn [topic errValue bp spawned events].
          destruct (channelMap obj !! c0); [reflexivity |].
          destruct_topic obj; cbn. destruct t_exitChan; reflexivity. }
        rewrite Hmap. split.
        - intros [Hc | [Hin Hne]].
          + destruct (channelMap obj !! c0) eqn:Hc0; [auto |].
            destruct (decide (c = c0)) as [-> | Hd].
            * right. split; [left | exact Heph].
            * rewrite lookup_insert_ne in Hc by auto. auto.
          + right. split; [right; exact Hin | exact Hne].
        - intros [Hc | [Hin Hne]].
          + left. destruct (channelMap obj !! c0) eqn:Hc0; [exact Hc |].
            destruct (decide (c = c0)) as [-> | Hd].
            * rewrite lookup_insert_eq. eauto.
            * rewrite lookup_insert_ne by auto. exact Hc.
          + apply elem_of_cons in Hin. destruct Hin as [-> | Hin].
            * left. destruct (channelMap obj !! c0) eqn:Hc0; [eauto |].
              rewrite lookup_insert_eq. eauto.
            * right. auto. }
      destruct Hframe as (F1 & F2 & F3).
      split; [congruence |]. split; [congruence |]. split; [congruence |].
      intros u Hne. rewrite Hrest by exact Hne. apply Hother. exact Hne.
Qed.

Lemma GetTopic_new_topic topicName n :
  topicMap n !! topicName = None ->
  let t := fst (GetTopic' topicName n) in
  let n' := snd (GetTopic' topicName n) in
  t = fresh (dom (topics n)) /\
  topics n !! t = None /\
  topicMap n' = <[topicName := t]> (topicMap n) /\
  (forall u, u <> t -> topics n' !! u = topics n !! u) /\
  exists obj,
    topics n' !! t = Some obj /\
    name obj = topicName /\
    messageCount obj = 0 /\ messageBytes obj = 0 /\ exitFlag obj = 0 /\ paused obj = 0 /\
    buf (memoryMsgChan obj) = [] /\
    cap (memoryMsgChan obj) = MemQueueSize (opts n) /\
    (ephemeral obj = true <-> exists prefix, topicName = (prefix ++ "#ephemeral")%string) /\
    backend obj = (if ephemeral obj then inl DummyBackend else inr (diskqueue_New topicName)) /\
    (isLoading n = 1 -> channelMap obj = ∅ /\ buf (startChan obj) = []) /\
    (isLoading n <> 1 ->
       buf (startChan obj) = [1] /\
       forall c, is_Some (channelMap obj !! c) <->
         lookupdHTTPAddrs <> [] /\
         c ∈ fst (GetLookupdTopicChannels topicName lookupdHTTPAddrs) /\
         HasSuffix c "#ephemeral" = false).
Proof.
  intros Hnone. cbv zeta.
  set (t := fresh (dom (topics n))).
  assert (Hfresh : topics n !! t = None).
  { apply not_elem_of_dom. subst t. apply is_fresh. }
  set (eph := HasSuffix topicName "#ephemeral").
  set (obj0 := mkTopic 0 0 topicName ∅
                 (if eph then inl DummyBackend else inr (diskqueue_New topicName))
                 (make_chan (MemQueueSize (opts n))) (make_chan 1) false 0 eph false 0
               : Topic (dummyBackendQueue + D)).
  set (n1 := mkNSQD (<[topicName := t]> (topicMap n)) (isLoading n) (opts n)
               (<[t := obj0]> (topics n)) (nsqd_errValue n) (nsqd_bp n) (nsqd_spawned n)
               (nsqd_events n ++ [Go_messagePump topicName; Notify topicName])).
  assert (Hrun : GetTopic' topicName n =
            (t, snd (GetTopic_step diskqueue_New lookupdHTTPAddrs GetLookupdTopicChannels
                       topicName (At_created t) n1)) /\
            fst (GetTopic_step diskqueue_New lookupdHTTPAddrs GetLookupdTopicChannels
                   topicName (At_created t) n1) = Returned t).
  { assert (E1 : GetTopic_step diskqueue_New lookupdHTTPAddrs GetLookupdTopicChannels
                   topicName At_RLock n = (At_Lock, n)).
    { cbn [GetTopic_step]. rewrite Hnone. reflexivity. }
    assert (E2 : GetTopic_step diskqueue_New lookupdHTTPAddrs GetLookupdTopicChannels
                   topicName At_Lock n = (At_created t, n1)).
    { cbn [GetTopic_step]. rewrite Hnone. reflexivity. }
    assert (Hret : fst (GetTopic_step diskqueue_New lookupdHTTPAddrs GetLookupdTopicChannels
                     topicName (At_created t) n1) = Returned t).
    { cbn [GetTopic_step]. destruct (isLoading _ =? 1); reflexivity. }
    unfold GetTopic. rewrite E1, E2.
    destruct (GetTopic_step _ _ _ topicName (At_created t) n1) as [pc3 n3].
    cbn in Hret. subst pc3. auto. }
  destruct Hrun as [Hrun _]. rewrite Hrun. cbn [fst snd].
  split; [reflexivity |]. split; [exact Hfresh |].
  assert (Hobj0 : topics n1 !! t = Some obj0) by (subst n1; cbn; apply lookup_insert_eq).
  assert (Hephspec : ephemeral obj0 = true <->
                     exists prefix, topicName = (prefix ++ "#ephemeral")%string).
  { subst obj0. cbn. subst eph. apply HasSuffix_spec. }
  cbn [GetTopic_step snd].
  set (n1' := nsqd_emit (Logf LOG_INFO ("TOPIC(" ++ topicName ++ "): created")) n1).
  assert (Hobj1 : topics n1' !! t = Some obj0) by exact Hobj0.
  destruct (Z.eqb_spec (isLoading n1') 1) as [Hload | Hload].
  - cbn [snd]. split; [reflexivity |].
    split; [intros u Hne; subst n1' n1; cbn; apply lookup_insert_ne; auto |].
    exists obj0. split; [exact Hobj1 |]. subst obj0. cbn.
    do 7 (split; [reflexivity |]).
    split; [exact Hephspec |]. split; [reflexivity |].
    split; [intros _; split; reflexivity |].
    intros Hl. exfalso. apply Hl. exact Hload.
  - cbn [snd].
    set (n2 := if 0 <? len lookupdHTTPAddrs then _ else _).
    assert (Hn2 : exists obj2,
              topics n2 !! t = Some obj2 /\ same_queue obj0 obj2 /\
              startChan obj2 = startChan obj0 /\
              (forall c, is_Some (channelMap obj2 !! c) <->
                 lookupdHTTPAddrs <> [] /\
                 c ∈ fst (GetLookupdTopicChannels topicName lookupdHTTPAddrs) /\
                 HasSuffix c "#ephemeral" = false) /\
              topicMap n2 = topicMap n1 /\
              (forall u, u <> t -> topics n2 !! u = topics n1 !! u)).
    { subst n2. destruct (0 <? len lookupdHTTPAddrs) eqn:Haddr.
      - destruct (GetLookupdTopicChannels topicName lookupdHTTPAddrs) as [names e] eqn:Hq.
        set (n'' := match e with Some _ => _ | None => _ end).
        assert (Hobj'' : topics n'' !! t = Some obj0 /\ topicMap n'' = topicMap n1 /\
                         topics n'' = topics n1).
        { subst n''. destruct e; (split; [exact Hobj1 | split; reflexivity]). }
        destruct Hobj'' as (Hobj'' & Htm'' & Htp'').
        destruct (precreate_channels_obj t names n'' obj0 Hobj'')
          as (obj2 & Hl & Hs & Hst & Hcm & Htm & _ & _ & Hrest).
        exists obj2. split; [exact Hl |]. split; [exact Hs |]. split; [exact Hst |].
        split.
        { intros c. rewrite Hcm. subst obj0. cbn. rewrite lookup_empty. split.
          - intros [[x Hx] | [Hin Hne]]; [discriminate |].
            split; [| auto]. intros Hnil. rewrite Hnil in Haddr. discriminate.
          - intros (_ & Hin & Hne). auto. }
        split; [congruence |]. intros u Hne. rewrite Hrest by exact Hne. rewrite Htp''.
        reflexivity.
      - assert (Hnil : lookupdHTTPAddrs = []).
        { destruct lookupdHTTPAddrs; [reflexivity |]. unfold len in Haddr. cbn in Haddr.
          apply Z.ltb_ge in Haddr. lia. }
        set (n'' := if 0 <? len _ then _ else _).
        assert (Hobj'' : topics n'' !! t = Some obj0 /\ topicMap n'' = topicMap n1 /\
                         topics n'' = topics n1).
        { subst n''. destruct (0 <? len (NSQLookupdTCPAddresses (opts n1')));
            (split; [exact Hobj1 | split; reflexivity]). }
        destruct Hobj'' as (Hobj'' & Htm'' & Htp'').
        exists obj0. split; [exact Hobj'' |]. split; [apply same_queue_refl |].
        split; [reflexivity |]. split.
        { intros c. subst obj0. cbn. rewrite lookup_empty. split.
          - intros [x Hx]. discriminate.
          - intros (Hne & _). congruence. }
        split; [exact Htm'' |]. intros u _. rewrite Htp''. reflexivity. }
    destruct Hn2 as (obj2 & Hl2 & Hs2 & Hst2 & Hcm2 & Htm2 & Hrest2).
    destruct (on_topic_lookup t Start n2 obj2 Hl2) as (Hl3 & _ & Hrest3).
    set (w2 := mkWorld obj2 _ _ _ _) in Hl3.
    destruct (Start_same_queue w2) as (Hs3 & Hcm3 & Hst3).
    split; [rewrite on_topic_topicMap, Htm2; reflexivity |].
    split.
    { intros u Hne. rewrite Hrest3, Hrest2 by exact Hne. subst n1' n1. cbn.
      apply lookup_insert_ne. auto. }
    eexists. split; [exact Hl3 |].
    pose proof (same_queue_trans _ _ _ Hs2 Hs3) as Hs.
    destruct Hs as (S1 & S2 & S3 & S4 & S5 & S6 & S7 & S8 & S9 & S10).
    rewrite S1, S2, S3, S4, S5, S7, S8, S10.
    subst obj0. cbn [messageCount messageBytes name backend memoryMsgChan exitFlag ephemeral
                     paused buf cap make_chan].
    do 7 (split; [reflexivity |]).
    split; [exact Hephspec |]. split; [reflexivity |].
    split; [intros Hl; exfalso; apply Hload; exact Hl |].
    intros _. split.
    + rewrite Hst3. subst w2. cbn [topic]. rewrite Hst2. reflexivity.
    + intros c. rewrite Hcm3. subst w2. cbn [topic]. apply Hcm2.
Qed.


(** X16. [GetTopic] of a name that is not registered creates the topic
    at a new address and registers it there, leaving every other topic alone.
    The new topic carries the name, has zero counters, an empty memory queue
    of [MemQueueSize] slots, is neither exiting nor paused, and is ephemeral,
    with the dummy backend instead of a disk queue, exactly when its name ends
    in "#ephemeral". While the broker loads its metadata the topic comes back
    without channels and not started; otherwise it is started, and its
    channels are the ones lookupd knows for it that are not ephemeral (none
    when no lookupd is known). *)
Theorem GetTopic_creates topicName n :
  topicMap n !! topicName = None ->
  let t := fst (GetTopic' topicName n) in
  let n' := snd (GetTopic' topicName n) in
  t = fresh (dom (topics n)) /\
  topics n !! t = None /\
  topicMap n' = <[topicName := t]> (topicMap n) /\
  (forall u, u <> t -> topics n' !! u = topics n !! u) /\
  exists obj,
    topics n' !! t = Some obj /\
    name obj = topicName /\
    messageCount obj = 0 /\ messageBytes obj = 0 /\ exitFlag obj = 0 /\ paused obj = 0 /\
    buf (memoryMsgChan obj) = [] /\
    cap (memoryMsgChan obj) = MemQueueSize (opts n) /\
    (ephemeral obj = true <-> exists prefix, topicName = (prefix ++ "#ephemeral")%string) /\
    backend obj = (if ephemeral obj then inl DummyBackend else inr (diskqueue_New topicName)) /\
    (isLoading n = 1 -> channelMap obj = ∅ /\ buf (startChan obj) = []) /\
    (isLoading n <> 1 ->
       buf (startChan obj) = [1] /\
       forall c, is_Some (channelMap obj !! c) <->
         lookupdHTTPAddrs <> [] /\
         c ∈ fst (GetLookupdTopicChannels topicName lookupdHTTPAddrs) /\
         HasSuffix c "#ephemeral" = false).
Proof. apply GetTopic_new_topic. Qed.

Lemma GetTopic_registered_topic topicName n t :
  topicMap n !! topicName = Some t -> GetTopic' topicName n = (t, n).
Proof.
  intros Ht. unfold GetTopic. cbn [GetTopic_step]. rewrite Ht. reflexivity.
Qed.

End GetTopicProps.

Section DeleteTopicProps.

Context {D : Type} `{BackendQueue D}.

Variable diskqueue_New : string -> D.
Variable lookupdHTTPAddrs : list string.
Variable GetLookupdTopicChannels : string -> list string -> list string * option error.
Variable Channel_Close_result : Channel -> option error.

Implicit Types (n : @NSQD D).

Abbreviation GetTopic'' := (GetTopic diskqueue_New lookupdHTTPAddrs GetLookupdTopicChannels).
Abbreviation Delete_step' := (DeleteExistingTopic_step Channel_Close_result).

(** X17. [DeleteExistingTopic] deletes the topic before it takes it out
    of the registry, so that writers meet the deleted topic rather than a new
    one: once [topic.Delete()] has run and until the entry is removed,
    [GetTopic] still returns the old topic, on which [PutMessage] fails with
    "exiting". After the removal [GetTopic] creates a topic at another
    address, registered under the name, with zero counters and an empty
    queue; the deleted topic stays as it was, exiting. *)
Theorem DeleteExistingTopic_orders_writes topicName n t obj :
  topicMap n !! topicName = Some t ->
  topics n !! t = Some obj ->
  exitFlag obj = 0 ->
  let n1 := snd (Delete_step' topicName (Delete_at_topic_Delete t) n) in
  let n2 := snd (Delete_step' topicName Delete_at_Lock n1) in
  Delete_step' topicName Delete_at_RLock n = (Delete_at_topic_Delete t, n) /\
  (GetTopic'' topicName n1 = (t, n1) /\
   exists obj1,
     topics n1 !! t = Some obj1 /\
     forall m e b s ev,
       PutMessage m (mkWorld obj1 e b s ev) = (Some "exiting", mkWorld obj1 e b s ev)) /\
  DeleteExistingTopic Channel_Close_result topicName n = (None, n2) /\
  (let t' := fst (GetTopic'' topicName n2) in
   let n3 := snd (GetTopic'' topicName n2) in
   t' <> t /\
   topicMap n3 !! topicName = Some t' /\
   (exists obj2,
      topics n3 !! t' = Some obj2 /\ name obj2 = topicName /\ exitFlag obj2 = 0 /\
      messageCount obj2 = 0 /\ buf (memoryMsgChan obj2) = []) /\
   (exists obj1, topics n3 !! t = Some obj1 /\ exitFlag obj1 = 1)).
Proof.
  intros Ht Hobj Hflag. cbv zeta. cbn [DeleteExistingTopic_step snd].
  rewrite Ht. split; [reflexivity |].
  destruct (on_topic_lookup t (Delete Channel_Close_result) n obj Hobj) as (Hl & _ & Hrest).
  set (n1 := on_topic t (Delete Channel_Close_result) n) in *.
  set (obj1 := topic (snd (Delete Channel_Close_result
                 (mkWorld obj (nsqd_errValue n) (nsqd_bp n) (nsqd_spawned n) (nsqd_events n)))))
    in *.
  assert (Hflag1 : exitFlag obj1 = 1).
  { subst obj1. unfold Delete. rewrite exit_deleting by exact Hflag. cbv zeta. cbn [topic backend].
    destruct (bq_Empty (backend obj)) as [b1 e1]. destruct (bq_Delete b1) as [b2 e2].
    destruct obj; reflexivity. }
  assert (Htm1 : topicMap n1 = topicMap n) by apply on_topic_topicMap.
  split.
  { split.
    - apply GetTopic_registered_topic. rewrite Htm1. exact Ht.
    - exists obj1. split; [exact Hl |]. intros m e b s ev.
      rewrite PutMessage_unfold. cbn [topic]. rewrite Hflag1. reflexivity. }
  split.
  { rewrite DeleteExistingTopic_run, Ht. cbv zeta. fold n1. rewrite Htm1. reflexivity. }
  set (n2 := mkNSQD (delete topicName (topicMap n1)) _ _ _ _ _ _ _).
  assert (Hnone : topicMap n2 !! topicName = None) by (subst n2; cbn; apply lookup_delete_eq).
  destruct (GetTopic_new_topic diskqueue_New lookupdHTTPAddrs GetLookupdTopicChannels
              topicName n2 Hnone)
    as (Hfr & Hfresh & Htm3 & Hrest3 & obj2 & Hl2 & Hn2 & Hc2 & _ & Hf2 & _ & Hb2 & _).
  assert (Hne : fst (GetTopic'' topicName n2) <> t).
  { intros Heq. rewrite Heq in Hfresh. subst n2. cbn in Hfresh. rewrite Hl in Hfresh.
    discriminate. }
  split; [exact Hne |].
  split; [rewrite Htm3; apply lookup_insert_eq |].
  split; [exists obj2; auto |].
  exists obj1. split; [| exact Hflag1].
  rewrite Hrest3 by (intros Heq; apply Hne; symmetry; exact Heq).
  subst n2. cbn. exact Hl.
Qed.

End DeleteTopicProps.

Section ChannelsProps.

Context {D : Type} `{BackendQueue D}.

Implicit Types (n : @NSQD D).

(** X18. [channels] returns exactly the channels of the registered
    topics: a channel is in the slice if and only if it is in the
    [channelMap] of a topic that [topicMap] points to. *)
Theorem NSQD_channels_spec n c :
  c ∈ NSQD_channels n <->
  exists topicName t obj channelName,
    topicMap n !! topicName = Some t /\
    topics n !! t = Some obj /\
    channelMap obj !! channelName = Some c.
Proof.
  unfold NSQD_channels. rewrite list_elem_of_In, in_flat_map. split.
  - intros ([topicName t] & Hin & Hc). cbn [snd] in Hc.
    apply list_elem_of_In, elem_of_map_to_list in Hin.
    destruct (topics n !! t) as [obj |] eqn:Hobj; [| destruct Hc].
    apply list_elem_of_In, list_elem_of_fmap in Hc. destruct Hc as ([k c'] & -> & Hk).
    apply elem_of_map_to_list in Hk. exists topicName, t, obj, k. auto.
  - intros (topicName & t & obj & k & Ht & Hobj & Hk).
    exists (topicName, t). split.
    + apply list_elem_of_In, elem_of_map_to_list. exact Ht.
    + cbn [snd]. rewrite Hobj. apply list_elem_of_In, list_elem_of_fmap.
      exists (k, c). split; [reflexivity |]. apply elem_of_map_to_list. exact Hk.
Qed.
End ChannelsProps.

Section ClientsProps.

Context {Client : Type}.

Implicit Types (clients : gmap Z Client).

(** X19. The table of clients holds one client per id: after
    [AddClient] the id maps to the client given, replacing any earlier one;
    [RemoveClient] of that id removes it again (giving back the table as it
    was if the id was new), [RemoveClient] of an unknown id changes nothing,
    so a second [RemoveClient] is a no-op; other ids are never touched. *)
Theorem RemoveClient_undoes_AddClient clientID (client : Client) clients :
  RemoveClient clientID (AddClient clientID client clients) = delete clientID clients /\
  (clients !! clientID = None ->
     RemoveClient clientID clients = clients /\
     RemoveClient clientID (AddClient clientID client clients) = clients) /\
  RemoveClient clientID (RemoveClient clientID clients) = RemoveClient clientID clients /\
  (forall other, other <> clientID ->
     AddClient clientID client clients !! other = clients !! other /\
     RemoveClient clientID clients !! other = clients !! other) /\
  AddClient clientID client clients !! clientID = Some client /\
  RemoveClient clientID clients !! clientID = None.
Proof.
  unfold RemoveClient, AddClient.
  rewrite lookup_insert_eq.
  split; [apply delete_insert_eq |].
  split.
  { intros Hnone. rewrite Hnone. split; [reflexivity |].
    rewrite delete_insert_eq. apply delete_id. exact Hnone. }
  split.
  { destruct (clients !! clientID) eqn:Hc.
    - rewrite lookup_delete_eq. reflexivity.
    - rewrite Hc. reflexivity. }
  split.
  { intros other Hne. rewrite lookup_insert_ne by auto. split; [reflexivity |].
    destruct (clients !! clientID); [apply lookup_delete_ne; auto | reflexivity]. }
  split; [reflexivity |].
  destruct (clients !! clientID) eqn:Hc; [apply lookup_delete_eq | exact Hc].
Qed.
End ClientsProps.

Lemma GetTopic_creates_witness :
  topicMap empty_nsqd !! "orders" = None /\
  topicMap (snd (GetTopic demo_diskqueue_New [] (fun _ _ => ([], None)) "orders" empty_nsqd))
    = <["orders" := fst (GetTopic demo_diskqueue_New [] (fun _ _ => ([], None)) "orders"
                           empty_nsqd)]> (topicMap empty_nsqd).
Proof.
  assert (Hnone : topicMap empty_nsqd !! "orders" = None) by reflexivity.
  split; [exact Hnone |].
  exact (proj1 (proj2 (proj2 (GetTopic_creates demo_diskqueue_New [] (fun _ _ => ([], None))
                                "orders" empty_nsqd Hnone)))).
Defined.

Lemma DeleteExistingTopic_orders_writes_witness :
  topicMap orders_nsqd !! "orders" = Some 0%nat /\
  topics orders_nsqd !! 0%nat = Some orders_topic /\
  exitFlag orders_topic = 0 /\
  DeleteExistingTopic (fun _ => None) "orders" orders_nsqd =
    (None,
     snd (DeleteExistingTopic_step (fun _ => None) "orders" Delete_at_Lock
            (snd (DeleteExistingTopic_step (fun _ => None) "orders"
                    (Delete_at_topic_Delete 0) orders_nsqd)))).
Proof.
  assert (Ht : topicMap orders_nsqd !! "orders" = Some 0%nat) by (vm_compute; reflexivity).
  assert (Hobj : topics orders_nsqd !! 0%nat = Some orders_topic) by (vm_compute; reflexivity).
  assert (Hflag : exitFlag orders_topic = 0) by reflexivity.
  split; [exact Ht |]. split; [exact Hobj |]. split; [exact Hflag |].
  exact (proj1 (proj2 (proj2 (DeleteExistingTopic_orders_writes demo_diskqueue_New []
                                (fun _ _ => ([], None)) (fun _ => None) "orders" orders_nsqd
                                0%nat orders_topic Ht Hobj Hflag)))).
Defined.

(** ** More on the queue scan *)

Section ScanMoreProps.

Context {Queues : Type}.
Variable processInFlightQueue : Channel -> Z -> Queues -> Queues * bool.
Variable processDeferredQueue : Channel -> Z -> Queues -> Queues * bool.
Variable UniqRands : Z -> Z -> nat -> list Z.

(** Unfolding of the model's functions, ahead of their abbreviations. *)
Ltac unfold_dispatch := cbn [dispatch].
Ltac unfold_turn := cbn [queueScanLoop_step].
Ltac unfold_scan_pass := unfold scan_pass.
Ltac unfold_resizePool_loop := cbn [resizePool_loop].
Ltac unfold_resizePool := unfold resizePool.

Abbreviation dispatch := (dispatch processInFlightQueue processDeferredQueue).
Abbreviation queueScanLoop_step :=
  (queueScanLoop_step processInFlightQueue processDeferredQueue UniqRands).
Abbreviation resizePool := (resizePool processInFlightQueue processDeferredQueue).
Abbreviation resizePool_loop := (resizePool_loop processInFlightQueue processDeferredQueue).

Implicit Types (s : @ScanState Queues).

Lemma dispatch_completes indices : forall s,
  (1 <= in_loop (workers s))%nat ->
  Forall (fun i => 0 <= i < len (channels s)) indices ->
  exists responses q,
    dispatch indices s =
      Done (responses, mkScanState (poolSize s) (workers s) (channels s) q (now s) (rand s)) /\
    length responses = length indices.
Proof.
  induction indices as [| i rest IH]; intros s Hw Hin.
  - exists [], (queues s). destruct s; cbn. auto.
  - inversion Hin as [| ? ? Hi Hrest]; subst. unfold_dispatch.
    destruct (Z.ltb_spec i 0) as [? | _]; [lia |].
    destruct (Z.leb_spec (len (channels s)) i) as [? | _]; [lia |]. cbn [orb].
    destruct (channels s !! Z.to_nat i) as [c |] eqn:Hc.
    2: { apply lookup_ge_None in Hc. unfold len in Hi. lia. }
    destruct (in_loop (workers s)) as [| k] eqn:Hk; [lia |].
    unfold queueScanWorker.
    destruct (processInFlightQueue c (now s) (queues s)) as [q1 expired].
    destruct (processDeferredQueue c (now s) q1) as [q2 released].
    set (s1 := mkScanState _ _ _ q2 _ _).
    destruct (IH s1) as (responses & q & Hrun & Hlen);
      [subst s1; cbn [workers]; rewrite Hk; lia | exact Hrest |].
    rewrite Hrun. eexists _, q. split; [reflexivity |]. cbn. rewrite Hlen. reflexivity.
Qed.

Lemma count_dirty_enough num : forall responseCh numDirty0,
  (num <= length responseCh)%nat ->
  exists numDirty rest, count_dirty num responseCh numDirty0 = Some (numDirty, rest).
Proof.
  induction num as [| num IH]; intros responseCh numDirty0 Hlen; [cbn; eauto |].
  destruct responseCh as [| dirty rest]; [cbn in Hlen; lia |].
  cbn [count_dirty]. apply IH. cbn in Hlen. lia.
Qed.

(** X20. A tick of the work ticker with no channel cached is skipped.
    With channels cached it starts a pass over
    min([QueueScanSelectionCount], [len(channels)]) of them, and with at
    least one worker in its loop the pass completes, whatever the scans of
    the channels find: every sampled channel is scanned and answered, the
    pool and the cached channels are as before, and the loop is at the label
    [loop] again or back in its [select]. ([util.UniqRands] is taken to
    return the asked number of indices below its bound.) *)
Theorem work_tick_runs_a_pass fuel picks o s :
  (1 <= in_loop (workers s))%nat ->
  0 <= QueueScanSelectionCount o ->
  (forall quantity maxval seed,
     0 <= quantity <= maxval ->
     len (UniqRands quantity maxval seed) = quantity /\
     Forall (fun i => 0 <= i < maxval) (UniqRands quantity maxval seed)) ->
  let num := Z.min (QueueScanSelectionCount o) (len (channels s)) in
  (channels s = [] ->
     queueScanLoop_step fuel picks o At_select Tick_workTicker s = Done (At_select, s)) /\
  (channels s <> [] ->
     queueScanLoop_step fuel picks o At_select Tick_workTicker s = Done (At_loop num, s) /\
     exists pc' q,
       queueScanLoop_step fuel picks o (At_loop num) Tick_workTicker s =
         Done (pc', mkScanState (poolSize s) (workers s) (channels s) q (now s) (S (rand s))) /\
       (pc' = At_loop num \/ pc' = At_select)).
Proof.
  intros Hw Hsel Hrands. cbv zeta. split.
  - intros Hnil. unfold_turn. rewrite Hnil. reflexivity.
  - intros Hsome.
    assert (Hlen : 0 < len (channels s)).
    { destruct (channels s); [congruence |]. unfold len. cbn. lia. }
    split.
    + unfold_turn.
      destruct (Z.eqb_spec (len (channels s)) 0) as [? | _]; [lia |].
      destruct (Z.ltb_spec (len (channels s)) (QueueScanSelectionCount o)) as [Hlt | Hge].
      * rewrite Z.min_r by lia. reflexivity.
      * rewrite Z.min_l by lia. reflexivity.
    + set (num := Z.min (QueueScanSelectionCount o) (len (channels s))).
      unfold_turn. unfold_scan_pass.
      destruct (Hrands num (len (channels s)) (rand s)) as [Hcount Hrange];
        [unfold num; lia |].
      set (s0 := mkScanState (poolSize s) (workers s) (channels s) (queues s) (now s)
                   (S (rand s))).
      destruct (dispatch_completes (UniqRands num (len (channels s)) (rand s)) s0)
        as (responses & q & Hrun & Hresp); [exact Hw | exact Hrange |].
      rewrite Hrun.
      destruct (count_dirty_enough (Z.to_nat num) responses 0) as (numDirty & rest & Hcd).
      { rewrite Hresp. unfold len in Hcount |- *. lia. }
      rewrite Hcd. cbn [poolSize workers channels now rand s0].
      eexists _, q. split; [reflexivity |].
      unfold after_pass. destruct (Float64.gt _ _); auto.
Qed.

Lemma resizePool_loop_blocks picks ideal : forall fuel s,
  ideal < 0 -> pool_ok s ->
  (in_loop (workers s) < fuel)%nat ->
  resizePool_loop fuel picks ideal s = Blocked.
Proof.
  induction fuel as [| fuel IH]; intros s Hideal [Hcount Hrange] Hfuel; [lia |].
  unfold_resizePool_loop.
  destruct (Z.eqb_spec ideal (poolSize s)) as [Heq | _]; [lia |].
  destruct (Z.ltb_spec ideal (poolSize s)) as [_ | Hge]; [| lia].
  destruct (send_closeCh processInFlightQueue processDeferredQueue (picks fuel) s)
    as [ws' |] eqn:Hsend; [| reflexivity].
  destruct (send_closeCh_one _ _ _ _ _ Hsend) as (Hin & _ & _).
  rewrite int_small by lia. apply IH; [exact Hideal | | cbn [workers]; lia].
  split; cbn [poolSize workers]; lia.
Qed.

(** X21. With a negative [QueueScanWorkerPoolMax] and at least four
    channels [resizePool] never returns: the target is the negative maximum,
    so every worker is told to return, and the send on [closeCh] that follows
    the last one finds no receiver. *)
Theorem resizePool_blocks_on_negative_max fuel picks o num s :
  QueueScanWorkerPoolMax o < 0 ->
  4 <= num <= 2 ^ 53 ->
  pool_ok s ->
  (in_loop (workers s) < fuel)%nat ->
  resizePool fuel picks o num s = Blocked.
Proof.
  intros HMax Hnum Hok Hfuel. unfold_resizePool.
  apply resizePool_loop_blocks; [| exact Hok | exact Hfuel].
  unfold idealPoolSize. rewrite quarter_of_int by lia.
  assert (1 <= num / 4) by (apply Z.div_le_lower_bound; lia).
  destruct (Z.ltb_spec (num / 4) 1); [lia |].
  destruct (Z.ltb_spec (QueueScanWorkerPoolMax o) (num / 4)); lia.
Qed.

End ScanMoreProps.

Lemma demo_UniqRands_in_range quantity maxval seed :
  0 <= quantity <= maxval ->
  len (demo_UniqRands quantity maxval seed) = quantity /\
  Forall (fun i => 0 <= i < maxval) (demo_UniqRands quantity maxval seed).
Proof.
  intros Hq. unfold demo_UniqRands, len. rewrite length_map, length_seq. split; [lia |].
  apply Forall_forall. intros i Hi. apply list_elem_of_In, in_map_iff in Hi. destruct Hi as (k & <- & Hk).
  apply in_seq in Hk. lia.
Qed.

Lemma work_tick_runs_a_pass_witness :
  (1 <= in_loop (workers four_channels))%nat /\
  0 <= QueueScanSelectionCount demo_options /\
  queueScanLoop_step demo_processInFlightQueue demo_processDeferredQueue demo_UniqRands
    1 (fun k => k) demo_options At_select Tick_workTicker four_channels
    = Done (At_loop 4, four_channels).
Proof.
  assert (Hw : (1 <= in_loop (workers four_channels))%nat) by (vm_compute; lia).
  assert (Hsel : 0 <= QueueScanSelectionCount demo_options) by (vm_compute; discriminate).
  split; [exact Hw |]. split; [exact Hsel |].
  destruct (work_tick_runs_a_pass demo_processInFlightQueue demo_processDeferredQueue
              demo_UniqRands 1%nat (fun k => k) demo_options four_channels Hw Hsel
              demo_UniqRands_in_range) as [_ Hsome].
  destruct Hsome as [Htick _]; [discriminate |].
  exact Htick.
Defined.

Lemma resizePool_blocks_on_negative_max_witness :
  QueueScanWorkerPoolMax negative_max_options < 0 /\
  pool_ok six_workers /\
  resizePool demo_processInFlightQueue demo_processDeferredQueue 7 (fun k => k)
    negative_max_options 8 six_workers = Blocked.
Proof.
  assert (HMax : QueueScanWorkerPoolMax negative_max_options < 0) by reflexivity.
  assert (Hok : pool_ok six_workers) by (split; [reflexivity | vm_compute; reflexivity]).
  split; [exact HMax |]. split; [exact Hok |].
  apply (resizePool_blocks_on_negative_max demo_processInFlightQueue demo_processDeferredQueue
           7%nat (fun k => k) negative_max_options 8 six_workers HMax); [| exact Hok |].
  - split; [discriminate | vm_compute; discriminate].
  - vm_compute. lia.
Defined.

